(** * d3-relationshipgraph: a shallow embedding of [src/index.js]

    The development follows the source file top to bottom: the helpers the
    script adds to the built-in prototypes, the constructor, [verifyJson],
    and the passes of [generate] (parent sort, grouping, row/index
    assignment, size tracking), first on values and then on a store of
    record objects and arrays, since [generate] works in place.

    Conventions of the model.
    - A JavaScript string is a [string]; its characters stand for code
      units, compared by their codes as [<] and [>] do in the source.
      The keys of the object a tooltip shows are lists of UTF-16 code
      units, since [toUpperCase] is applied to them.
    - Numbers that the layout manipulates are integers ([Z]); where the
      source can produce [NaN] the model uses [option Z] with [None].
    - [undefined] is [None]: a field that a record does not carry, an
      argument that the caller left out.
    - A record's [parent] is a string and its [color] and [parentColor]
      are integers whenever they are present.
    - The page supplies two measurements, the width of the containing
      element and the pixel width of the longest label; they are
      arguments of [generate].
*)

From Stdlib Require Import ZArith NArith List String Ascii Bool Lia.
From Stdlib Require Import Sorting.Permutation Sorting.Sorted.
From Stdlib Require Import Structures.OrderedTypeEx.
From Stdlib Require Import DecimalString.
Import ListNotations.

Local Open Scope string_scope.
Local Open Scope list_scope.
Local Open Scope Z_scope.

(** ** Built-in prototype helpers (lines 59-78) *)

(** [Array.prototype.indexOf] on an array of strings: the first position
    holding [key], or [-1]. *)
Fixpoint indexOf_from (i : Z) (this : list string) (key : string) : Z :=
  match this with
  | [] => -1
  | x :: rest => if String.eqb x key then i else indexOf_from (i + 1) rest key
  end.

Definition indexOf (this : list string) (key : string) : Z :=
  indexOf_from 0 this key.

(** [Array.prototype.contains]: [this.indexOf(key) > -1]. *)
Definition contains (this : list string) (key : string) : bool :=
  indexOf this key >? -1.

(** [String.prototype.abbreviate]:
    [(this.length >= 25) ? this.substring(0, 25) + '...' : this]. *)
Definition abbreviate (this : string) : string :=
  if 25 <=? Z.of_nat (String.length this)
  then String.append (String.substring 0 25 this) "..."
  else this.

(** ** Strings as code units

    Where the characters of a string matter one by one (the keys of the
    hovered object, which the tooltip upper-cases), the string is the list
    of its UTF-16 code units. *)

Definition ustring := list N.

Definition units (s : string) : ustring :=
  map N_of_ascii (list_ascii_of_string s).

Fixpoint ustring_eqb (s t : ustring) : bool :=
  match s, t with
  | [], [] => true
  | a :: s', b :: t' => N.eqb a b && ustring_eqb s' t'
  | _, _ => false
  end.

(** [Array.prototype.indexOf] and [Array.prototype.contains] on an array
    of such strings. *)
Fixpoint indexOf_units_from (i : Z) (this : list ustring) (key : ustring) : Z :=
  match this with
  | [] => -1
  | x :: rest =>
      if ustring_eqb x key then i else indexOf_units_from (i + 1) rest key
  end.

Definition contains_units (this : list ustring) (key : ustring) : bool :=
  indexOf_units_from 0 this key >? -1.

(** [String.prototype.toUpperCase] on one character, for the characters
    of Basic Latin and Latin-1 (code units 0 to 255) and for the two
    letters beyond them whose capital is an ASCII letter: dotless i
    (U+0131, capital I) and long s (U+017F, capital S).  Sharp s (223)
    becomes SS; the capitals of the micro sign (181) and of y with
    diaeresis (255) lie outside Latin-1; the multiplication and division
    signs (215, 247) are no letters.  The other characters are not
    modelled: [None]. *)
Definition toUpperCase_unit (c : N) : option ustring :=
  (if c <? 128 then
     Some [if (97 <=? c) && (c <=? 122) then c - 32 else c]
   else if c <? 256 then
     if c =? 181 then Some [924]
     else if c =? 223 then Some [83; 83]
     else if c =? 255 then Some [376]
     else if (224 <=? c) && negb (c =? 247) then Some [c - 32]
     else Some [c]
   else if c =? 305 then Some [73]
   else if c =? 383 then Some [83]
   else None)%N.

(** [String.prototype.toUpperCase]: character by character; [None] when
    the string has a character that is not modelled. *)
Fixpoint toUpperCase (s : ustring) : option ustring :=
  match s with
  | [] => Some []
  | c :: rest =>
      match toUpperCase_unit c, toUpperCase rest with
      | Some u, Some v => Some (u ++ v)
      | _, _ => None
      end
  end.

(** ** Plain objects used as dictionaries

    [parentSizes] is an object literal whose own properties are created by
    assignment.  The model keeps the own properties in creation order;
    [Object_keys] then lists them the way [Object.keys] does: the keys that
    are array indices first, in increasing numeric order, and the other
    keys after them in creation order. *)

Definition JsObject := list (string * Z).

Definition digit (c : ascii) : option N :=
  let n := N_of_ascii c in
  if ((48 <=? n) && (n <=? 57))%N then Some (n - 48)%N else None.

Fixpoint parse_digits (acc : N) (s : string) : option N :=
  match s with
  | EmptyString => Some acc
  | String c rest =>
      match digit c with
      | Some d => parse_digits (10 * acc + d)%N rest
      | None => None
      end
  end.

(** A property name is an array index when it is the canonical decimal
    form of an integer below [2^32 - 1]. *)
Definition array_index (s : string) : option N :=
  match s with
  | EmptyString => None
  | String c rest =>
      if Ascii.eqb c "0"
      then match rest with EmptyString => Some 0%N | _ => None end
      else match parse_digits 0 s with
           | Some n => if (n <? 4294967295)%N then Some n else None
           | None => None
           end
  end.

Fixpoint insert_index (k : N * string) (l : list (N * string)) : list (N * string) :=
  match l with
  | [] => [k]
  | h :: t => if (fst k <=? fst h)%N then k :: l else h :: insert_index k t
  end.

Fixpoint index_keys (o : JsObject) : list (N * string) :=
  match o with
  | [] => []
  | (k, _) :: rest =>
      match array_index k with
      | Some n => insert_index (n, k) (index_keys rest)
      | None => index_keys rest
      end
  end.

Fixpoint name_keys (o : JsObject) : list string :=
  match o with
  | [] => []
  | (k, _) :: rest =>
      match array_index k with
      | Some _ => name_keys rest
      | None => k :: name_keys rest
      end
  end.

Definition Object_keys (o : JsObject) : list string :=
  map snd (index_keys o) ++ name_keys o.

(** [o[key]] for an own property, [undefined] otherwise. *)
Fixpoint get_prop (o : JsObject) (key : string) : option Z :=
  match o with
  | [] => None
  | (k, v) :: rest => if String.eqb k key then Some v else get_prop rest key
  end.

(** [o[key]++] on an own property. *)
Fixpoint incr_prop (o : JsObject) (key : string) : JsObject :=
  match o with
  | [] => []
  | (k, v) :: rest =>
      if String.eqb k key then (k, v + 1) :: rest else (k, v) :: incr_prop rest key
  end.

(** [o[key] = 1] where [key] is not an own property yet.  Assigning a
    number to ["__proto__"] goes to the inherited setter, which ignores
    it, so no own property appears. *)
Definition create_prop (o : JsObject) (key : string) : JsObject :=
  if String.eqb key "__proto__" then o else o ++ [(key, 1)].

(** ** Records *)

(** A child record as the caller supplies it and as [generate] annotates
    it.  [fields] holds the other display fields, in the record's own
    key order. *)
Record Child : Type := mkChild {
  parent : option string;
  color : option Z;
  parentColor : option Z;
  row : option Z;
  index : option Z;
  fields : list (string * string)
}.

(** [element.row = r; element.index = i]. *)
Definition set_row_index (element : Child) (r i : Z) : Child :=
  {| parent := parent element;
     color := color element;
     parentColor := parentColor element;
     row := Some r;
     index := Some i;
     fields := fields element |}.

(** ** The constructor (lines 94-178) *)

Record Config : Type := mkConfig {
  blockSize : Z;
  showTooltips : bool;
  maxChildCount : Z;
  showKeys : bool
}.

(** [tip] is the tooltip's direction when a tooltip exists, [None] for
    [null]. *)
Record Graph : Type := mkGraph {
  config : Config;
  tip : option string
}.

(** [x || d] for an optional boolean and for an optional number. *)
Definition or_bool (x : option bool) (d : bool) : bool :=
  match x with
  | Some true => true
  | _ => d
  end.

Definition or_num (x : option Z) (d : Z) : Z :=
  match x with
  | Some n => if n =? 0 then d else n
  | None => d
  end.

(** The constructor.  When [config.showTooltips] holds, the tooltip is
    created and [setTooltipPlacement('w')] places it west; otherwise
    [tip] is [null]. *)
Definition RelationshipGraph (showTooltips_arg : option bool)
    (maxChildCount_arg : option Z) : Graph :=
  let cfg := {| blockSize := 24;
                showTooltips := or_bool showTooltips_arg true;
                maxChildCount := or_num maxChildCount_arg 0;
                showKeys := true |} in
  {| config := cfg;
     tip := if showTooltips cfg then Some "w" else None |}.

(** [RelationshipGraph.prototype.showTooltipKeys]. *)
Definition showTooltipKeys (sk : bool) (g : Graph) : Graph :=
  {| config := {| blockSize := blockSize (config g);
                  showTooltips := showTooltips (config g);
                  maxChildCount := maxChildCount (config g);
                  showKeys := sk |};
     tip := tip g |}.

(** ** The tooltip body (lines 128-157)

    The argument is the hovered object as [Object.keys] walks it: its own
    keys in order, each with the value that ends up in the cell.  The
    result is the table, one list of cells per [tr]; it is [None] when a
    key has a character whose capital is not modelled. *)

Definition hiddenKeys : list ustring :=
  map units ["ROW"; "INDEX"; "COLOR"; "PARENTCOLOR"; "PARENT"].

Definition tooltip_row (showKeys_ : bool) (element value : ustring)
    : list ustring :=
  (if showKeys_ then [element] else []) ++ [value].

Fixpoint tooltip_table (showKeys_ : bool) (obj : list (ustring * ustring))
    : option (list (list ustring)) :=
  match obj with
  | [] => Some []
  | (element, value) :: rest =>
      match toUpperCase element, tooltip_table showKeys_ rest with
      | Some upperCaseKey, Some rows =>
          if negb (contains_units hiddenKeys upperCaseKey)
          then Some (tooltip_row showKeys_ element value :: rows)
          else Some rows
      | _, _ => None
      end
  end.

(** The [html] callback of the tooltip of graph [g]: it reads
    [config.showKeys] when the tooltip is shown. *)
Definition tooltip_html (g : Graph) (obj : list (ustring * ustring))
    : option (list (list ustring)) :=
  tooltip_table (showKeys (config g)) obj.

(** ** verifyJson (lines 202-219) *)

Inductive Exn : Type :=
| JSON_cannot_be_empty
| Child_does_not_have_a_parent
| Child_color_is_unsupported
| Parent_color_is_unsupported
| TypeError.

Definition out_of (lo hi : Z) (v : option Z) : bool :=
  match v with
  | None => true
  | Some n => (n >? hi) || (n <? lo)
  end.

(** The body of the [forEach] callback: [Some e] when it throws [e]. *)
Definition verify_element (element : Child) : option Exn :=
  match parent element with
  | None => Some Child_does_not_have_a_parent
  | Some _ =>
      if out_of 0 3 (color element) then Some Child_color_is_unsupported
      else if out_of 0 4 (parentColor element) then Some Parent_color_is_unsupported
      else None
  end.

Fixpoint verify_each (json : list Child) : option Exn :=
  match json with
  | [] => None
  | element :: rest =>
      match verify_element element with
      | Some e => Some e
      | None => verify_each rest
      end
  end.

Definition verifyJson (json : option (list Child)) : Exn + bool :=
  match json with
  | None => inl JSON_cannot_be_empty
  | Some l =>
      if Z.of_nat (List.length l) =? 0 then inl JSON_cannot_be_empty
      else match verify_each l with
           | Some e => inl e
           | None => inr true
           end
  end.

(** ** The parent sort (lines 238-246) *)

(** [a < b] and [a > b] on two [parent] values; a comparison with
    [undefined] is false. *)
Definition js_lt (a b : option string) : bool :=
  match a, b with
  | Some x, Some y => String.ltb x y
  | _, _ => false
  end.

Definition compare_parent (p1 p2 : option string) : Z :=
  if js_lt p1 p2 then -1
  else if js_lt p2 p1 then 1
  else 0.

(** [Array.prototype.sort] with a comparison function: a stable sort, as
    the language requires; insertion from the right end keeps equal
    elements in their input order. *)
Section Sort.
Context {A : Type} (cmp : A -> A -> Z).

Fixpoint sort_insert (x : A) (l : list A) : list A :=
  match l with
  | [] => [x]
  | y :: rest => if cmp x y <=? 0 then x :: l else y :: sort_insert x rest
  end.

Fixpoint sort (l : list A) : list A :=
  match l with
  | [] => []
  | x :: rest => sort_insert x (sort rest)
  end.
End Sort.

Definition by_parent (child1 child2 : Child) : Z :=
  compare_parent (parent child1) (parent child2).

(** ** Grouping (lines 250-259) *)

(** [parentSizes.containsKey(parent)]: the method is inherited from
    [Object.prototype]; once [parentSizes] has an own property of that
    name the call finds a number in its place and throws. *)
Definition containsKey (this : JsObject) (key : string) : Exn + bool :=
  match get_prop this "containsKey" with
  | Some _ => inl TypeError
  | None => inr (indexOf (Object_keys this) key >? -1)
  end.

Definition group_element (st : list string * JsObject) (element : Child)
    : Exn + (list string * JsObject) :=
  let '(parents, parentSizes) := st in
  match parent element with
  | None => inl TypeError
  | Some p =>
      match containsKey parentSizes p with
      | inl e => inl e
      | inr true => inr (parents, incr_prop parentSizes p)
      | inr false => inr (parents ++ [abbreviate p], create_prop parentSizes p)
      end
  end.

Fixpoint group_from (st : list string * JsObject) (json : list Child)
    : Exn + (list string * JsObject) :=
  match json with
  | [] => inr st
  | element :: rest =>
      match group_element st element with
      | inl e => inl e
      | inr st' => group_from st' rest
      end
  end.

Definition group (json : list Child) : Exn + (list string * JsObject) :=
  group_from ([], []) json.

(** ** Row and index assignment (lines 272-299) *)

Definition calculatedMaxChildren (cfg : Config) (clientWidth : Z) : Z :=
  if maxChildCount cfg =? 0
  then (clientWidth - 75) / blockSize cfg
  else maxChildCount cfg.

(** The three variables the callback closes over.  [previousParent] is
    [None] for [null] and [Some p] once an element with [parent] value [p]
    has been seen. *)
Record Cursor : Type := mkCursor {
  cur_row : Z;
  cur_index : Z;
  previousParent : option (option string)
}.

Definition cursor0 : Cursor :=
  {| cur_row := 1; cur_index := 1; previousParent := None |}.

Definition option_string_eqb (a b : option string) : bool :=
  match a, b with
  | Some x, Some y => String.eqb x y
  | None, None => true
  | _, _ => false
  end.

(** [previousParent !== null && previousParent !== parent]. *)
Definition parent_changed (c : Cursor) (p : option string) : bool :=
  match previousParent c with
  | None => false
  | Some q => negb (option_string_eqb q p)
  end.

(** One call of the callback: the cursor after it and the cell written
    into the element. *)
Definition place (cmc : Z) (c : Cursor) (p : option string) : Cursor * (Z * Z) :=
  if parent_changed c p then
    ({| cur_row := cur_row c + 1; cur_index := 2; previousParent := Some p |},
     (cur_row c + 1, 1))
  else
    let '(index1, row1) :=
      if cur_index c =? cmc + 1 then (1, cur_row c + 1)
      else (cur_index c, cur_row c) in
    ({| cur_row := row1; cur_index := index1 + 1; previousParent := Some p |},
     (row1, index1)).

Definition assign_element (cmc : Z) (c : Cursor) (element : Child) : Cursor * Child :=
  let '(c', (r, i)) := place cmc c (parent element) in
  (c', set_row_index element r i).

Fixpoint assign_from (cmc : Z) (c : Cursor) (json : list Child) : list Child :=
  match json with
  | [] => []
  | element :: rest =>
      let '(c', element') := assign_element cmc c element in
      element' :: assign_from cmc c' rest
  end.

(** The array after the sort and the assignment pass, position by
    position. *)
Definition layout (cmc : Z) (json : list Child) : list Child :=
  assign_from cmc cursor0 (sort by_parent json).

(** ** Labels and blocks (lines 301-373) *)

(** [Math.ceil(a / b)] for a divisor other than zero. *)
Definition ceil_div (a b : Z) : Z := - ((- a) / b).

(** [parentSizes[Object.keys(parentSizes)[i]]]; past the end of the keys
    the subscript is [undefined] and the property looked up is the one
    named ["undefined"]. *)
Definition size_at (parentSizes : JsObject) (i : nat) : option Z :=
  match nth_error (Object_keys parentSizes) i with
  | Some k => get_prop parentSizes k
  | None => get_prop parentSizes "undefined"
  end.

(** [Math.ceil(size / cmc) * cmc]; [NaN] when the size is [undefined] or
    the divisor is zero. *)
Definition padded (cmc : Z) (size : option Z) : option Z :=
  match size with
  | Some s => if cmc =? 0 then None else Some (ceil_div s cmc * cmc)
  | None => None
  end.

Definition nan_add (a b : option Z) : option Z :=
  match a, b with
  | Some x, Some y => Some (x + y)
  | _, _ => None
  end.

(** The loop [for (var i = index - 1; i > -1; i--)], entered with [i + 1]
    as the argument. *)
Fixpoint sum_down (cmc : Z) (parentSizes : JsObject) (acc : option Z) (i : nat)
    : option Z :=
  match i with
  | O => acc
  | S j => sum_down cmc parentSizes
             (nan_add acc (padded cmc (size_at parentSizes j))) j
  end.

(** The [y] callback of the labels: its value and [maxHeight] after it. *)
Definition label_y (cmc bs : Z) (parentSizes : JsObject) (maxHeight : Z)
    (index_ : nat) : option Z * Z :=
  match index_ with
  | O => (Some 0, maxHeight)
  | S _ =>
      let previousParentSize := sum_down cmc parentSizes (Some 0) index_ in
      let y := match previousParentSize with
               | Some p => if cmc =? 0 then None else Some (ceil_div p cmc * bs)
               | None => None
               end in
      (y, match y with
          | Some v => if v >? maxHeight then v else maxHeight
          | None => maxHeight
          end)
  end.

Fixpoint labels_from (cmc bs : Z) (parentSizes : JsObject) (maxHeight : Z)
    (index_ n : nat) : list (option Z) * Z :=
  match n with
  | O => ([], maxHeight)
  | S m =>
      let '(y, mh) := label_y cmc bs parentSizes maxHeight index_ in
      let '(ys, mh') := labels_from cmc bs parentSizes mh (S index_) m in
      (y :: ys, mh')
  end.

(** [m += ((v + bs) > m) ? (v + bs) : 0], the update both block callbacks
    apply to their running variable; a [NaN] coordinate compares false. *)
Definition bump (bs : Z) (m : Z) (v : option Z) : Z :=
  m + match v with
      | Some c => if c + bs >? m then c + bs else 0
      | None => 0
      end.

Definition block_x (width bs : Z) (obj : Child) : option Z :=
  match index obj with
  | Some i => Some (width + (i - 1) * bs)
  | None => None
  end.

Definition block_y (bs : Z) (obj : Child) : option Z :=
  match row obj with
  | Some r => Some ((r - 1) * bs)
  | None => None
  end.

(** What [generate] leaves on the surface: the [y] of every label, the
    [x] and [y] of every block, and the size given to the svg group. *)
Record Drawing : Type := mkDrawing {
  label_ys : list (option Z);
  block_xs : list (option Z);
  block_ys : list (option Z);
  svg_width : Z;
  svg_height : Z
}.

Definition draw (cmc bs width : Z) (parents : list string)
    (parentSizes : JsObject) (json : list Child) : Drawing :=
  let '(lys, maxHeight1) :=
    labels_from cmc bs parentSizes 0 O (List.length parents) in
  let xs := map (block_x width bs) json in
  let maxWidth := fold_left (bump bs) xs 0 in
  let ys := map (block_y bs) json in
  let maxHeight := fold_left (bump bs) ys maxHeight1 in
  {| label_ys := lys;
     block_xs := xs;
     block_ys := ys;
     svg_width := maxWidth + 15;
     svg_height := maxHeight + 15 |}.

(** ** The store

    Records are objects and [json] is an array of references to them:
    [generate] reorders the caller's array and writes into the caller's
    records.  A store gives the object behind every record reference and
    the contents of every array. *)

Definition loc := nat.

Record Store : Type := mkStore {
  heap : loc -> Child;
  arrays : loc -> list loc
}.

Definition upd {V : Type} (f : loc -> V) (l : loc) (v : V) : loc -> V :=
  fun l' => if Nat.eqb l' l then v else f l'.

(** The records an array holds, in array order. *)
Definition view (s : Store) (a : loc) : list Child :=
  map (heap s) (arrays s a).

(** [json.sort(...)], in place. *)
Definition sort_store (a : loc) (s : Store) : Store :=
  {| heap := heap s;
     arrays := upd (arrays s) a
                 (sort (fun l1 l2 => by_parent (heap s l1) (heap s l2))
                       (arrays s a)) |}.

(** The assignment pass, writing into the objects. *)
Fixpoint assign_heap (cmc : Z) (c : Cursor) (ls : list loc) (h : loc -> Child)
    : loc -> Child :=
  match ls with
  | [] => h
  | l :: rest =>
      let '(c', element') := assign_element cmc c (h l) in
      assign_heap cmc c' rest (upd h l element')
  end.

Definition assign_store (cmc : Z) (a : loc) (s : Store) : Store :=
  {| heap := assign_heap cmc cursor0 (arrays s a) (heap s);
     arrays := arrays s |}.

(** The effect of lines 238-299 on the store. *)
Definition layout_store (cmc : Z) (a : loc) (s : Store) : Store :=
  assign_store cmc a (sort_store a s).

(** [generate]: the outcome (an exception, or what was drawn) and the
    store it leaves.  [clientWidth] is the width of the containing
    element and [width] the measured width of the longest label, both
    supplied by the page. *)
Definition generate (g : Graph) (clientWidth width : Z) (json : option loc)
    (s : Store) : (Exn + option Drawing) * Store :=
  match verifyJson (option_map (view s) json), json with
  | inl e, _ => (inl e, s)
  | inr true, Some a =>
      let s1 := sort_store a s in
      match group (view s1 a) with
      | inl e => (inl e, s1)
      | inr (parents, parentSizes) =>
          let cmc := calculatedMaxChildren (config g) clientWidth in
          let s2 := assign_store cmc a s1 in
          (inr (Some (draw cmc (blockSize (config g)) width parents parentSizes
                           (view s2 a))),
           s2)
      end
  | inr _, _ => (inr None, s)
  end.

(** ** Reference notions used in the statements *)

(** The conditions under which the validator is to reject. *)
Definition empty_input (json : option (list Child)) : Prop :=
  json = None \/ json = Some [].

Definition lacks_parent (r : Child) : Prop := parent r = None.

Definition absent_or_outside (lo hi : Z) (v : option Z) : Prop :=
  v = None \/ exists n, v = Some n /\ (n < lo \/ hi < n).

Definition bad_color (r : Child) : Prop := absent_or_outside 0 3 (color r).

Definition bad_parentColor (r : Child) : Prop :=
  absent_or_outside 0 4 (parentColor r).

(** Field names compared without regard to case.  [capital_of small cap]
    says that [cap] is the capital of the small letter [small]: the
    letters of Basic Latin and Latin-1, dotless i with capital I and long
    s with capital S.  Two characters are the same letter when they are
    equal, when one is the capital of the other, or when they are the two
    small forms of one capital (i and dotless i, s and long s). *)
Definition capital_of (small cap : N) : bool :=
  ((97 <=? small) && (small <=? 122) && (cap =? small - 32)
   || (224 <=? small) && (small <=? 254) && negb (small =? 247)
      && (cap =? small - 32)
   || (small =? 305) && (cap =? 73)
   || (small =? 383) && (cap =? 83))%N.

Definition same_letter (a b : N) : bool :=
  ((a =? b) || capital_of a b || capital_of b a
   || (a =? 105) && (b =? 305) || (a =? 305) && (b =? 105)
   || (a =? 115) && (b =? 383) || (a =? 383) && (b =? 115))%N.

Fixpoint eqb_ignoring_case (s t : ustring) : bool :=
  match s, t with
  | [], [] => true
  | a :: s', b :: t' => same_letter a b && eqb_ignoring_case s' t'
  | _, _ => false
  end.

Definition internal_fields : list ustring :=
  map units ["row"; "index"; "color"; "parentColor"; "parent"].

Definition is_internal_field (name : ustring) : bool :=
  existsb (eqb_ignoring_case name) internal_fields.




(** A running maximum of block extents, to compare the size tracking
    with. *)
Definition running_max (bs : Z) (m : Z) (v : option Z) : Z :=
  match v with
  | Some c => Z.max m (c + bs)
  | None => m
  end.

(** The cell of a record, and what a position of the array carries as
    far as the layout is concerned. *)
Definition cell_of (r : Child) : option Z * option Z := (row r, index r).

Definition placed (r : Child) : option string * option Z * option Z :=
  (parent r, row r, index r).

(** A record stripped of its annotation. *)
Definition unplaced (r : Child) : Child :=
  {| parent := parent r; color := color r; parentColor := parentColor r;
     row := None; index := None; fields := fields r |}.

Definition valid (json : list Child) : Prop := verifyJson (Some json) = inr true.

(** Whether the object behind reference [l] has parent [p]. *)
Definition of_parent (h : loc -> Child) (p : option string) (l : loc) : bool :=
  option_string_eqb (parent (h l)) p.

(** ** Notions used in the proofs *)

(** [a] may stand before [b] for the comparison function [cmp]. *)
Definition may_precede {A : Type} (cmp : A -> A -> Z) (a b : A) : Prop :=
  cmp a b <= 0.

(** [a] and [b] are strings and [a] is not after [b]. *)
Definition parent_le (a b : option string) : Prop :=
  exists x y, a = Some x /\ b = Some y /\ String.leb x y = true.

Definition has_parent (r : Child) : Prop := exists p, parent r = Some p.

Definition rowZ (r : Child) : Z := match row r with Some v => v | None => 0 end.
Definition indexZ (r : Child) : Z := match index r with Some v => v | None => 0 end.

(** The record carries both fields. *)
Definition annotated (r : Child) : Prop :=
  row r = Some (rowZ r) /\ index r = Some (indexZ r).

(** The cursor the callback leaves behind after writing cell [(r, i)]
    into an element with parent [p]. *)
Definition after (p : option string) (r i : Z) : Cursor :=
  {| cur_row := r; cur_index := i + 1; previousParent := Some p |}.

(** How the cell of an element relates to the cell of the element just
    before it in the array. *)
Definition follows (cmc : Z) (r1 r2 : Child) : Prop :=
  annotated r2 /\
  ((parent r1 <> parent r2 /\ rowZ r2 = rowZ r1 + 1 /\ indexZ r2 = 1)
   \/ (parent r1 = parent r2 /\ indexZ r1 = cmc
       /\ rowZ r2 = rowZ r1 + 1 /\ indexZ r2 = 1)
   \/ (parent r1 = parent r2 /\ indexZ r1 <> cmc
       /\ rowZ r2 = rowZ r1 /\ indexZ r2 = indexZ r1 + 1)).

Definition good (cmc : Z) (c : Cursor) : Prop :=
  1 <= cur_row c /\ 1 <= cur_index c <= cmc + 1.

Definition in_bounds (cmc : Z) (r : Child) : Prop :=
  exists v i, row r = Some v /\ index r = Some i /\ 1 <= v /\ 1 <= i <= cmc.



(** ** The text of the labels (lines 262-270 and 304-306) *)

(** A count, or [undefined], turned into a string by [+]. *)
Definition show_size (v : option Z) : string :=
  match v with
  | Some n => NilZero.string_of_int (Z.to_int n)
  | None => "undefined"
  end.

(** [obj + ' (' + parentSizes[Object.keys(parentSizes)[index]] + ')'],
    the text of the label at position [index]. *)
Definition label_text (parentSizes : JsObject) (obj : string) (index_ : nat)
    : string :=
  String.append obj
    (String.append " (" (String.append (show_size (size_at parentSizes index_)) ")")).

Fixpoint label_texts_from (parentSizes : JsObject) (index_ : nat)
    (parents : list string) : list string :=
  match parents with
  | [] => []
  | obj :: rest =>
      label_text parentSizes obj index_
      :: label_texts_from parentSizes (S index_) rest
  end.

(** [element + '   (' + parentSizes[...] + ')   '], the string whose
    length decides which label is the longest. *)
Definition current_label (parentSizes : JsObject) (element : string)
    (index_ : nat) : string :=
  String.append element
    (String.append "   ("
       (String.append (show_size (size_at parentSizes index_)) ")   ")).

Fixpoint currents_from (parentSizes : JsObject) (index_ : nat)
    (parents : list string) : list string :=
  match parents with
  | [] => []
  | element :: rest =>
      current_label parentSizes element index_
      :: currents_from parentSizes (S index_) rest
  end.

(** The loop of lines 264-270, started with [longest] at position
    [index]. *)
Fixpoint longest_from (parentSizes : JsObject) (longest : string)
    (index_ : nat) (parents : list string) : string :=
  match parents with
  | [] => longest
  | element :: rest =>
      let current := current_label parentSizes element index_ in
      longest_from parentSizes
        (if (String.length longest <? String.length current)%nat
         then current else longest)
        (S index_) rest
  end.

Definition longest_label (parents : list string) (parentSizes : JsObject)
    : string :=
  longest_from parentSizes "" 0 parents.

(** The text a group's label is to show: the abbreviated name and the
    number of records. *)
Definition group_label (pn : string * nat) : string :=
  String.append (abbreviate (fst pn))
    (String.append " ("
       (String.append (NilZero.string_of_int (Z.to_int (Z.of_nat (snd pn)))) ")")).

(** *** The groups of a sorted array *)

(** The parent of a record that has one. *)
Definition name_of (r : Child) : string :=
  match parent r with Some p => p | None => "" end.

(** The runs of equal names in a list, each with its length, in order. *)
Fixpoint runs (ps : list string) : list (string * nat) :=
  match ps with
  | [] => []
  | p :: rest =>
      match runs rest with
      | (q, n) :: more =>
          if String.eqb p q then (q, S n) :: more else (p, 1%nat) :: (q, n) :: more
      | [] => [(p, 1%nat)]
      end
  end.

Fixpoint expand (rs : list (string * nat)) : list string :=
  match rs with
  | [] => []
  | (p, n) :: rest => repeat p n ++ expand rest
  end.

(** The groups of the array [generate] lays out: the runs of the parent
    names down the sorted array. *)
Definition groups (json : list Child) : list (string * nat) :=
  runs (map name_of (sort by_parent json)).

(** The cells of a group of [n] records that starts in row [R], filled
    left to right, [cmc] to a row. *)
Definition run_cells (cmc R : Z) (n : nat) : list (Z * Z) :=
  map (fun k => (R + Z.of_nat k / cmc, 1 + Z.of_nat k mod cmc)) (seq 0 n).

(** The cells of consecutive groups, each group starting on the row
    after the last row of the group before. *)
Fixpoint grid (cmc R : Z) (rs : list (string * nat)) : list (Z * Z) :=
  match rs with
  | [] => []
  | (_, n) :: rest =>
      run_cells cmc R n ++ grid cmc (R + ceil_div (Z.of_nat n) cmc) rest
  end.




(** A parent name that is neither the name of the inherited method nor
    ["__proto__"], and that [Object.keys] does not move to the front. *)
Definition plain_name (p : string) : Prop :=
  p <> "containsKey" /\ p <> "__proto__" /\ array_index p = None.

(** The cursor after the [k]-th record ([k >= 1]) of a group of parent
    [p] that starts in row [R]. *)
Definition at_k (cmc : Z) (p : string) (R k : Z) : Cursor :=
  after (Some p) (R + (k - 1) / cmc) (1 + (k - 1) mod cmc).

(** The cursor after a whole array. *)
Definition cursor_after (cmc : Z) (c : Cursor) (l : list Child) : Cursor :=
  fold_left (fun c x => fst (assign_element cmc c x)) l c.

(** The row and index a record carries, as numbers. *)
Definition cellZ (r : Child) : Z * Z := (rowZ r, indexZ r).

(** The entries of [parentSizes] for a list of groups. *)
Definition sizes_of (rs : list (string * nat)) : JsObject :=
  map (fun pn => (fst pn, Z.of_nat (snd pn))) rs.

(** ** Sample data *)

Definition child (p : string) (c pc : Z) (f : list (string * string)) : Child :=
  {| parent := Some p; color := Some c; parentColor := Some pc;
     row := None; index := None; fields := f |}.

(** Two children of ["A"] and one of ["B"]. *)
Definition sample_json : list Child :=
  [child "A" 0 0 []; child "A" 1 0 []; child "B" 2 1 []].

(** Two children of one parent that differ in a display field. *)
Definition alice : Child := child "A" 0 0 [("name", "alice")].
Definition bob : Child := child "A" 0 0 [("name", "bob")].

(** A store whose arrays all refer to objects 0, 1, 2, in that order:
    a child of ["B"] and then two children of ["A"]. *)
Definition sample_store : Store :=
  {| heap := fun l => match l with
                      | O => child "B" 2 1 []
                      | S O => child "A" 0 0 []
                      | _ => child "A" 1 0 [("name", "second")]
                      end;
     arrays := fun _ => [0%nat; 1%nat; 2%nat] |}.

(** A graph with [maxChildCount = 2], and what [generate] draws for the
    sample store when the longest label measures 40 pixels. *)
Definition sample_graph : Graph := RelationshipGraph None (Some 2).

Definition sample_drawing : Drawing :=
  {| label_ys := [Some 0; Some 24];
     block_xs := [Some 40; Some 64; Some 40];
     block_ys := [Some 0; Some 0; Some 24];
     svg_width := 167;
     svg_height := 87 |}.

(** A hovered object: a display field, the field [index] spelled with a
    dotless i, and the field [Row]. *)
Definition dotless_index : ustring := [305%N; 110%N; 100%N; 101%N; 120%N].

Definition sample_object : list (ustring * ustring) :=
  [(units "name", units "alice"); (dotless_index, units "7");
   (units "Row", units "1")].

(** Two children of ["A"] as objects 0 and 1 (every other object is a
    child of ["B"]), with arrays that refer to them in both orders and
    arrays that refer to one of them twice. *)
Definition order_store : Store :=
  {| heap := fun l => match l with
                      | O => alice
                      | S O => bob
                      | _ => child "B" 2 1 []
                      end;
     arrays := fun a => match a with
                        | O => [0%nat; 1%nat]
                        | S O => [1%nat; 0%nat]
                        | S (S O) => [0%nat; 0%nat; 1%nat]
                        | S (S (S O)) => [0%nat; 1%nat; 0%nat]
                        | _ => [0%nat; 1%nat; 1%nat]
                        end |}.

(** ** setTooltipPlacement (lines 192-196) *)

Definition allowedDirections : list string :=
  ["n"; "ne"; "e"; "se"; "s"; "sw"; "w"; "nw"].

(** [this.tip] is an object or [null], never [undefined], so the second
    test of the condition holds; on [null] the call of [direction]
    throws. *)
Definition setTooltipPlacement (position : string) (g : Graph) : Exn + Graph :=
  if contains allowedDirections position
  then match tip g with
       | Some _ => inr {| config := config g; tip := Some position |}
       | None => inl TypeError
       end
  else inr g.

(** Calls a page can make on a graph between two drawings, and their
    effect in sequence. *)
Inductive Call : Type :=
| call_showTooltipKeys (sk : bool)
| call_setTooltipPlacement (position : string).

Fixpoint run_calls (calls : list Call) (g : Graph) : Exn + Graph :=
  match calls with
  | [] => inr g
  | call_showTooltipKeys sk :: rest => run_calls rest (showTooltipKeys sk g)
  | call_setTooltipPlacement position :: rest =>
      match setTooltipPlacement position g with
      | inl e => inl e
      | inr g' => run_calls rest g'
      end
  end.

(** Whether an object has the own property [key]. *)
Definition has_own (o : JsObject) (key : string) : bool :=
  match get_prop o key with Some _ => true | None => false end.

(** A store whose arrays refer to two children of a parent named
    ["containsKey"], a graph that takes its child limit from the
    container, and a store whose arrays refer to object 0 twice. *)
Definition hazard_store : Store :=
  {| heap := fun _ => child "containsKey" 0 0 [];
     arrays := fun _ => [0%nat; 1%nat] |}.

Definition auto_graph : Graph := RelationshipGraph None None.

Definition shared_store : Store :=
  {| heap := heap sample_store; arrays := fun _ => [1%nat; 0%nat; 0%nat] |}.

(** What [generate] draws for the sample store in a container 80 pixels
    wide when the child limit is left to the graph. *)
Definition narrow_drawing : Drawing :=
  {| label_ys := [Some 0; None];
     block_xs := [Some 40; Some 64; Some 40];
     block_ys := [Some 24; Some 24; Some 48];
     svg_width := 167;
     svg_height := 135 |}.

(** * Properties *)

(** ** abbreviate *)

Lemma substring_all (s : string) : String.substring 0 (String.length s) s = s.
Proof.
  induction s as [|c s IH]; simpl; [reflexivity | now rewrite IH].
Qed.

(** Names shorter than 25 characters come back unchanged. *)
Lemma abbreviate_short (s : string) :
  (String.length s < 25)%nat -> abbreviate s = s.
Proof.
  intros H. unfold abbreviate.
  destruct (Z.leb_spec 25 (Z.of_nat (String.length s))); [lia | reflexivity].
Qed.

(** Names of 25 characters or more are cut to 25 and marked. *)
Lemma abbreviate_long (s : string) :
  (25 <= String.length s)%nat ->
  abbreviate s = String.append (String.substring 0 25 s) "...".
Proof.
  intros H. unfold abbreviate.
  destruct (Z.leb_spec 25 (Z.of_nat (String.length s))); [reflexivity | lia].
Qed.

(** A name of exactly 25 characters is not cut, and still gets the
    marker. *)
Lemma abbreviate_exactly_25 (s : string) :
  String.length s = 25%nat -> abbreviate s = String.append s "...".
Proof.
  intros H. rewrite abbreviate_long by lia.
  now rewrite <- H, substring_all.
Qed.

(** C6: the claim has the marker added only to names longer than 25
    characters.  The source tests [this.length >= 25]: on the 25-character
    name below nothing is cut away, yet the result is the name followed by
    the marker, 28 characters long, where the claim has the name come back
    unchanged.  The two instances the claim names (30 and 24 characters)
    behave as it says. *)
Theorem abbreviate_marks_25_character_name :
  let name := "abcdefghijklmnopqrstuvwxy" in
  String.length name = 25%nat
  /\ abbreviate name = "abcdefghijklmnopqrstuvwxy..."
  /\ abbreviate name <> name
  /\ abbreviate "abcdefghijklmnopqrstuvwxyz0123"
     = "abcdefghijklmnopqrstuvwxy..."
  /\ abbreviate "abcdefghijklmnopqrstuvwx" = "abcdefghijklmnopqrstuvwx".
Proof.
  cbv zeta. repeat split; try reflexivity.
  vm_compute. discriminate.
Qed.

(** ** The constructor *)

Lemma or_bool_true (x : option bool) : or_bool x true = true.
Proof. destruct x as [[|]|]; reflexivity. Qed.

(** C7: whatever the caller passes for [showTooltips], [false] included,
    [showTooltips || true] is [true]: the configuration has tooltips on
    and the tooltip object is created.  The claim has the option
    honoured. *)
Theorem RelationshipGraph_showTooltips_always_true :
  (forall st mc, showTooltips (config (RelationshipGraph st mc)) = true)
  /\ showTooltips (config (RelationshipGraph (Some false) None)) = true
  /\ tip (RelationshipGraph (Some false) None) = Some "w".
Proof.
  split; [|split]; try reflexivity.
  intros st mc. simpl. apply or_bool_true.
Qed.

(** ** verifyJson *)

Lemma out_of_iff (lo hi : Z) (v : option Z) :
  out_of lo hi v = true <-> absent_or_outside lo hi v.
Proof.
  unfold out_of, absent_or_outside. destruct v as [n|].
  - rewrite orb_true_iff, Z.gtb_lt, Z.ltb_lt. split.
    + intros H. right. exists n. split; [reflexivity | lia].
    + intros [H | (m & H & Hm)]; [discriminate | injection H as ->; lia].
  - split; auto.
Qed.

Lemma out_of_false_iff (lo hi : Z) (v : option Z) :
  out_of lo hi v = false <-> ~ absent_or_outside lo hi v.
Proof.
  rewrite <- out_of_iff. destruct (out_of lo hi v); split; intros; congruence.
Qed.

Lemma verify_element_None (r : Child) :
  verify_element r = None <->
  ~ lacks_parent r /\ ~ bad_color r /\ ~ bad_parentColor r.
Proof.
  unfold verify_element, lacks_parent, bad_color, bad_parentColor.
  destruct (parent r) as [p|].
  - destruct (out_of 0 3 (color r)) eqn:Hc.
    + apply out_of_iff in Hc. split; [discriminate | tauto].
    + apply out_of_false_iff in Hc.
      destruct (out_of 0 4 (parentColor r)) eqn:Hp.
      * apply out_of_iff in Hp. split; [discriminate | tauto].
      * apply out_of_false_iff in Hp. split; [|reflexivity].
        intros _. repeat split; [discriminate | assumption | assumption].
  - split; [discriminate | tauto].
Qed.

(** What the callback throws tells which condition the element meets. *)
Lemma verify_element_Some (r : Child) (e : Exn) :
  verify_element r = Some e ->
  (e = Child_does_not_have_a_parent /\ lacks_parent r)
  \/ (e = Child_color_is_unsupported /\ ~ lacks_parent r /\ bad_color r)
  \/ (e = Parent_color_is_unsupported
      /\ ~ lacks_parent r /\ ~ bad_color r /\ bad_parentColor r).
Proof.
  unfold verify_element, lacks_parent, bad_color, bad_parentColor.
  destruct (parent r) as [p|].
  - destruct (out_of 0 3 (color r)) eqn:Hc.
    + apply out_of_iff in Hc. intros [= <-]. right; left.
      repeat split; [discriminate | assumption].
    + apply out_of_false_iff in Hc.
      destruct (out_of 0 4 (parentColor r)) eqn:Hp; [|discriminate].
      apply out_of_iff in Hp. intros [= <-]. right; right.
      repeat split; [discriminate | assumption | assumption].
  - intros [= <-]. left. split; reflexivity.
Qed.

Lemma verify_each_None (l : list Child) :
  verify_each l = None <-> forall r, In r l -> verify_element r = None.
Proof.
  induction l as [|x l IH]; simpl.
  - split; [intros _ r [] | reflexivity].
  - destruct (verify_element x) eqn:Hx.
    + split; [discriminate|]. intros H. rewrite (H x) in Hx by auto. discriminate.
    + rewrite IH. split.
      * intros H r [<- | Hr]; auto.
      * intros H r Hr. apply H. auto.
Qed.

(** The exception comes from the first element that fails a check. *)
Lemma verify_each_first (l1 l2 : list Child) (r : Child) (e : Exn) :
  (forall x, In x l1 -> verify_element x = None) ->
  verify_element r = Some e ->
  verify_each (l1 ++ r :: l2) = Some e.
Proof.
  intros H1 Hr. induction l1 as [|x l1 IH]; simpl.
  - now rewrite Hr.
  - rewrite (H1 x) by (simpl; auto). apply IH. intros y Hy. apply H1. simpl; auto.
Qed.

Lemma verify_each_Some (l : list Child) (e : Exn) :
  verify_each l = Some e ->
  exists l1 r l2, l = l1 ++ r :: l2
    /\ (forall x, In x l1 -> verify_element x = None)
    /\ verify_element r = Some e.
Proof.
  induction l as [|x l IH]; simpl; [discriminate|].
  destruct (verify_element x) eqn:Hx.
  - intros [= <-]. exists [], x, l. repeat split; auto. intros y [].
  - intros H. destruct (IH H) as (l1 & r & l2 & -> & H1 & Hr).
    exists (x :: l1), r, l2. repeat split; auto.
    intros y [<- | Hy]; auto.
Qed.

Lemma verifyJson_cons (x : Child) (l : list Child) :
  verifyJson (Some (x :: l)) =
  match verify_each (x :: l) with Some e => inl e | None => inr true end.
Proof. reflexivity. Qed.

Lemma valid_iff (json : list Child) :
  valid json <-> json <> [] /\ forall r, In r json -> verify_element r = None.
Proof.
  unfold valid. destruct json as [|x l].
  - simpl. split; [discriminate | intros [H _]; congruence].
  - rewrite verifyJson_cons, <- verify_each_None.
    destruct (verify_each (x :: l)); split; try discriminate; auto.
    + intros [_ H]; discriminate.
    + intros _; split; [discriminate | reflexivity].
Qed.

Lemma valid_parent (json : list Child) (r : Child) :
  valid json -> In r json -> exists p, parent r = Some p.
Proof.
  intros Hv Hr. apply valid_iff in Hv. destruct Hv as [_ Hv].
  apply Hv, verify_element_None in Hr. destruct Hr as [Hp _].
  unfold lacks_parent in Hp. destruct (parent r) as [p|]; [eauto | congruence].
Qed.

(** C2: [verifyJson] either returns [true] or throws one of the four
    validation messages, and nothing else.  It returns [true] exactly when
    the array is present and non-empty and no record lacks a parent, has
    an absent or out-of-range color, or has an absent or out-of-range
    parentColor.  The empty-input message is thrown exactly for an absent
    or empty array; each of the other three is thrown only when some
    record meets its condition (the first record that fails a check
    decides which).  The function is a pure function of the array it is
    given: it has no store to write to. *)
Theorem verifyJson_spec (json : option (list Child)) :
  (verifyJson json = inr true
   \/ verifyJson json = inl JSON_cannot_be_empty
   \/ verifyJson json = inl Child_does_not_have_a_parent
   \/ verifyJson json = inl Child_color_is_unsupported
   \/ verifyJson json = inl Parent_color_is_unsupported)
  /\ (verifyJson json = inr true <->
      ~ empty_input json
      /\ forall l r, json = Some l -> In r l ->
           ~ lacks_parent r /\ ~ bad_color r /\ ~ bad_parentColor r)
  /\ (verifyJson json = inl JSON_cannot_be_empty <-> empty_input json)
  /\ (verifyJson json = inl Child_does_not_have_a_parent ->
      exists l r, json = Some l /\ In r l /\ lacks_parent r)
  /\ (verifyJson json = inl Child_color_is_unsupported ->
      exists l r, json = Some l /\ In r l /\ bad_color r)
  /\ (verifyJson json = inl Parent_color_is_unsupported ->
      exists l r, json = Some l /\ In r l /\ bad_parentColor r).
Proof.
  unfold empty_input.
  destruct json as [[|x l]|].
  - (* an empty array *)
    simpl. split; [auto|]. split; [|split; [|repeat split; discriminate]].
    + split; [discriminate | intros [H _]; exfalso; auto].
    + split; auto.
  - (* a non-empty array *)
    rewrite verifyJson_cons.
    destruct (verify_each (x :: l)) as [e|] eqn:He.
    + destruct (verify_each_Some _ _ He) as (l1 & r & l2 & Hl & H1 & Hr).
      assert (Hin : In r (x :: l)) by (rewrite Hl; apply in_elt).
      destruct (verify_element_Some _ _ Hr)
        as [[-> Hc] | [(-> & _ & Hc) | (-> & _ & _ & Hc)]].
      all: split; [auto 6|].
      all: split; [split; [discriminate|];
                   intros [_ H]; destruct (H _ r eq_refl Hin) as (? & ? & ?);
                   contradiction|].
      all: split; [split; [discriminate | intros [|]; discriminate]|].
      all: repeat split; try discriminate; intros _; exists (x :: l), r; auto.
    + split; [auto|]. split; [|split; [|repeat split; discriminate]].
      * split; [|reflexivity]. intros _. split.
        -- intros [|]; discriminate.
        -- intros l' r [= <-] Hr. apply verify_element_None.
           now apply (proj1 (verify_each_None _) He).
      * split; [discriminate | intros [|]; discriminate].
  - (* no array *)
    simpl. split; [auto|]. split; [|split; [|repeat split; discriminate]].
    + split; [discriminate | intros [H _]; exfalso; auto].
    + split; auto.
Qed.

(** ** The tooltip body *)

Lemma indexOf_from_found (i : Z) (l : list string) (key : string) :
  0 <= i -> (indexOf_from i l key >? -1) = existsb (fun x => String.eqb x key) l.
Proof.
  revert i; induction l as [|x l IH]; intros i Hi; simpl; [reflexivity|].
  destruct (String.eqb x key); simpl.
  - apply Z.gtb_lt. lia.
  - apply IH. lia.
Qed.

Lemma contains_existsb (l : list string) (key : string) :
  contains l key = existsb (fun x => String.eqb x key) l.
Proof. apply indexOf_from_found. lia. Qed.

Lemma contains_In (l : list string) (key : string) :
  contains l key = true <-> In key l.
Proof.
  rewrite contains_existsb, existsb_exists. split.
  - intros (x & Hx & He). apply String.eqb_eq in He. now subst.
  - intros H. exists key. split; [assumption | apply String.eqb_refl].
Qed.











Lemma tooltip_html_showTooltipKeys (g : Graph) (sk : bool)
    (obj : list (ustring * ustring)) :
  tooltip_html (showTooltipKeys sk g) obj = tooltip_table sk obj.
Proof. reflexivity. Qed.


(** The field [index] spelled with a dotless i has the capitals INDEX
    and is not shown. *)
Example tooltip_hides_dotless_index :
  toUpperCase dotless_index = Some (units "INDEX")
  /\ is_internal_field dotless_index = true
  /\ tooltip_table true sample_object = Some [[units "name"; units "alice"]].
Proof. repeat split. Qed.



(** ** The sort *)

Section SortFacts.
Context {A : Type} (cmp : A -> A -> Z).

Lemma sort_insert_perm (x : A) (l : list A) :
  Permutation (sort_insert cmp x l) (x :: l).
Proof.
  induction l as [|y l IH]; simpl; [reflexivity|].
  destruct (cmp x y <=? 0); [reflexivity|].
  rewrite IH. apply perm_swap.
Qed.

Lemma sort_perm (l : list A) : Permutation (sort cmp l) l.
Proof.
  induction l as [|x l IH]; simpl; [reflexivity|].
  rewrite sort_insert_perm. now constructor.
Qed.

(** Inserting before a head that may follow, or into a sorted array, is
    the identity on sorted input: equal elements keep their order. *)
Lemma sort_insert_head (x : A) (l : list A) :
  HdRel (may_precede cmp) x l -> sort_insert cmp x l = x :: l.
Proof.
  intros H. destruct l as [|y l]; simpl; [reflexivity|].
  inversion_clear H as [|? ? Hxy]. unfold may_precede in Hxy.
  destruct (Z.leb_spec (cmp x y) 0); [reflexivity | lia].
Qed.

Lemma sort_sorted_id (l : list A) : Sorted (may_precede cmp) l -> sort cmp l = l.
Proof.
  induction 1 as [|x l Hl IH Hx]; simpl; [reflexivity|].
  rewrite IH. now apply sort_insert_head.
Qed.

(** The comparison function never says both "after" ways round. *)
Hypothesis cmp_total : forall a b, 0 < cmp a b -> cmp b a <= 0.

Lemma sort_insert_sorted (x : A) (l : list A) :
  Sorted (may_precede cmp) l -> Sorted (may_precede cmp) (sort_insert cmp x l).
Proof.
  induction 1 as [|y l Hl IH Hy]; simpl.
  - repeat constructor.
  - destruct (Z.leb_spec (cmp x y) 0) as [Hxy | Hxy].
    + repeat constructor; assumption.
    + constructor; [assumption|].
      destruct l as [|z l]; simpl.
      * constructor. now apply cmp_total.
      * inversion_clear Hy as [|? ? Hyz].
        destruct (cmp x z <=? 0); constructor;
          [now apply cmp_total | assumption].
Qed.

Lemma sort_sorted (l : list A) : Sorted (may_precede cmp) (sort cmp l).
Proof.
  induction l as [|x l IH]; simpl; [constructor|].
  now apply sort_insert_sorted.
Qed.
End SortFacts.

(** Sorting references by a key read through them is sorting the keys. *)
Lemma sort_insert_map {A B : Type} (f : B -> A) (cmp : A -> A -> Z)
    (x : B) (l : list B) :
  map f (sort_insert (fun a b => cmp (f a) (f b)) x l)
  = sort_insert cmp (f x) (map f l).
Proof.
  induction l as [|y l IH]; simpl; [reflexivity|].
  destruct (cmp (f x) (f y) <=? 0); simpl; [reflexivity | now rewrite IH].
Qed.

Lemma sort_map {A B : Type} (f : B -> A) (cmp : A -> A -> Z) (l : list B) :
  map f (sort (fun a b => cmp (f a) (f b)) l) = sort cmp (map f l).
Proof.
  induction l as [|x l IH]; simpl; [reflexivity|].
  now rewrite sort_insert_map, IH.
Qed.

Lemma Sorted_map {A B : Type} (f : B -> A) (R : A -> A -> Prop) (l : list B) :
  Sorted (fun a b => R (f a) (f b)) l <-> Sorted R (map f l).
Proof.
  induction l as [|x l IH]; simpl.
  - split; constructor.
  - split; intros H; inversion_clear H as [|? ? Hl Hx].
    + constructor; [now apply IH|].
      destruct l; simpl; constructor. now inversion_clear Hx.
    + constructor; [now apply IH|].
      destruct l; simpl in *; constructor. now inversion_clear Hx.
Qed.

Lemma Sorted_impl_Forall {A : Type} (P : A -> Prop) (R R' : A -> A -> Prop)
    (l : list A) :
  (forall a b, P a -> P b -> R a b -> R' a b) ->
  Forall P l -> Sorted R l -> Sorted R' l.
Proof.
  intros HR HP HS. induction HS as [|x l Hl IH Hx]; [constructor|].
  inversion_clear HP as [|? ? Px Pl].
  constructor; [now apply IH|].
  destruct Hx as [|y l Hxy]; constructor.
  inversion_clear Pl. now apply HR.
Qed.

(** *** The order on parent names *)

Lemma string_leb_iff (x y : string) :
  String.leb x y = true <-> x = y \/ String_as_OT.lt x y.
Proof.
  unfold String.leb. destruct (String.compare x y) eqn:Hc.
  - apply String.compare_eq_iff in Hc. tauto.
  - apply String_as_OT.cmp_lt in Hc. tauto.
  - split; [discriminate|]. intros [-> | H].
    + assert (E : String.compare y y = Eq) by now apply String_as_OT.cmp_eq.
      congruence.
    + apply String_as_OT.cmp_lt in H. unfold String_as_OT.cmp in H. congruence.
Qed.

Lemma string_leb_trans (x y z : string) :
  String.leb x y = true -> String.leb y z = true -> String.leb x z = true.
Proof.
  rewrite !string_leb_iff. intros [-> | Hxy] [-> | Hyz]; auto.
  right. eapply String_as_OT.lt_trans; eassumption.
Qed.

Lemma parent_le_trans (a b c : option string) :
  parent_le a b -> parent_le b c -> parent_le a c.
Proof.
  intros (x & y & -> & -> & Hxy) (y' & z & [= <-] & -> & Hyz).
  exists x, z. repeat split. eapply string_leb_trans; eassumption.
Qed.

Lemma parent_le_antisym (a b : option string) :
  parent_le a b -> parent_le b a -> a = b.
Proof.
  intros (x & y & -> & -> & Hxy) (y' & x' & [= <-] & [= <-] & Hyx).
  f_equal. now apply String.leb_antisym.
Qed.

Lemma compare_parent_total (a b : option string) :
  0 < compare_parent a b -> compare_parent b a <= 0.
Proof.
  unfold compare_parent.
  destruct (js_lt a b) eqn:Hab; [lia|].
  destruct (js_lt b a) eqn:Hba; lia.
Qed.

Lemma compare_parent_le (x y : string) :
  compare_parent (Some x) (Some y) <= 0 -> String.leb x y = true.
Proof.
  unfold compare_parent, js_lt, String.ltb, String.leb.
  rewrite (String.compare_antisym y x).
  destruct (String.compare x y); simpl; intros H; try reflexivity; lia.
Qed.

Lemma le_compare_parent (x y : string) :
  String.leb x y = true -> compare_parent (Some x) (Some y) <= 0.
Proof.
  unfold compare_parent, js_lt, String.ltb, String.leb.
  rewrite (String.compare_antisym y x).
  destruct (String.compare x y); simpl; intros H; try discriminate; lia.
Qed.

(** *** The sorted array *)

Lemma valid_has_parent (json : list Child) :
  valid json -> Forall has_parent json.
Proof.
  intros Hv. apply Forall_forall. intros r Hr. eapply valid_parent; eassumption.
Qed.

Lemma valid_perm (l1 l2 : list Child) :
  Permutation l1 l2 -> valid l1 -> valid l2.
Proof.
  intros Hp. rewrite !valid_iff. intros [Hne Hall]. split.
  - intros ->. apply Hne. apply Permutation_nil. now symmetry.
  - intros r Hr. apply Hall. eapply Permutation_in; [symmetry|]; eassumption.
Qed.

Lemma sort_by_parent_perm (json : list Child) :
  Permutation (sort by_parent json) json.
Proof. apply sort_perm. Qed.

Lemma sort_by_parent_sorted (json : list Child) :
  Sorted (fun a b => by_parent a b <= 0) (sort by_parent json).
Proof.
  apply sort_sorted. intros a b. apply compare_parent_total.
Qed.

(** On records that all have a parent, the sorted array is in
    non-decreasing order of parent name, at any distance. *)
Lemma sort_by_parent_ordered (json : list Child) :
  Forall has_parent json ->
  StronglySorted parent_le (map parent (sort by_parent json)).
Proof.
  intros Hp.
  apply Sorted_StronglySorted; [exact parent_le_trans|].
  apply (proj1 (Sorted_map parent parent_le _)).
  apply Sorted_impl_Forall with (P := has_parent) (R := fun a b => by_parent a b <= 0).
  - intros a b [x Ha] [y Hb]. unfold by_parent. rewrite Ha, Hb. intros H.
    exists x, y. repeat split. now apply compare_parent_le.
  - apply Forall_forall. intros r Hr.
    rewrite Forall_forall in Hp. apply Hp.
    eapply Permutation_in; [apply sort_by_parent_perm | exact Hr].
  - apply sort_by_parent_sorted.
Qed.

(** Two arrangements of the same names that are both in order are the
    same arrangement. *)
Lemma ordered_perm_unique (k1 k2 : list (option string)) :
  StronglySorted parent_le k1 -> StronglySorted parent_le k2 ->
  Permutation k1 k2 -> k1 = k2.
Proof.
  intros H1; revert k2. induction H1 as [|a k1 Hk1 IH Ha]; intros k2 H2 Hp.
  - apply Permutation_nil in Hp. now subst.
  - destruct H2 as [|b k2 Hk2 Hb].
    + symmetry in Hp. apply Permutation_nil in Hp. discriminate.
    + assert (E : a = b).
      { assert (Ia : In a (b :: k2))
          by (eapply Permutation_in; [exact Hp | now left]).
        assert (Ib : In b (a :: k1))
          by (eapply Permutation_in; [symmetry; exact Hp | now left]).
        destruct Ia as [-> | Ia]; [reflexivity|].
        destruct Ib as [-> | Ib]; [reflexivity|].
        rewrite Forall_forall in Ha, Hb.
        apply parent_le_antisym; auto. }
      subst b. f_equal. apply IH; [assumption|].
      eapply Permutation_cons_inv; eassumption.
Qed.

Lemma sorted_parents_perm_invariant (l1 l2 : list Child) :
  valid l1 -> Permutation l1 l2 ->
  map parent (sort by_parent l1) = map parent (sort by_parent l2).
Proof.
  intros Hv Hp.
  apply ordered_perm_unique.
  - apply sort_by_parent_ordered, valid_has_parent, Hv.
  - apply sort_by_parent_ordered, valid_has_parent. eapply valid_perm; eassumption.
  - apply Permutation_map.
    rewrite (sort_by_parent_perm l1), (sort_by_parent_perm l2). exact Hp.
Qed.

(** In an ordered array the records of one parent are next to each
    other. *)
Lemma ordered_group_contiguous (k1 k2 k3 : list (option string))
    (p q : option string) :
  StronglySorted parent_le (k1 ++ p :: k2 ++ p :: k3) -> In q k2 -> q = p.
Proof.
  induction k1 as [|x k1 IH]; simpl; intros H Hq.
  - inversion_clear H as [|? ? Hs Hall].
    rewrite Forall_forall in Hall.
    assert (Hpq : parent_le p q) by (apply Hall, in_or_app; auto).
    assert (Hqp : parent_le q p).
    { clear Hall Hpq. induction k2 as [|y k2 IH2]; simpl in *; [contradiction|].
      inversion_clear Hs as [|? ? Hs' Hall'].
      destruct Hq as [-> | Hq]; [|now apply IH2].
      rewrite Forall_forall in Hall'. apply Hall', in_or_app. right. now left. }
    now apply parent_le_antisym.
  - inversion_clear H. now apply IH.
Qed.

(** ** The assignment pass *)

Lemma option_string_eqb_spec (a b : option string) :
  reflect (a = b) (option_string_eqb a b).
Proof.
  destruct a as [x|], b as [y|]; simpl; try (constructor; congruence).
  destruct (String.eqb_spec x y); constructor; congruence.
Qed.

Lemma place_after (cmc : Z) (c : Cursor) (p : option string) :
  fst (place cmc c p)
  = after p (fst (snd (place cmc c p))) (snd (snd (place cmc c p))).
Proof.
  unfold place, after.
  destruct (parent_changed c p); simpl; [reflexivity|].
  destruct (cur_index c =? cmc + 1); reflexivity.
Qed.

Lemma place_cursor0 (cmc : Z) (p : option string) :
  snd (place cmc cursor0 p) = if cmc =? 0 then (2, 1) else (1, 1).
Proof.
  unfold place, cursor0, parent_changed.
  cbn [previousParent cur_index cur_row].
  destruct (Z.eqb_spec 1 (cmc + 1)), (Z.eqb_spec cmc 0);
    cbn [snd]; try reflexivity; lia.
Qed.

Lemma place_from_after (cmc : Z) (q p : option string) (r i : Z) :
  snd (place cmc (after q r i) p)
  = if option_string_eqb q p
    then (if i =? cmc then (r + 1, 1) else (r, i + 1))
    else (r + 1, 1).
Proof.
  unfold place, after, parent_changed.
  cbn [previousParent cur_index cur_row].
  destruct (option_string_eqb q p); cbn [negb snd]; [|reflexivity].
  destruct (Z.eqb_spec (i + 1) (cmc + 1)), (Z.eqb_spec i cmc);
    cbn [snd]; try reflexivity; lia.
Qed.

Lemma assign_from_cons (cmc : Z) (c : Cursor) (x : Child) (l : list Child) :
  assign_from cmc c (x :: l)
  = let cell := snd (place cmc c (parent x)) in
    set_row_index x (fst cell) (snd cell)
    :: assign_from cmc (after (parent x) (fst cell) (snd cell)) l.
Proof.
  simpl. unfold assign_element.
  rewrite <- place_after.
  destruct (place cmc c (parent x)) as [c' [r i]]. reflexivity.
Qed.

Lemma assign_from_length (cmc : Z) (l : list Child) (c : Cursor) :
  List.length (assign_from cmc c l) = List.length l.
Proof.
  revert c; induction l as [|x l IH]; intros c; simpl; [reflexivity|].
  destruct (assign_element cmc c x) as [c1 x']. simpl. now rewrite IH.
Qed.

(** The pass writes [row] and [index] and nothing else. *)
Lemma assign_from_unplaced (cmc : Z) (l : list Child) (c : Cursor) :
  map unplaced (assign_from cmc c l) = map unplaced l.
Proof.
  revert c; induction l as [|x l IH]; intros c; [reflexivity|].
  rewrite assign_from_cons. simpl. now rewrite IH.
Qed.

Lemma assign_from_parent (cmc : Z) (l : list Child) (c : Cursor) :
  map parent (assign_from cmc c l) = map parent l.
Proof.
  revert c; induction l as [|x l IH]; intros c; [reflexivity|].
  rewrite assign_from_cons. simpl. now rewrite IH.
Qed.

Lemma assign_from_annotated (cmc : Z) (l : list Child) (c : Cursor) :
  Forall annotated (assign_from cmc c l).
Proof.
  revert c; induction l as [|x l IH]; intros c; [constructor|].
  rewrite assign_from_cons. constructor; [split; reflexivity | apply IH].
Qed.

(** The cells depend on the parents of the array and on nothing else. *)
Lemma assign_from_placed (cmc : Z) (l1 l2 : list Child) (c : Cursor) :
  map parent l1 = map parent l2 ->
  map placed (assign_from cmc c l1) = map placed (assign_from cmc c l2).
Proof.
  revert l2 c; induction l1 as [|x l1 IH]; intros [|y l2] c H;
    try discriminate; [reflexivity|].
  injection H as Hxy Hl. rewrite !assign_from_cons. simpl.
  rewrite Hxy. f_equal; [unfold placed; simpl; now rewrite Hxy|].
  now apply IH.
Qed.

(** Running the pass over its own output changes nothing. *)
Lemma assign_from_idem (cmc : Z) (l : list Child) (c : Cursor) :
  assign_from cmc c (assign_from cmc c l) = assign_from cmc c l.
Proof.
  revert c; induction l as [|x l IH]; intros c; [reflexivity|].
  rewrite (assign_from_cons cmc c x l). cbv zeta.
  rewrite assign_from_cons. simpl. now rewrite IH.
Qed.

(** Each element's cell follows from the cell of the element before. *)
Lemma assign_from_follows (cmc : Z) (l : list Child) (r0 : Child) :
  Sorted (follows cmc)
    (assign_from cmc (after (parent r0) (rowZ r0) (indexZ r0)) l) /\
  HdRel (follows cmc) r0
    (assign_from cmc (after (parent r0) (rowZ r0) (indexZ r0)) l).
Proof.
  revert r0; induction l as [|x l IH]; intros r0; [split; constructor|].
  rewrite assign_from_cons. cbv zeta.
  set (cell := snd (place cmc (after (parent r0) (rowZ r0) (indexZ r0)) (parent x))).
  set (x' := set_row_index x (fst cell) (snd cell)).
  destruct (IH x') as [Hs Hh]. split.
  - constructor; assumption.
  - constructor. split; [split; reflexivity|].
    change (parent x') with (parent x).
    change (rowZ x') with (fst cell). change (indexZ x') with (snd cell).
    subst cell. rewrite place_from_after.
    destruct (option_string_eqb_spec (parent r0) (parent x)) as [E | E].
    + destruct (Z.eqb_spec (indexZ r0) cmc); simpl; [right; left | right; right]; auto.
    + left. simpl. auto.
Qed.

Lemma assign_from_chain (cmc : Z) (l : list Child) :
  Sorted (follows cmc) (assign_from cmc cursor0 l).
Proof.
  destruct l as [|x l]; [constructor|].
  rewrite assign_from_cons. cbv zeta.
  set (cell := snd (place cmc cursor0 (parent x))).
  destruct (assign_from_follows cmc l (set_row_index x (fst cell) (snd cell)))
    as [Hs Hh].
  constructor; assumption.
Qed.

(** *** Consequences along the array *)

Lemma Sorted_app_r {A : Type} (R : A -> A -> Prop) (l1 l2 : list A) :
  Sorted R (l1 ++ l2) -> Sorted R l2.
Proof.
  induction l1 as [|x l1 IH]; simpl; [auto|].
  intros H. inversion_clear H. auto.
Qed.

Lemma in_two_split {A : Type} (x y : A) (l : list A) :
  In x l -> In y l ->
  x = y
  \/ (exists l1 m l3, l = l1 ++ x :: m ++ y :: l3)
  \/ (exists l1 m l3, l = l1 ++ y :: m ++ x :: l3).
Proof.
  intros Hx Hy. destruct (in_split _ _ Hx) as (l1 & l2 & ->).
  apply in_app_or in Hy. destruct Hy as [Hy | [Hy | Hy]]; [|auto|].
  - right; right. destruct (in_split _ _ Hy) as (k1 & k2 & ->).
    exists k1, k2, l2. now rewrite <- app_assoc.
  - right; left. destruct (in_split _ _ Hy) as (k1 & k2 & ->).
    exists l1, k1, k2. reflexivity.
Qed.

Section Chain.
Variable cmc : Z.

Lemma follows_row_step (r1 r2 : Child) :
  follows cmc r1 r2 -> rowZ r1 <= rowZ r2 <= rowZ r1 + 1.
Proof. intros [_ [H | [H | H]]]; lia. Qed.

Lemma follows_cell_lt (r1 r2 : Child) :
  follows cmc r1 r2 ->
  rowZ r1 < rowZ r2 \/ (rowZ r1 = rowZ r2 /\ indexZ r1 < indexZ r2).
Proof. intros [_ [H | [H | H]]]; lia. Qed.

Lemma chain_head (r1 r2 : Child) (l : list Child) :
  Sorted (follows cmc) (r1 :: r2 :: l) ->
  follows cmc r1 r2 /\ Sorted (follows cmc) (r2 :: l).
Proof.
  intros H. inversion_clear H as [|? ? Hs Hh]. inversion_clear Hh. auto.
Qed.

(** Rows never decrease along the array. *)
Lemma chain_rows_mono (m : list Child) (r1 r2 : Child) (l3 : list Child) :
  Sorted (follows cmc) (r1 :: m ++ r2 :: l3) -> rowZ r1 <= rowZ r2.
Proof.
  revert r1; induction m as [|y m IH]; simpl; intros r1 H;
    apply chain_head in H; destruct H as [Hf Hs];
    apply follows_row_step in Hf.
  - lia.
  - specialize (IH _ Hs). lia.
Qed.

(** Cells strictly increase, rows first and then indices. *)
Lemma chain_cells_lt (m : list Child) (r1 r2 : Child) (l3 : list Child) :
  Sorted (follows cmc) (r1 :: m ++ r2 :: l3) ->
  rowZ r1 < rowZ r2 \/ (rowZ r1 = rowZ r2 /\ indexZ r1 < indexZ r2).
Proof.
  revert r1; induction m as [|y m IH]; simpl; intros r1 H;
    apply chain_head in H; destruct H as [Hf Hs];
    apply follows_cell_lt in Hf.
  - assumption.
  - specialize (IH _ Hs). lia.
Qed.

(** Between two records of different parents the row has gone up. *)
Lemma chain_parent_change (m : list Child) (r1 r2 : Child) (l3 : list Child) :
  Sorted (follows cmc) (r1 :: m ++ r2 :: l3) ->
  parent r1 <> parent r2 -> rowZ r1 < rowZ r2.
Proof.
  revert r1; induction m as [|y m IH]; simpl; intros r1 H Hp;
    apply chain_head in H; destruct H as [Hf Hs].
  - destruct Hf as [_ [Hf | [Hf | Hf]]]; [lia | tauto | tauto].
  - destruct (option_string_eqb_spec (parent r1) (parent y)) as [E | E].
    + rewrite E in Hp. specialize (IH _ Hs Hp).
      apply follows_row_step in Hf. lia.
    + pose proof (chain_rows_mono _ _ _ _ Hs).
      destruct Hf as [_ [Hf | [Hf | Hf]]]; [lia | tauto | tauto].
Qed.

(** Every row between the rows of two records is the row of a record
    between them. *)
Lemma chain_rows_onto (m : list Child) (r1 r2 : Child) (l3 : list Child) (k : Z) :
  Sorted (follows cmc) (r1 :: m ++ r2 :: l3) ->
  rowZ r1 <= k <= rowZ r2 ->
  exists r, In r (r1 :: m ++ [r2]) /\ rowZ r = k.
Proof.
  revert r1; induction m as [|y m IH]; simpl; intros r1 H Hk;
    apply chain_head in H; destruct H as [Hf Hs];
    apply follows_row_step in Hf.
  - destruct (Z.eq_dec k (rowZ r1)) as [-> | Hne].
    + exists r1. auto.
    + exists r2. split; [auto | lia].
  - destruct (Z.eq_dec k (rowZ r1)) as [-> | Hne].
    + exists r1. auto.
    + destruct (IH _ Hs) as (r & Hr & Hrk); [lia|].
      exists r. simpl in Hr. auto.
Qed.
End Chain.

(** *** The cursor stays in range *)

Lemma good_cursor0 (cmc : Z) : 1 <= cmc -> good cmc cursor0.
Proof. unfold good, cursor0; simpl; lia. Qed.

Lemma assign_element_good (cmc : Z) (c : Cursor) (x : Child) :
  1 <= cmc -> good cmc c ->
  good cmc (fst (assign_element cmc c x))
  /\ in_bounds cmc (snd (assign_element cmc c x)).
Proof.
  intros Hc [Hr Hi]. unfold assign_element, place, good, in_bounds.
  destruct (parent_changed c (parent x)); cbn [fst snd cur_row cur_index].
  - split; [lia|]. exists (cur_row c + 1), 1. cbn [row index set_row_index].
    repeat split; lia.
  - destruct (Z.eqb_spec (cur_index c) (cmc + 1));
      cbn [fst snd cur_row cur_index].
    + split; [lia|]. exists (cur_row c + 1), 1. cbn [row index set_row_index].
      repeat split; lia.
    + split; [lia|]. exists (cur_row c), (cur_index c).
      cbn [row index set_row_index]. repeat split; lia.
Qed.

Lemma assign_from_bounds (cmc : Z) (l : list Child) (c : Cursor) :
  1 <= cmc -> good cmc c -> Forall (in_bounds cmc) (assign_from cmc c l).
Proof.
  intros Hc. revert c; induction l as [|x l IH]; intros c Hg; [constructor|].
  simpl. destruct (assign_element_good cmc c x Hc Hg) as [Hg' Hb].
  destruct (assign_element cmc c x) as [c' x']. constructor; [exact Hb|].
  apply IH. exact Hg'.
Qed.

(** ** The pass on the store *)

Lemma upd_same {V : Type} (f : loc -> V) (l : loc) (v : V) : upd f l v l = v.
Proof. unfold upd. now rewrite Nat.eqb_refl. Qed.

Lemma upd_other {V : Type} (f : loc -> V) (l l' : loc) (v : V) :
  l' <> l -> upd f l v l' = f l'.
Proof. unfold upd. intros H. apply Nat.eqb_neq in H. now rewrite H. Qed.

Lemma assign_heap_cons (cmc : Z) (c : Cursor) (l : loc) (ls : list loc)
    (h : loc -> Child) :
  assign_heap cmc c (l :: ls) h
  = assign_heap cmc (fst (assign_element cmc c (h l))) ls
      (upd h l (snd (assign_element cmc c (h l)))).
Proof. simpl. now destruct (assign_element cmc c (h l)). Qed.

(** Objects the array does not refer to are left alone. *)
Lemma assign_heap_frame (cmc : Z) (ls : list loc) (c : Cursor)
    (h : loc -> Child) (l : loc) :
  ~ In l ls -> assign_heap cmc c ls h l = h l.
Proof.
  revert c h; induction ls as [|x ls IH]; intros c h Hl; [reflexivity|].
  rewrite assign_heap_cons, IH by (simpl in Hl; tauto).
  apply upd_other. simpl in Hl. intros ->. tauto.
Qed.

(** Only [row] and [index] are ever written. *)
Lemma assign_heap_unplaced (cmc : Z) (ls : list loc) (c : Cursor)
    (h : loc -> Child) (l : loc) :
  unplaced (assign_heap cmc c ls h l) = unplaced (h l).
Proof.
  revert c h; induction ls as [|x ls IH]; intros c h; [reflexivity|].
  rewrite assign_heap_cons, IH.
  destruct (Nat.eq_dec l x) as [-> | Hne].
  - rewrite upd_same. unfold assign_element.
    destruct (place cmc c (parent (h x))) as [c' [r i]]. reflexivity.
  - now rewrite upd_other.
Qed.

Lemma assign_heap_bounds (cmc : Z) (ls : list loc) (c : Cursor)
    (h : loc -> Child) (l : loc) :
  1 <= cmc -> good cmc c -> In l ls ->
  in_bounds cmc (assign_heap cmc c ls h l).
Proof.
  intros Hc. revert c h; induction ls as [|x ls IH]; intros c h Hg Hl;
    [contradiction|].
  rewrite assign_heap_cons.
  destruct (assign_element_good cmc c (h x) Hc Hg) as [Hg' Hb].
  destruct (in_dec Nat.eq_dec l ls) as [Hin | Hout].
  - now apply IH.
  - destruct Hl as [<- | Hl]; [|contradiction].
    rewrite assign_heap_frame by assumption. now rewrite upd_same.
Qed.

Lemma assign_heap_annotated (cmc : Z) (ls : list loc) (c : Cursor)
    (h : loc -> Child) (l : loc) :
  In l ls -> annotated (assign_heap cmc c ls h l).
Proof.
  revert c h; induction ls as [|x ls IH]; intros c h Hl; [contradiction|].
  rewrite assign_heap_cons.
  destruct (in_dec Nat.eq_dec l ls) as [Hin | Hout].
  - now apply IH.
  - destruct Hl as [<- | Hl]; [|contradiction].
    rewrite assign_heap_frame by assumption. rewrite upd_same.
    unfold assign_element. destruct (place cmc c (parent (h x))) as [c' [r i]].
    split; reflexivity.
Qed.

(** When the array refers to each object once, the objects end up with
    what the pass wrote at their position. *)
Lemma assign_heap_view (cmc : Z) (ls : list loc) (c : Cursor) (h : loc -> Child) :
  NoDup ls ->
  map (assign_heap cmc c ls h) ls = assign_from cmc c (map h ls).
Proof.
  intros Hnd. revert c h; induction Hnd as [|x ls Hx Hnd IH]; intros c h;
    [reflexivity|].
  rewrite assign_heap_cons. simpl.
  destruct (assign_element cmc c (h x)) as [c' x'] eqn:E. simpl. f_equal.
  - rewrite assign_heap_frame by assumption. apply upd_same.
  - rewrite IH. f_equal. apply map_ext_in. intros l Hl.
    apply upd_other. intros ->. contradiction.
Qed.

Lemma arrays_sort_store (a : loc) (s : Store) :
  arrays (sort_store a s) a
  = sort (fun l1 l2 => by_parent (heap s l1) (heap s l2)) (arrays s a).
Proof. unfold sort_store; simpl. apply upd_same. Qed.

Lemma view_sort_store (a : loc) (s : Store) :
  view (sort_store a s) a = sort by_parent (view s a).
Proof.
  unfold view. rewrite arrays_sort_store. simpl.
  apply (sort_map (heap s) by_parent).
Qed.

Lemma arrays_layout_store (cmc : Z) (a : loc) (s : Store) :
  arrays (layout_store cmc a s) a
  = sort (fun l1 l2 => by_parent (heap s l1) (heap s l2)) (arrays s a).
Proof. apply arrays_sort_store. Qed.

Lemma arrays_layout_store_perm (cmc : Z) (a : loc) (s : Store) :
  Permutation (arrays (layout_store cmc a s) a) (arrays s a).
Proof. rewrite arrays_layout_store. apply sort_perm. Qed.

Lemma arrays_layout_store_other (cmc : Z) (a b : loc) (s : Store) :
  b <> a -> arrays (layout_store cmc a s) b = arrays s b.
Proof. intros H. unfold layout_store, assign_store, sort_store; simpl. now apply upd_other. Qed.

(** For an array of distinct objects, reading the array after the pass
    gives the position-by-position result [layout]. *)
Lemma layout_store_view (cmc : Z) (a : loc) (s : Store) :
  NoDup (arrays s a) ->
  view (layout_store cmc a s) a = layout cmc (view s a).
Proof.
  intros Hnd. unfold layout. rewrite <- view_sort_store.
  unfold view, layout_store, assign_store. cbn [heap arrays].
  rewrite assign_heap_view; [reflexivity|].
  rewrite arrays_sort_store. eapply Permutation_NoDup; [|exact Hnd].
  symmetry. apply sort_perm.
Qed.

(** ** The layout *)

Lemma layout_chain (cmc : Z) (json : list Child) :
  Sorted (follows cmc) (layout cmc json).
Proof. apply assign_from_chain. Qed.

Lemma layout_annotated (cmc : Z) (json : list Child) (r : Child) :
  In r (layout cmc json) -> annotated r.
Proof.
  intros H. pose proof (assign_from_annotated cmc (sort by_parent json) cursor0) as HA.
  rewrite Forall_forall in HA. now apply HA.
Qed.

Lemma layout_parents (cmc : Z) (json : list Child) :
  map parent (layout cmc json) = map parent (sort by_parent json).
Proof. apply assign_from_parent. Qed.

Lemma layout_ordered (cmc : Z) (json : list Child) :
  valid json -> StronglySorted parent_le (map parent (layout cmc json)).
Proof.
  intros Hv. rewrite layout_parents.
  apply sort_by_parent_ordered, valid_has_parent, Hv.
Qed.

(** The layout keeps the records: it reorders them and fills in the two
    fields. *)
Lemma layout_perm (cmc : Z) (json : list Child) :
  Permutation (map unplaced (layout cmc json)) (map unplaced json).
Proof.
  unfold layout. rewrite assign_from_unplaced.
  apply Permutation_map, sort_by_parent_perm.
Qed.

Lemma layout_length (cmc : Z) (json : list Child) :
  List.length (layout cmc json) = List.length json.
Proof.
  unfold layout. rewrite assign_from_length.
  apply Permutation_length, sort_by_parent_perm.
Qed.

Lemma layout_idem (cmc : Z) (json : list Child) :
  layout cmc (layout cmc json) = layout cmc json.
Proof.
  unfold layout at 1.
  rewrite sort_sorted_id; [apply assign_from_idem|].
  apply (proj2 (Sorted_map parent (fun a b => compare_parent a b <= 0) _)).
  fold (layout cmc json). rewrite layout_parents.
  apply (proj1 (Sorted_map parent (fun a b => compare_parent a b <= 0) _)).
  apply sort_by_parent_sorted.
Qed.

(** C1: with [calculatedMaxChildren >= 1], every position of a valid
    array is given a row of at least 1 and an index between 1 and
    [calculatedMaxChildren]; and in the store, every record object the
    array refers to holds such a row and index once the pass is over. *)
Theorem layout_in_bounds (cmc : Z) (json : list Child) :
  1 <= cmc -> valid json ->
  (forall r, In r (layout cmc json) ->
     exists v i, row r = Some v /\ index r = Some i /\ 1 <= v /\ 1 <= i <= cmc)
  /\ (forall s a l, view s a = json -> In l (arrays s a) ->
        exists v i, row (heap (layout_store cmc a s) l) = Some v
                 /\ index (heap (layout_store cmc a s) l) = Some i
                 /\ 1 <= v /\ 1 <= i <= cmc).
Proof.
  intros Hc _. split.
  - intros r Hr.
    pose proof (assign_from_bounds cmc (sort by_parent json) cursor0 Hc
                  (good_cursor0 cmc Hc)) as HB.
    rewrite Forall_forall in HB. exact (HB r Hr).
  - intros s a l _ Hl.
    apply (assign_heap_bounds cmc _ cursor0 _ l Hc (good_cursor0 cmc Hc)).
    rewrite arrays_sort_store.
    eapply Permutation_in; [symmetry; apply sort_perm | exact Hl].
Qed.

Lemma layout_in_bounds_sample :
  1 <= 2 /\ valid sample_json
  /\ forall r, In r (layout 2 sample_json) ->
       exists v i, row r = Some v /\ index r = Some i /\ 1 <= v /\ 1 <= i <= 2.
Proof.
  split; [lia|]. split; [reflexivity|].
  apply (layout_in_bounds 2 sample_json); [lia | reflexivity].
Defined.

(** Position by position: whenever a position of the sorted array and the
    next one have different parents, the next one is given a greater row
    and index 1; and no row is given to positions of two different
    parents. *)
Lemma layout_new_parent_new_row (cmc : Z) (json : list Child) :
  valid json ->
  (forall l1 r1 r2 l2,
     layout cmc json = l1 ++ r1 :: r2 :: l2 ->
     parent r1 <> parent r2 ->
     exists v1 v2, row r1 = Some v1 /\ row r2 = Some v2 /\ v1 < v2
                /\ index r2 = Some 1)
  /\ (forall x y,
        In x (layout cmc json) -> In y (layout cmc json) ->
        parent x <> parent y -> row x <> row y).
Proof.
  intros _. pose proof (layout_chain cmc json) as HS. split.
  - intros l1 r1 r2 l2 E Hp.
    assert (A1 : annotated r1)
      by (apply (layout_annotated cmc json); rewrite E; apply in_elt).
    rewrite E in HS. apply Sorted_app_r, chain_head in HS.
    destruct HS as [[[A2 A2'] [H | [H | H]]] _]; try tauto.
    exists (rowZ r1), (rowZ r2). destruct A1 as [A1 _], H as (_ & Hr & Hi).
    repeat split; [assumption | assumption | lia | now rewrite A2', Hi].
  - intros x y Hx Hy Hp.
    destruct (layout_annotated _ _ _ Hx) as [Ax _].
    destruct (layout_annotated _ _ _ Hy) as [Ay _].
    rewrite Ax, Ay. intros [= E].
    destruct (in_two_split _ _ _ Hx Hy)
      as [-> | [(l1 & m & l3 & D) | (l1 & m & l3 & D)]]; [tauto | |];
      rewrite D in HS; apply Sorted_app_r in HS;
      apply chain_parent_change in HS; auto; lia.
Qed.

(** Position by position: two positions whose records have the same
    parent never get the same (row, index) pair, and the rows given to the
    positions of one parent have no gap. *)
Lemma layout_cells_distinct_rows_contiguous (cmc : Z) (json : list Child) :
  1 <= cmc -> valid json ->
  (forall l1 r1 m r2 l3,
     layout cmc json = l1 ++ r1 :: m ++ r2 :: l3 ->
     parent r1 = parent r2 -> cell_of r1 <> cell_of r2)
  /\ (forall x y vx vy k,
        In x (layout cmc json) -> In y (layout cmc json) ->
        parent x = parent y ->
        row x = Some vx -> row y = Some vy -> vx <= k <= vy ->
        exists z, In z (layout cmc json) /\ parent z = parent x
                  /\ row z = Some k).
Proof.
  intros _ Hv. pose proof (layout_chain cmc json) as HS. split.
  - intros l1 r1 m r2 l3 E _.
    assert (A1 : annotated r1)
      by (apply (layout_annotated cmc json); rewrite E; apply in_elt).
    assert (A2 : annotated r2).
    { apply (layout_annotated cmc json). rewrite E.
      apply in_or_app. right. right. apply in_elt. }
    rewrite E in HS. apply Sorted_app_r, chain_cells_lt in HS.
    unfold cell_of. destruct A1 as [-> ->], A2 as [-> ->].
    intros [= Hr Hi]. lia.
  - intros x y vx vy k Hx Hy Hp Rx Ry Hk.
    destruct (layout_annotated _ _ _ Hx) as [Ax _].
    destruct (layout_annotated _ _ _ Hy) as [Ay _].
    assert (Ex : vx = rowZ x) by congruence.
    assert (Ey : vy = rowZ y) by congruence. subst vx vy.
    destruct (in_two_split _ _ _ Hx Hy)
      as [-> | [(l1 & m & l3 & D) | (l1 & m & l3 & D)]].
    + exists y. assert (k = rowZ y) by lia. subst k. auto.
    + (* x stands before y *)
      pose proof (layout_ordered cmc json Hv) as HO.
      rewrite D in HS, HO. apply Sorted_app_r in HS.
      destruct (chain_rows_onto cmc m x y l3 k HS Hk) as (z & Hz & Hzk).
      assert (Hzin : In z (layout cmc json)).
      { rewrite D. apply in_or_app. right.
        destruct Hz as [<- | Hz]; [now left | right].
        apply in_app_or in Hz. apply in_or_app.
        destruct Hz as [Hz | [<- | []]]; [now left | right; now left]. }
      exists z. split; [exact Hzin|]. split.
      * destruct Hz as [<- | Hz]; [reflexivity|].
        apply in_app_or in Hz. destruct Hz as [Hz | [<- | []]]; [|now symmetry].
        rewrite !map_app in HO. cbn [map] in HO. rewrite map_app in HO.
        cbn [map] in HO. rewrite <- Hp in HO.
        apply (ordered_group_contiguous _ _ _ _ (parent z) HO).
        now apply in_map.
      * destruct (layout_annotated _ _ _ Hzin) as [Az _]. now rewrite Az, Hzk.
    + (* y stands before x *)
      rewrite D in HS. apply Sorted_app_r, chain_rows_mono in HS.
      exists x. assert (k = rowZ x) by lia. subst k. auto.
Qed.

(** ** generate *)

(** A failed validation leaves the store as it was and draws nothing. *)
Lemma generate_invalid (g : Graph) (cw w : Z) (json : option loc) (s : Store)
    (e : Exn) :
  verifyJson (option_map (view s) json) = inl e ->
  generate g cw w json s = (inl e, s).
Proof. unfold generate. now intros ->. Qed.

(** When [generate] returns, the array was valid and the store is the one
    the sort and the assignment pass leave. *)
Lemma generate_returns_inv (g : Graph) (cw w : Z) (a : loc) (s : Store)
    (d : Drawing) :
  fst (generate g cw w (Some a) s) = inr (Some d) ->
  valid (view s a)
  /\ snd (generate g cw w (Some a) s)
     = layout_store (calculatedMaxChildren (config g) cw) a s.
Proof.
  unfold generate, valid. cbn [option_map].
  destruct (verifyJson (Some (view s a))) as [e | [|]]; cbn [fst snd];
    try discriminate.
  destruct (group (view (sort_store a s) a)) as [e | [parents parentSizes]];
    cbn [fst snd]; [discriminate|].
  intros _. split; reflexivity.
Qed.

Lemma get_prop_incr (o : JsObject) (p key : string) :
  get_prop o key = None -> get_prop (incr_prop o p) key = None.
Proof.
  induction o as [|[k v] o IH]; simpl; [auto|].
  destruct (String.eqb k key) eqn:Ek; [discriminate|].
  intros H. destruct (String.eqb k p); simpl; rewrite Ek; auto.
Qed.

Lemma get_prop_create (o : JsObject) (p key : string) :
  p <> key -> get_prop o key = None -> get_prop (create_prop o p) key = None.
Proof.
  intros Hp. unfold create_prop. destruct (String.eqb p "__proto__"); [auto|].
  induction o as [|[k v] o IH]; simpl.
  - apply String.eqb_neq in Hp. now rewrite Hp.
  - destruct (String.eqb k key); [discriminate | auto].
Qed.

(** The grouping pass runs through when every record has a parent and no
    parent is named after the inherited method. *)
Lemma group_from_returns (json : list Child) (st : list string * JsObject) :
  Forall has_parent json ->
  (forall r, In r json -> parent r <> Some "containsKey") ->
  get_prop (snd st) "containsKey" = None ->
  exists st', group_from st json = inr st'.
Proof.
  revert st; induction json as [|x json IH]; intros [parents sizes] Hp Hn Hs.
  - eexists. reflexivity.
  - inversion_clear Hp as [|? ? [p Hx] Hrest]. simpl in Hs.
    cbn [group_from group_element]. rewrite Hx. unfold containsKey. rewrite Hs.
    assert (Hpk : p <> "containsKey").
    { intros ->. apply (Hn x); [now left | exact Hx]. }
    destruct (indexOf (Object_keys sizes) p >? -1).
    + apply IH; [assumption | intros r Hr; apply Hn; now right|].
      simpl. now apply get_prop_incr.
    + apply IH; [assumption | intros r Hr; apply Hn; now right|].
      simpl. now apply get_prop_create.
Qed.

Lemma generate_returns (g : Graph) (cw w : Z) (a : loc) (s : Store) :
  valid (view s a) ->
  (forall r, In r (view s a) -> parent r <> Some "containsKey") ->
  exists d, fst (generate g cw w (Some a) s) = inr (Some d).
Proof.
  intros Hv Hn. unfold generate. cbn [option_map].
  unfold valid in Hv. rewrite Hv.
  destruct (group_from_returns (view (sort_store a s) a) ([], []))
    as [[parents sizes] E].
  - rewrite view_sort_store. apply Forall_forall. intros r Hr.
    apply (valid_parent (view s a)); [exact Hv|].
    eapply Permutation_in; [apply sort_by_parent_perm | exact Hr].
  - intros r Hr. apply Hn. rewrite view_sort_store in Hr.
    eapply Permutation_in; [apply sort_by_parent_perm | exact Hr].
  - reflexivity.
  - unfold group. rewrite E. cbn [fst]. eexists. reflexivity.
Qed.

Lemma heap_layout_store_parent (cmc : Z) (a : loc) (s : Store) (l : loc) :
  parent (heap (layout_store cmc a s) l) = parent (heap s l).
Proof.
  unfold layout_store, assign_store. cbn [heap].
  pose proof (assign_heap_unplaced cmc (arrays (sort_store a s) a) cursor0
                (heap (sort_store a s)) l) as H.
  apply (f_equal parent) in H. exact H.
Qed.

(** C10: when [generate] returns, the caller's array holds the same
    references as before, rearranged by the stable sort on parent, so that
    the parents read down the array are in order; the array is in its
    original order only if that order was already sorted.  Every object
    the array refers to now has a row and an index and is otherwise as it
    was; objects the array does not refer to, and other arrays, are
    untouched. *)
Theorem generate_sorts_and_annotates_in_place (g : Graph) (cw w : Z) (a : loc)
    (s : Store) (d : Drawing) :
  fst (generate g cw w (Some a) s) = inr (Some d) ->
  let s' := snd (generate g cw w (Some a) s) in
  arrays s' a
    = sort (fun l1 l2 => by_parent (heap s l1) (heap s l2)) (arrays s a)
  /\ Permutation (arrays s' a) (arrays s a)
  /\ StronglySorted parent_le (map parent (view s' a))
  /\ (arrays s' a = arrays s a <->
      Sorted (fun x y => by_parent x y <= 0) (view s a))
  /\ (forall l, In l (arrays s a) ->
        (exists v i, row (heap s' l) = Some v /\ index (heap s' l) = Some i)
        /\ unplaced (heap s' l) = unplaced (heap s l))
  /\ (forall l, ~ In l (arrays s a) -> heap s' l = heap s l)
  /\ (forall b, b <> a -> arrays s' b = arrays s b).
Proof.
  intros H. destruct (generate_returns_inv _ _ _ _ _ _ H) as [Hv ->].
  set (cmc := calculatedMaxChildren (config g) cw). cbv zeta.
  assert (Hin : forall l, In l (arrays (sort_store a s) a) <-> In l (arrays s a)).
  { intros l. rewrite arrays_sort_store. split; apply Permutation_in;
      [apply sort_perm | symmetry; apply sort_perm]. }
  split; [apply arrays_layout_store|].
  split; [apply arrays_layout_store_perm|].
  split; [|split; [|split; [|split]]].
  - unfold view. rewrite map_map.
    rewrite (map_ext _ (fun l => parent (heap s l)))
      by (intros l; apply heap_layout_store_parent).
    rewrite arrays_layout_store, <- map_map.
    rewrite (sort_map (heap s) by_parent).
    apply sort_by_parent_ordered, valid_has_parent, Hv.
  - rewrite arrays_layout_store. split.
    + intros E. unfold view.
      apply (proj1 (Sorted_map (heap s) (fun x y => by_parent x y <= 0) _)).
      rewrite <- E. apply sort_sorted.
      intros x y. apply compare_parent_total.
    + intros HS. apply sort_sorted_id.
      apply (proj2 (Sorted_map (heap s) (fun x y => by_parent x y <= 0) _)).
      exact HS.
  - intros l Hl. split.
    + destruct (assign_heap_annotated cmc (arrays (sort_store a s) a) cursor0
                  (heap (sort_store a s)) l) as [Hr Hi];
        [now apply Hin | eauto].
    + apply (assign_heap_unplaced cmc (arrays (sort_store a s) a) cursor0
               (heap (sort_store a s)) l).
  - intros l Hl.
    apply (assign_heap_frame cmc (arrays (sort_store a s) a) cursor0
             (heap (sort_store a s)) l).
    now rewrite Hin.
  - intros b Hb. now apply arrays_layout_store_other.
Qed.

Lemma generate_sorts_and_annotates_in_place_sample :
  fst (generate sample_graph 500 40 (Some 0%nat) sample_store)
    = inr (Some sample_drawing)
  /\ arrays (snd (generate sample_graph 500 40 (Some 0%nat) sample_store)) 0%nat
     = sort (fun l1 l2 => by_parent (heap sample_store l1) (heap sample_store l2))
            (arrays sample_store 0%nat).
Proof.
  split; [reflexivity|].
  apply (generate_sorts_and_annotates_in_place
           sample_graph 500 40 0%nat sample_store sample_drawing).
  reflexivity.
Defined.

(** On the sample store the array [0; 1; 2] comes back as [1; 2; 0], and
    the three objects carry their cells. *)
Example generate_sample_store :
  let s' := snd (generate sample_graph 500 40 (Some 0%nat) sample_store) in
  arrays s' 0%nat = [1%nat; 2%nat; 0%nat]
  /\ map placed (view s' 0%nat)
     = [(Some "A", Some 1, Some 1); (Some "A", Some 1, Some 2);
        (Some "B", Some 2, Some 1)].
Proof. split; reflexivity. Qed.

(** The scenario of the specification: two children of A and one of B,
    two children per row. *)
Example layout_sample_json :
  map placed (layout 2 sample_json)
  = [(Some "A", Some 1, Some 1); (Some "A", Some 1, Some 2);
     (Some "B", Some 2, Some 1)].
Proof. reflexivity. Qed.

(** An array that refers to one object twice: the object keeps what the
    pass wrote last. *)
Example layout_store_shared_object :
  let s := {| heap := heap sample_store; arrays := fun _ => [1%nat; 0%nat; 0%nat] |} in
  let s' := layout_store 2 0%nat s in
  arrays s' 0%nat = [1%nat; 0%nat; 0%nat]
  /\ map placed (view s' 0%nat)
     = [(Some "A", Some 1, Some 1); (Some "B", Some 2, Some 2);
        (Some "B", Some 2, Some 2)]
  /\ map placed (layout 2 (view s 0%nat))
     = [(Some "A", Some 1, Some 1); (Some "B", Some 2, Some 1);
        (Some "B", Some 2, Some 2)].
Proof. repeat split; reflexivity. Qed.

(** ** Size tracking *)

(** The size given to the svg group is the final [maxWidth] and
    [maxHeight] plus 15. *)
Lemma draw_size (cmc bs width : Z) (parents : list string)
    (parentSizes : JsObject) (json : list Child) :
  let d := draw cmc bs width parents parentSizes json in
  svg_width d = fold_left (bump bs) (block_xs d) 0 + 15
  /\ exists mh, svg_height d = fold_left (bump bs) (block_ys d) mh + 15.
Proof.
  unfold draw.
  destruct (labels_from cmc bs parentSizes 0 0 (List.length parents)) as [lys mh].
  cbn. split; [reflexivity | now exists mh].
Qed.

(** The accumulated value is never below the running maximum. *)
Lemma bump_covers_running_max (bs : Z) (vs : list (option Z)) (a b : Z) :
  0 <= b -> a <= b ->
  fold_left (running_max bs) vs a <= fold_left (bump bs) vs b.
Proof.
  revert a b; induction vs as [|v vs IH]; intros a b Hb Hab; simpl; [exact Hab|].
  apply IH; unfold bump, running_max; destruct v as [c|]; try lia;
    destruct (Z.gtb_spec (c + bs) b); lia.
Qed.

(** C8: the claim has [maxWidth] and [maxHeight] hold running maxima.
    The block callbacks add to the variable ([maxWidth += ...]) instead of
    replacing it.  For the sample store (blocks at x = 40, 64, 40 and
    y = 0, 0, 24, labels at y = 0 and 24, block size 24) the svg group is
    sized 167 by 87, where the greatest extents are 88 and 48 and the
    claim gives 103 by 63. *)
Theorem generate_size_accumulates :
  fst (generate sample_graph 500 40 (Some 0%nat) sample_store)
    = inr (Some sample_drawing)
  /\ svg_width sample_drawing = 167
  /\ svg_height sample_drawing = 87
  /\ fold_left (running_max 24) (block_xs sample_drawing) 0 + 15 = 103
  /\ fold_left (running_max 24) (block_ys sample_drawing)
       (fold_left (running_max 0) (label_ys sample_drawing) 0) + 15 = 63
  /\ fold_left (bump 24) (block_xs sample_drawing) 0 = 64 + 88
  /\ fold_left (bump 24) (block_ys sample_drawing) 24 = 24 + 48.
Proof. repeat split; reflexivity. Qed.

(** * Further properties of the source *)

(** ** abbreviate, contains, containsKey *)

Lemma length_substring_prefix (n : nat) (s : string) :
  (n <= String.length s)%nat -> String.length (String.substring 0 n s) = n.
Proof.
  revert s; induction n as [|n IH]; intros [|c s] H; simpl in *; try lia; auto.
  rewrite IH; lia.
Qed.

Lemma length_string_append (a b : string) :
  String.length (String.append a b) = (String.length a + String.length b)%nat.
Proof. induction a as [|c a IH]; simpl; [reflexivity | now rewrite IH]. Qed.

Lemma substring_append_prefix (a b : string) :
  String.substring 0 (String.length a) (String.append a b) = a.
Proof. induction a as [|c a IH]; simpl; [now destruct b | now rewrite IH]. Qed.

(** Abbreviating is idempotent and its result has at most 28
    characters: a name that was cut, 25 characters and the marker, is cut
    again at the same place. *)
Theorem abbreviate_idempotent_bounded (s : string) :
  abbreviate (abbreviate s) = abbreviate s
  /\ (String.length (abbreviate s) <= 28)%nat.
Proof.
  destruct (Nat.lt_ge_cases (String.length s) 25) as [Hs | Hs].
  - rewrite (abbreviate_short s Hs).
    split; [now apply abbreviate_short | lia].
  - rewrite (abbreviate_long s Hs).
    assert (L : String.length (String.substring 0 25 s) = 25%nat)
      by now apply length_substring_prefix.
    split.
    + rewrite abbreviate_long by (rewrite length_string_append, L; simpl; lia).
      f_equal. rewrite <- L at 1. apply substring_append_prefix.
    + rewrite length_string_append, L. simpl. lia.
Qed.

Lemma indexOf_from_spec (i : Z) (l : list string) (key : string) :
  (~ In key l /\ indexOf_from i l key = -1)
  \/ exists n, indexOf_from i l key = i + Z.of_nat n
               /\ nth_error l n = Some key
               /\ forall m, (m < n)%nat -> nth_error l m <> Some key.
Proof.
  revert i; induction l as [|x l IH]; intros i; simpl.
  - left. tauto.
  - destruct (String.eqb_spec x key) as [-> | Hne].
    + right. exists 0%nat. repeat split; [lia | intros m Hm; lia].
    + destruct (IH (i + 1)) as [[Hn E] | (n & E & Hn & Hm)].
      * left. split; [intros [H | H]; tauto | exact E].
      * right. exists (S n). repeat split; [lia | exact Hn|].
        intros [|m] Hlt; simpl; [congruence | apply Hm; lia].
Qed.

(** [contains] tells whether the array holds the key, and [indexOf]
    gives the first position that does, or -1 when none does. *)
Theorem contains_iff_member (l : list string) (key : string) :
  (contains l key = true <-> In key l)
  /\ (indexOf l key = -1 <-> ~ In key l)
  /\ (In key l ->
      exists n, indexOf l key = Z.of_nat n
                /\ nth_error l n = Some key
                /\ forall m, (m < n)%nat -> nth_error l m <> Some key).
Proof.
  split; [apply contains_In|].
  unfold indexOf.
  destruct (indexOf_from_spec 0 l key) as [[Hn E] | (n & E & Hn & Hm)].
  - split; [tauto | intros; contradiction].
  - assert (Hin : In key l) by (eapply nth_error_In; eassumption).
    split; [split; [lia | tauto]|].
    intros _. exists n. rewrite E. auto.
Qed.

Lemma get_prop_In (o : JsObject) (key : string) :
  has_own o key = true <-> In key (map fst o).
Proof.
  unfold has_own. induction o as [|[k v] o IH]; simpl.
  - split; [discriminate | tauto].
  - destruct (String.eqb_spec k key) as [-> | Hne].
    + split; auto.
    + rewrite IH. split; [auto | intros [H | H]; [contradiction | exact H]].
Qed.

Lemma insert_index_In (x y : N * string) (l : list (N * string)) :
  In y (insert_index x l) <-> y = x \/ In y l.
Proof.
  induction l as [|h t IH]; simpl.
  - split; intros [H | H]; auto.
  - destruct (fst x <=? fst h)%N; simpl; [split; intros [H | H]; auto|].
    rewrite IH. tauto.
Qed.

Lemma index_keys_In (o : JsObject) (key : string) :
  In key (map snd (index_keys o)) <->
  In key (map fst o) /\ array_index key <> None.
Proof.
  induction o as [|[k v] o IH]; simpl; [tauto|].
  destruct (array_index k) as [n|] eqn:Ek.
  - rewrite in_map_iff. split.
    + intros ([m k'] & <- & Hin). apply insert_index_In in Hin.
      destruct Hin as [[= -> ->] | Hin].
      * split; [auto | simpl; congruence].
      * assert (H : In k' (map snd (index_keys o)))
          by (apply in_map_iff; exists (m, k'); auto).
        apply IH in H. simpl. tauto.
    + intros [[<- | Hin] Hk].
      * exists (n, k). split; [reflexivity | apply insert_index_In; auto].
      * pose proof (proj2 IH (conj Hin Hk)) as H.
        apply in_map_iff in H. destruct H as (y & <- & Hy).
        exists y. split; [reflexivity | apply insert_index_In; auto].
  - rewrite IH. split; [tauto|].
    intros [[<- | Hin] Hk]; [congruence | tauto].
Qed.

Lemma name_keys_In (o : JsObject) (key : string) :
  In key (name_keys o) <-> In key (map fst o) /\ array_index key = None.
Proof.
  induction o as [|[k v] o IH]; simpl; [tauto|].
  destruct (array_index k) as [n|] eqn:Ek; simpl; rewrite IH.
  - split; [tauto|]. intros [[<- | Hin] Hk]; [congruence | tauto].
  - split; [intros [<- | H]; tauto | tauto].
Qed.

(** [Object.keys] lists the own properties, each of them. *)
Lemma Object_keys_In (o : JsObject) (key : string) :
  In key (Object_keys o) <-> In key (map fst o).
Proof.
  unfold Object_keys. rewrite in_app_iff, index_keys_In, name_keys_In.
  destruct (array_index key) as [n|]; split; intros H; try tauto.
  left. split; [exact H | discriminate].
Qed.

Lemma containsKey_has_own (o : JsObject) (key : string) :
  containsKey o key
  = if has_own o "containsKey" then inl TypeError else inr (has_own o key).
Proof.
  unfold containsKey. unfold has_own at 1.
  destruct (get_prop o "containsKey"); [reflexivity|]. f_equal.
  fold (contains (Object_keys o) key).
  destruct (has_own o key) eqn:H.
  - apply contains_In, Object_keys_In, get_prop_In, H.
  - destruct (contains (Object_keys o) key) eqn:C; [|reflexivity].
    apply contains_In, Object_keys_In, get_prop_In in C. congruence.
Qed.

(** [containsKey] answers whether the key is an own property of the
    object, whatever the order in which [Object.keys] lists the
    properties; on an object that has an own property named
    ["containsKey"] the call throws a [TypeError] instead. *)
Theorem containsKey_own_property (o : JsObject) (key : string) :
  containsKey o key
  = if has_own o "containsKey" then inl TypeError else inr (has_own o key).
Proof.
  unfold containsKey. unfold has_own at 1.
  destruct (get_prop o "containsKey") as [v|]; [reflexivity|]. f_equal.
  fold (contains (Object_keys o) key).
  destruct (has_own o key) eqn:H.
  - apply contains_In, Object_keys_In, get_prop_In, H.
  - destruct (contains (Object_keys o) key) eqn:C; [|reflexivity].
    apply contains_In, Object_keys_In, get_prop_In in C. congruence.
Qed.

(** ** Which validation message is thrown *)

Lemma verify_element_lacks_parent (r : Child) :
  lacks_parent r -> verify_element r = Some Child_does_not_have_a_parent.
Proof. unfold lacks_parent, verify_element. now intros ->. Qed.

Lemma verify_element_bad_color (r : Child) :
  ~ lacks_parent r -> bad_color r ->
  verify_element r = Some Child_color_is_unsupported.
Proof.
  unfold lacks_parent, bad_color, verify_element. intros Hp Hc.
  destruct (parent r); [|congruence].
  apply out_of_iff in Hc. now rewrite Hc.
Qed.

Lemma verify_element_bad_parentColor (r : Child) :
  ~ lacks_parent r -> ~ bad_color r -> bad_parentColor r ->
  verify_element r = Some Parent_color_is_unsupported.
Proof.
  unfold lacks_parent, bad_color, bad_parentColor, verify_element.
  intros Hp Hc Hpc. destruct (parent r); [|congruence].
  apply out_of_false_iff in Hc. apply out_of_iff in Hpc. now rewrite Hc, Hpc.
Qed.

Lemma verifyJson_decided_by (l1 l2 : list Child) (r : Child) (e : Exn) :
  (forall x, In x l1 -> verify_element x = None) ->
  verify_element r = Some e ->
  verifyJson (Some (l1 ++ r :: l2)) = inl e.
Proof.
  intros H1 Hr. pose proof (verify_each_first l1 l2 r e H1 Hr) as E.
  destruct l1 as [|x l1]; simpl app in *; rewrite verifyJson_cons; now rewrite E.
Qed.

(** The message comes from the first record, in array order, that fails
    a check, and within that record the parent is looked at before the
    color and the color before the parentColor, whatever the records
    after it are like. *)
Theorem verifyJson_first_failing_record (l1 l2 : list Child) (r : Child) :
  (forall x, In x l1 -> ~ lacks_parent x /\ ~ bad_color x /\ ~ bad_parentColor x) ->
  (lacks_parent r ->
   verifyJson (Some (l1 ++ r :: l2)) = inl Child_does_not_have_a_parent)
  /\ (~ lacks_parent r -> bad_color r ->
      verifyJson (Some (l1 ++ r :: l2)) = inl Child_color_is_unsupported)
  /\ (~ lacks_parent r -> ~ bad_color r -> bad_parentColor r ->
      verifyJson (Some (l1 ++ r :: l2)) = inl Parent_color_is_unsupported).
Proof.
  intros H1.
  assert (H1' : forall x, In x l1 -> verify_element x = None)
    by (intros x Hx; apply verify_element_None; auto).
  repeat split; intros; apply verifyJson_decided_by; auto.
  - now apply verify_element_lacks_parent.
  - now apply verify_element_bad_color.
  - now apply verify_element_bad_parentColor.
Qed.

Lemma verifyJson_first_failing_record_sample :
  (forall x, In x [child "A" 0 0 []] ->
     ~ lacks_parent x /\ ~ bad_color x /\ ~ bad_parentColor x)
  /\ verifyJson (Some ([child "A" 0 0 []] ++ child "B" 7 9 []
                       :: [mkChild None None None None None []]))
     = inl Child_color_is_unsupported.
Proof.
  assert (H : forall x, In x [child "A" 0 0 []] ->
     ~ lacks_parent x /\ ~ bad_color x /\ ~ bad_parentColor x).
  { intros x [<- | []]. apply verify_element_None. reflexivity. }
  split; [exact H|].
  apply (verifyJson_first_failing_record [child "A" 0 0 []]
           [mkChild None None None None None []] (child "B" 7 9 []) H).
  - discriminate.
  - right. exists 7. split; [reflexivity | lia].
Defined.

(** ** The comparison function of the sort *)

Lemma js_lt_neq (a b : option string) : js_lt a b = true -> a <> b.
Proof.
  destruct a as [x|], b as [y|]; simpl; try discriminate.
  unfold String.ltb. intros H [= ->].
  assert (E : String.compare y y = Eq) by now apply String_as_OT.cmp_eq.
  now rewrite E in H.
Qed.

(** On parent strings the comparison function is a consistent order: it
    returns -1, 0 or 1, returns 0 for equal strings only, changes sign
    when its arguments are exchanged, and is transitive.  A record
    without a parent compares equal to every record. *)
Theorem compare_parent_consistent (x y z : string) :
  (compare_parent (Some x) (Some y) = -1
   \/ compare_parent (Some x) (Some y) = 0
   \/ compare_parent (Some x) (Some y) = 1)
  /\ (compare_parent (Some x) (Some y) = 0 <-> x = y)
  /\ compare_parent (Some y) (Some x) = - compare_parent (Some x) (Some y)
  /\ (compare_parent (Some x) (Some y) <= 0 ->
      compare_parent (Some y) (Some z) <= 0 ->
      compare_parent (Some x) (Some z) <= 0)
  /\ compare_parent None (Some x) = 0
  /\ compare_parent (Some x) None = 0.
Proof.
  split; [|split; [|split; [|split; [|split; reflexivity]]]].
  - unfold compare_parent.
    destruct (js_lt (Some x) (Some y)), (js_lt (Some y) (Some x)); auto.
  - unfold compare_parent, js_lt, String.ltb.
    rewrite (String.compare_antisym y x).
    destruct (String.compare x y) eqn:E; simpl; split; intros H; try lia; auto.
    + now apply String.compare_eq_iff.
    + subst y. assert (E' : String.compare x x = Eq) by now apply String_as_OT.cmp_eq.
      congruence.
    + subst y. assert (E' : String.compare x x = Eq) by now apply String_as_OT.cmp_eq.
      congruence.
  - unfold compare_parent, js_lt, String.ltb.
    rewrite (String.compare_antisym y x).
    destruct (String.compare x y); reflexivity.
  - intros Hxy Hyz. apply le_compare_parent.
    apply compare_parent_le in Hxy, Hyz.
    eapply string_leb_trans; eassumption.
Qed.

Lemma sort_insert_filter (p : option string) (x : Child) (l : list Child) :
  filter (fun r => option_string_eqb (parent r) p) (sort_insert by_parent x l)
  = filter (fun r => option_string_eqb (parent r) p) (x :: l).
Proof.
  induction l as [|y l IH]; [reflexivity|].
  cbn [sort_insert].
  destruct (Z.leb_spec (by_parent x y) 0) as [H | H]; [reflexivity|].
  assert (Hne : parent y <> parent x).
  { apply js_lt_neq. unfold by_parent, compare_parent in H.
    destruct (js_lt (parent x) (parent y)); [lia|].
    destruct (js_lt (parent y) (parent x)); [reflexivity | lia]. }
  cbn [filter] in *. rewrite IH.
  destruct (option_string_eqb_spec (parent x) p) as [Ex | Ex];
    destruct (option_string_eqb_spec (parent y) p) as [Ey | Ey];
    try reflexivity.
  congruence.
Qed.

(** The records of one parent stand in the sorted array in the order in
    which the input array lists them (the sort being stable). *)
Theorem sort_by_parent_stable (p : option string) (json : list Child) :
  filter (fun r => option_string_eqb (parent r) p) (sort by_parent json)
  = filter (fun r => option_string_eqb (parent r) p) json.
Proof.
  induction json as [|x json IH]; [reflexivity|].
  cbn [sort]. rewrite sort_insert_filter. cbn [filter]. now rewrite IH.
Qed.

(** ** setTooltipPlacement *)

Lemma setTooltipPlacement_tip (position : string) (g : Graph) (d : string) :
  tip g = Some d -> In d allowedDirections ->
  exists g', setTooltipPlacement position g = inr g'
    /\ config g' = config g
    /\ (exists d', tip g' = Some d' /\ In d' allowedDirections)
    /\ (contains allowedDirections position = true -> tip g' = Some position)
    /\ (contains allowedDirections position = false -> g' = g).
Proof.
  intros Ht Hd. unfold setTooltipPlacement. rewrite Ht.
  destruct (contains allowedDirections position) eqn:C.
  - eexists. split; [reflexivity|]. cbn [config tip].
    repeat split; try discriminate.
    exists position. split; [reflexivity | now apply contains_In].
  - exists g. repeat split; try discriminate. exists d. auto.
Qed.

(** However a page calls [showTooltipKeys] and [setTooltipPlacement] on
    a graph it has constructed, no call throws, the tooltip stays in
    place with one of the eight directions, and the block size, the
    child limit and the tooltip switch of the configuration stay as the
    constructor set them. *)
Theorem tooltip_calls_keep_graph_sound (calls : list Call)
    (st : option bool) (mc : option Z) :
  exists g, run_calls calls (RelationshipGraph st mc) = inr g
    /\ (exists d, tip g = Some d /\ In d allowedDirections)
    /\ blockSize (config g) = 24
    /\ maxChildCount (config g) = or_num mc 0
    /\ showTooltips (config g) = true.
Proof.
  assert (G : forall g0 : Graph,
             (exists d, tip g0 = Some d /\ In d allowedDirections) ->
             exists g, run_calls calls g0 = inr g
               /\ (exists d, tip g = Some d /\ In d allowedDirections)
               /\ blockSize (config g) = blockSize (config g0)
               /\ maxChildCount (config g) = maxChildCount (config g0)
               /\ showTooltips (config g) = showTooltips (config g0)).
  { induction calls as [|[sk | position] calls IH]; intros g0 Hg0.
    - exists g0. auto.
    - cbn [run_calls]. destruct (IH (showTooltipKeys sk g0) Hg0)
        as (g & E & Ht & Hb & Hm & Hs).
      exists g. auto.
    - cbn [run_calls]. destruct Hg0 as (d & Hd & Hin).
      destruct (setTooltipPlacement_tip position g0 d Hd Hin)
        as (g1 & E1 & Hc & Ht1 & _).
      rewrite E1. destruct (IH g1 Ht1) as (g & E & Ht & Hb & Hm & Hs).
      exists g. rewrite Hc in Hb, Hm, Hs. auto. }
  destruct (G (RelationshipGraph st mc)) as (g & E & Ht & Hb & Hm & Hs).
  - exists "w". split; [cbn; now rewrite or_bool_true | cbn; tauto].
  - exists g. cbn in Hb, Hm, Hs. rewrite or_bool_true in Hs. auto.
Qed.

(** A direction outside the eight is ignored, one of the eight replaces
    the direction. *)
Theorem setTooltipPlacement_constructed (position : string)
    (st : option bool) (mc : option Z) :
  let g := RelationshipGraph st mc in
  setTooltipPlacement position g
  = inr (if contains allowedDirections position
         then {| config := config g; tip := Some position |}
         else g).
Proof.
  cbv zeta. unfold setTooltipPlacement.
  assert (E : tip (RelationshipGraph st mc) = Some "w")
    by (cbn; now rewrite or_bool_true).
  rewrite E. now destruct (contains allowedDirections position).
Qed.

(** ** Objects the array refers to more than once *)

Lemma set_row_index_unplaced (x y : Child) (r i : Z) :
  unplaced x = unplaced y -> set_row_index x r i = set_row_index y r i.
Proof.
  intros H. unfold set_row_index. unfold unplaced in H.
  injection H as Hp Hc Hpc Hf. now rewrite Hp, Hc, Hpc, Hf.
Qed.

(** The pass reads the parent of its elements and overwrites their row
    and index: what they held in those two fields before is of no
    consequence. *)
Lemma assign_from_ext (cmc : Z) (la lb : list Child) (c : Cursor) :
  map unplaced la = map unplaced lb ->
  assign_from cmc c la = assign_from cmc c lb.
Proof.
  revert lb c; induction la as [|x la IH]; intros [|y lb] c H;
    try discriminate; [reflexivity|].
  cbn [map] in H.
  assert (Hxy : unplaced x = unplaced y) by congruence.
  assert (Hl : map unplaced la = map unplaced lb) by congruence.
  rewrite !assign_from_cons. cbv zeta.
  assert (Hp : parent x = parent y) by exact (f_equal parent Hxy).
  rewrite Hp, (set_row_index_unplaced x y _ _ Hxy). f_equal. now apply IH.
Qed.

Lemma unplaced_assign_element (cmc : Z) (c : Cursor) (x : Child) :
  unplaced (snd (assign_element cmc c x)) = unplaced x.
Proof.
  unfold assign_element. destruct (place cmc c (parent x)) as [c' [r i]].
  reflexivity.
Qed.

Lemma assign_heap_last (cmc : Z) (l1 : list loc) (l : loc) (l2 : list loc)
    (c : Cursor) (h : loc -> Child) :
  ~ In l l2 ->
  nth_error (assign_from cmc c (map h (l1 ++ l :: l2))) (List.length l1)
  = Some (assign_heap cmc c (l1 ++ l :: l2) h l).
Proof.
  intros Hl. revert c h; induction l1 as [|x l1 IH]; intros c h.
  - cbn [app List.length]. rewrite assign_heap_cons.
    rewrite assign_heap_frame by assumption. rewrite upd_same.
    cbn [map assign_from]. destruct (assign_element cmc c (h l)) as [c' e'].
    reflexivity.
  - cbn [app List.length]. rewrite assign_heap_cons.
    rewrite <- IH. cbn [map assign_from].
    destruct (assign_element cmc c (h x)) as [c' e'] eqn:E. cbn [nth_error fst snd].
    f_equal. apply assign_from_ext. rewrite !map_map. apply map_ext.
    intros l'. unfold upd. destruct (Nat.eqb l' x) eqn:El; [|reflexivity].
    apply Nat.eqb_eq in El. subst l'.
    pose proof (unplaced_assign_element cmc c (h x)) as U.
    rewrite E in U. symmetry. exact U.
Qed.

(** After the sort and the pass, an object holds the record laid out at
    the last position of the array that refers to it: when the array
    refers to an object more than once, the cells written at its earlier
    positions are overwritten. *)
Theorem shared_object_holds_last_cell (cmc : Z) (a : loc) (s : Store)
    (l1 : list loc) (l : loc) (l2 : list loc) :
  arrays (layout_store cmc a s) a = l1 ++ l :: l2 ->
  ~ In l l2 ->
  nth_error (layout cmc (view s a)) (List.length l1)
  = Some (heap (layout_store cmc a s) l).
Proof.
  intros E Hl. unfold layout. rewrite <- view_sort_store.
  unfold layout_store, assign_store in *. cbn [heap arrays] in *.
  unfold view. rewrite E. now apply assign_heap_last.
Qed.

Lemma shared_object_holds_last_cell_sample :
  arrays (layout_store 2 0%nat shared_store) 0%nat = [1%nat; 0%nat] ++ 0%nat :: []
  /\ ~ In 0%nat []
  /\ nth_error (layout 2 (view shared_store 0%nat)) 2
     = Some (heap (layout_store 2 0%nat shared_store) 0%nat).
Proof.
  split; [reflexivity|]. split; [intros []|].
  apply (shared_object_holds_last_cell 2 0%nat shared_store
           [1%nat; 0%nat] 0%nat []); [reflexivity | intros []].
Defined.

(** ** What generate does to the store, by outcome *)

Lemma verify_each_not_TypeError (l : list Child) :
  verify_each l <> Some TypeError.
Proof.
  intros H. destruct (verify_each_Some _ _ H) as (l1 & r & l2 & _ & _ & Hr).
  destruct (verify_element_Some _ _ Hr) as [[E _] | [[E _] | [E _]]]; discriminate.
Qed.

Lemma verifyJson_outcomes (json : option (list Child)) :
  verifyJson json <> inr false /\ verifyJson json <> inl TypeError.
Proof.
  destruct json as [[|x l]|]; cbn; try (split; discriminate).
  change (match verify_each (x :: l) with Some e => inl e | None => inr true end
          <> inr false /\
          match verify_each (x :: l) with Some e => inl e | None => inr true end
          <> inl TypeError).
  pose proof (verify_each_not_TypeError (x :: l)) as H.
  destruct (verify_each (x :: l)) as [e|]; split; try discriminate.
  intros [= ->]. now apply H.
Qed.

Lemma group_element_throws (st : list string * JsObject) (x : Child) (e : Exn) :
  group_element st x = inl e -> e = TypeError.
Proof.
  destruct st as [parents sizes]. unfold group_element, containsKey.
  destruct (parent x) as [p|]; [|now intros [= <-]].
  destruct (get_prop sizes "containsKey"); [now intros [= <-]|].
  destruct (indexOf (Object_keys sizes) p >? -1); discriminate.
Qed.

Lemma group_from_throws (json : list Child) (st : list string * JsObject)
    (e : Exn) :
  group_from st json = inl e -> e = TypeError.
Proof.
  revert st; induction json as [|x json IH]; intros st; cbn [group_from];
    [discriminate|].
  destruct (group_element st x) as [e' | st'] eqn:E.
  - intros [= <-]. eapply group_element_throws; eassumption.
  - apply IH.
Qed.

Lemma sort_store_frame (a : loc) (s : Store) :
  (forall b, Permutation (arrays (sort_store a s) b) (arrays s b))
  /\ heap (sort_store a s) = heap s.
Proof.
  split; [|reflexivity]. intros b. unfold sort_store. cbn [arrays].
  destruct (Nat.eq_dec b a) as [-> | Hb].
  - rewrite upd_same. apply sort_perm.
  - now rewrite upd_other.
Qed.

Lemma layout_store_frame (cmc : Z) (a : loc) (s : Store) :
  (forall b, Permutation (arrays (layout_store cmc a s) b) (arrays s b))
  /\ (forall l, unplaced (heap (layout_store cmc a s) l) = unplaced (heap s l)).
Proof.
  split.
  - intros b. apply (proj1 (sort_store_frame a s) b).
  - intros l. unfold layout_store, assign_store. cbn [heap].
    apply (assign_heap_unplaced cmc _ cursor0 (heap (sort_store a s)) l).
Qed.

(** [generate] either returns after drawing or throws.  Whatever the
    outcome, every array holds the references it held before and no
    object has changed in anything but row and index.  When a validation
    message is thrown the store is exactly as it was; when a [TypeError]
    is thrown the array has been sorted and no object has been written
    to; when [generate] returns the store is the one the sort and the
    assignment pass leave. *)
Theorem generate_store_by_outcome (g : Graph) (cw w : Z) (json : option loc)
    (s : Store) :
  let out := generate g cw w json s in
  (forall b, Permutation (arrays (snd out) b) (arrays s b))
  /\ (forall l, unplaced (heap (snd out) l) = unplaced (heap s l))
  /\ match fst out with
     | inl TypeError => exists a, json = Some a /\ snd out = sort_store a s
     | inl _ => snd out = s
     | inr None => False
     | inr (Some _) =>
         exists a, json = Some a
           /\ snd out = layout_store (calculatedMaxChildren (config g) cw) a s
     end.
Proof.
  cbv zeta. unfold generate.
  destruct (verifyJson_outcomes (option_map (view s) json)) as [Hf Ht].
  destruct (verifyJson (option_map (view s) json)) as [e | [|]] eqn:V;
    [| |congruence].
  - cbn [fst snd]. repeat split; auto.
    destruct e; try reflexivity. congruence.
  - destruct json as [a|]; [|discriminate V].
    destruct (group (view (sort_store a s) a)) as [e | [parents sizes]] eqn:G;
      cbn [fst snd].
    + apply group_from_throws in G. subst e.
      split; [apply sort_store_frame|]. split; [reflexivity | eauto].
    + fold (layout_store (calculatedMaxChildren (config g) cw) a s).
      split; [apply layout_store_frame|].
      split; [apply layout_store_frame | eauto].
Qed.

(** [generate] returns, with the array sorted and the objects annotated,
    whenever the array passes the validation and no parent is named
    ["containsKey"]. *)
Theorem generate_draws_valid_array (g : Graph) (cw w : Z) (a : loc) (s : Store) :
  valid (view s a) ->
  (forall r, In r (view s a) -> parent r <> Some "containsKey") ->
  exists d, generate g cw w (Some a) s
            = (inr (Some d), layout_store (calculatedMaxChildren (config g) cw) a s).
Proof.
  intros Hv Hn. destruct (generate_returns g cw w a s Hv Hn) as [d Hd].
  exists d. destruct (generate_returns_inv _ _ _ _ _ _ Hd) as [_ E].
  rewrite <- E, <- Hd. now destruct (generate g cw w (Some a) s).
Qed.

Lemma generate_draws_valid_array_sample :
  valid (view sample_store 0%nat)
  /\ exists d, generate sample_graph 500 40 (Some 0%nat) sample_store
               = (inr (Some d), layout_store 2 0%nat sample_store).
Proof.
  split; [reflexivity|].
  apply (generate_draws_valid_array sample_graph 500 40 0%nat sample_store).
  - reflexivity.
  - intros r [<- | [<- | [<- | []]]]; discriminate.
Defined.

(** *** A parent named after the inherited method *)

Lemma has_own_create (o : JsObject) (key : string) :
  key <> "__proto__" -> has_own (create_prop o key) key = true.
Proof.
  intros Hk. unfold create_prop. apply String.eqb_neq in Hk. rewrite Hk.
  apply get_prop_In. rewrite map_app. apply in_or_app. right. now left.
Qed.

Lemma group_from_shadowed (json : list Child) (st : list string * JsObject) :
  json <> [] -> Forall has_parent json ->
  has_own (snd st) "containsKey" = true ->
  group_from st json = inl TypeError.
Proof.
  destruct json as [|x json]; [congruence|]. intros _ Hp Hs.
  inversion_clear Hp as [|? ? [p Hx] _]. destruct st as [parents sizes].
  cbn [group_from group_element]. rewrite Hx, containsKey_has_own.
  cbn [snd] in Hs. now rewrite Hs.
Qed.

Lemma group_from_cons (st : list string * JsObject) (x : Child)
    (json : list Child) :
  group_from st (x :: json)
  = match group_element st x with
    | inl e => inl e
    | inr st' => group_from st' json
    end.
Proof. reflexivity. Qed.

Lemma group_from_named_containsKey (l1 : list Child) (r x : Child)
    (l2 : list Child) (st : list string * JsObject) :
  Forall has_parent (l1 ++ r :: x :: l2) ->
  parent r = Some "containsKey" ->
  group_from st (l1 ++ r :: x :: l2) = inl TypeError.
Proof.
  intros Hp Hr. revert st; induction l1 as [|y l1 IH]; intros st.
  - cbn [app] in *. inversion_clear Hp as [|? ? _ Hrest].
    rewrite group_from_cons. destruct (group_element st r) as [e | st'] eqn:E.
    + f_equal. eapply group_element_throws; eassumption.
    + apply group_from_shadowed; [discriminate | assumption|].
      destruct st as [parents sizes]. unfold group_element in E.
      rewrite Hr, containsKey_has_own in E.
      destruct (has_own sizes "containsKey") eqn:Hs; [discriminate|].
      injection E as <-. cbn [snd].
      apply has_own_create. discriminate.
  - cbn [app] in *. inversion_clear Hp as [|? ? _ Hrest].
    rewrite group_from_cons. destruct (group_element st y) as [e | st'] eqn:E.
    + f_equal. eapply group_element_throws; eassumption.
    + now apply IH.
Qed.

(** When the array is valid and a record whose parent is named
    ["containsKey"] is not the last of the sorted array, [generate]
    throws a [TypeError]: the array is left sorted, and no object has been
    given a row or an index. *)
Theorem generate_parent_named_containsKey (g : Graph) (cw w : Z) (a : loc)
    (s : Store) (l1 : list Child) (r x : Child) (l2 : list Child) :
  valid (view s a) ->
  sort by_parent (view s a) = l1 ++ r :: x :: l2 ->
  parent r = Some "containsKey" ->
  generate g cw w (Some a) s = (inl TypeError, sort_store a s).
Proof.
  intros Hv Hs Hr. unfold generate. cbn [option_map].
  unfold valid in Hv. rewrite Hv. rewrite view_sort_store, Hs.
  unfold group. rewrite group_from_named_containsKey; [reflexivity | | exact Hr].
  rewrite <- Hs. apply Forall_forall. intros y Hy.
  apply (valid_parent (view s a)); [exact Hv|].
  eapply Permutation_in; [apply sort_by_parent_perm | exact Hy].
Qed.

Lemma generate_parent_named_containsKey_sample :
  valid (view hazard_store 0%nat)
  /\ generate sample_graph 500 40 (Some 0%nat) hazard_store
     = (inl TypeError, sort_store 0%nat hazard_store).
Proof.
  split; [reflexivity|].
  apply (generate_parent_named_containsKey sample_graph 500 40 0%nat
           hazard_store [] (child "containsKey" 0 0 [])
           (child "containsKey" 0 0 []) []); reflexivity.
Defined.

(** ** The size of the svg group *)

Lemma generate_returns_drawing (g : Graph) (cw w : Z) (a : loc) (s : Store)
    (d : Drawing) :
  fst (generate g cw w (Some a) s) = inr (Some d) ->
  exists parents parentSizes,
    group (sort by_parent (view s a)) = inr (parents, parentSizes)
    /\ d = draw (calculatedMaxChildren (config g) cw) (blockSize (config g)) w
             parents parentSizes
             (view (layout_store (calculatedMaxChildren (config g) cw) a s) a).
Proof.
  unfold generate. cbn [option_map].
  destruct (verifyJson (Some (view s a))) as [e | [|]]; cbn [fst];
    try discriminate.
  rewrite view_sort_store.
  destruct (group (sort by_parent (view s a))) as [e | [parents sizes]];
    cbn [fst]; [discriminate|].
  intros [= <-]. exists parents, sizes. split; reflexivity.
Qed.

Lemma bump_fold_ge (bs : Z) (vs : list (option Z)) (m : Z) :
  0 <= m -> m <= fold_left (bump bs) vs m.
Proof.
  revert m; induction vs as [|v vs IH]; intros m Hm; simpl; [lia|].
  assert (H : m <= bump bs m v).
  { unfold bump. destruct v as [c|]; [|lia].
    destruct (Z.gtb_spec (c + bs) m); lia. }
  specialize (IH (bump bs m v)). lia.
Qed.

Lemma bump_fold_covers (bs : Z) (vs : list (option Z)) (m c : Z) :
  0 <= m -> In (Some c) vs -> c + bs <= fold_left (bump bs) vs m.
Proof.
  revert m; induction vs as [|v vs IH]; intros m Hm Hin; [contradiction|].
  simpl. assert (H : 0 <= m <= bump bs m v).
  { unfold bump. destruct v as [c'|]; [|lia].
    destruct (Z.gtb_spec (c' + bs) m); lia. }
  destruct Hin as [-> | Hin].
  - pose proof (bump_fold_ge bs vs (bump bs m (Some c))) as G.
    assert (c + bs <= bump bs m (Some c)).
    { unfold bump. destruct (Z.gtb_spec (c + bs) m); lia. }
    lia.
  - apply IH; [lia | exact Hin].
Qed.

Lemma label_y_covers (cmc bs : Z) (sizes : JsObject) (mh : Z) (i : nat) :
  0 <= mh ->
  mh <= snd (label_y cmc bs sizes mh i)
  /\ forall c, fst (label_y cmc bs sizes mh i) = Some c ->
       c <= snd (label_y cmc bs sizes mh i).
Proof.
  intros Hmh. unfold label_y. destruct i as [|i].
  - cbn [fst snd]. split; [lia | intros c [= <-]; lia].
  - cbv zeta. destruct (sum_down cmc sizes (Some 0) (S i)) as [p|];
      [destruct (cmc =? 0)|]; cbn [fst snd];
      try (split; [lia | discriminate]).
    destruct (Z.gtb_spec (ceil_div p cmc * bs) mh);
      (split; [lia | intros c [= <-]; lia]).
Qed.

Lemma labels_from_covers (cmc bs : Z) (sizes : JsObject) (n : nat) (mh : Z)
    (i : nat) :
  0 <= mh ->
  mh <= snd (labels_from cmc bs sizes mh i n)
  /\ forall c, In (Some c) (fst (labels_from cmc bs sizes mh i n)) ->
       c <= snd (labels_from cmc bs sizes mh i n).
Proof.
  revert mh i; induction n as [|n IH]; intros mh i Hmh; cbn [labels_from].
  - cbn. split; [lia | intros c []].
  - destruct (label_y_covers cmc bs sizes mh i Hmh) as [Hle Hy].
    destruct (label_y cmc bs sizes mh i) as [y mh1].
    cbn [fst snd] in Hle, Hy.
    destruct (IH mh1 (S i)) as [IH1 IH2]; [lia|].
    destruct (labels_from cmc bs sizes mh1 (S i) n) as [ys mh'].
    cbn [fst snd] in *. split; [lia|].
    intros c [-> | Hin]; [specialize (Hy c eq_refl); lia | now apply IH2].
Qed.

(** The svg group is at least as large as what is drawn into it: it
    reaches 15 pixels past the right edge of every block, the lower edge
    of every block and the position of every label. *)
Theorem generate_canvas_covers_drawing (g : Graph) (cw w : Z) (a : loc)
    (s : Store) (d : Drawing) :
  fst (generate g cw w (Some a) s) = inr (Some d) ->
  (forall x, In (Some x) (block_xs d) ->
     x + blockSize (config g) + 15 <= svg_width d)
  /\ (forall y, In (Some y) (block_ys d) ->
        y + blockSize (config g) + 15 <= svg_height d)
  /\ (forall y, In (Some y) (label_ys d) -> y + 15 <= svg_height d)
  /\ 15 <= svg_width d /\ 15 <= svg_height d.
Proof.
  intros H. destruct (generate_returns_drawing _ _ _ _ _ _ H)
    as (parents & sizes & _ & ->).
  set (cmc := calculatedMaxChildren (config g) cw).
  set (bs := blockSize (config g)).
  set (json := view (layout_store cmc a s) a).
  unfold draw.
  destruct (labels_from_covers cmc bs sizes (List.length parents) 0 0 (Z.le_refl 0))
    as [L1 L2].
  destruct (labels_from cmc bs sizes 0 0 (List.length parents)) as [lys mh].
  cbn [fst snd block_xs block_ys label_ys svg_width svg_height] in *.
  pose proof (bump_fold_ge bs (map (block_y bs) json) mh L1) as G.
  repeat split.
  - intros x Hx. pose proof (bump_fold_covers bs _ 0 x (Z.le_refl 0) Hx). lia.
  - intros y Hy. pose proof (bump_fold_covers bs _ mh y L1 Hy). lia.
  - intros y Hy. specialize (L2 y Hy). lia.
  - pose proof (bump_fold_ge bs (map (block_x w bs) json) 0 (Z.le_refl 0)). lia.
  - lia.
Qed.

Lemma generate_canvas_covers_drawing_sample :
  fst (generate sample_graph 500 40 (Some 0%nat) sample_store)
    = inr (Some sample_drawing)
  /\ 15 <= svg_width sample_drawing /\ 15 <= svg_height sample_drawing.
Proof.
  split; [reflexivity|].
  apply (generate_canvas_covers_drawing sample_graph 500 40 0%nat sample_store
           sample_drawing).
  reflexivity.
Defined.

(** ** The number of columns *)

(** A child limit other than zero is used as it is given.  With the
    limit omitted or zero the graph derives it from the width of the
    container: at least one column results exactly when the container is
    99 pixels wide or more, and exactly zero columns between 75 and 98
    pixels. *)
Theorem calculatedMaxChildren_constructed (st : option bool) (mc : option Z)
    (cw : Z) :
  let cmc := calculatedMaxChildren (config (RelationshipGraph st mc)) cw in
  (or_num mc 0 <> 0 -> cmc = or_num mc 0)
  /\ (or_num mc 0 = 0 ->
      cmc = (cw - 75) / 24
      /\ (1 <= cmc <-> 99 <= cw)
      /\ (cmc = 0 <-> 75 <= cw <= 98)).
Proof.
  cbv zeta. unfold calculatedMaxChildren. cbn [config RelationshipGraph
    maxChildCount blockSize].
  destruct (Z.eqb_spec (or_num mc 0) 0) as [E | E]; split; try tauto.
  intros _. split; [reflexivity|].
  pose proof (Z.div_mod (cw - 75) 24 ltac:(lia)) as D.
  pose proof (Z.mod_pos_bound (cw - 75) 24 ltac:(lia)) as M.
  split; split; intros H; lia.
Qed.

(** ** Rows and indices *)

Lemma layout_head (cmc : Z) (json : list Child) :
  json <> [] ->
  exists x rest, layout cmc json = x :: rest
    /\ annotated x /\ indexZ x = 1 /\ rowZ x = if cmc =? 0 then 2 else 1.
Proof.
  intros Hne. unfold layout.
  destruct (sort by_parent json) as [|y l] eqn:E.
  - exfalso. apply Hne. apply Permutation_nil. rewrite <- E.
    apply sort_by_parent_perm.
  - rewrite assign_from_cons. cbv zeta. eexists. eexists.
    split; [reflexivity|]. rewrite place_cursor0.
    split; [split; reflexivity|].
    destruct (cmc =? 0); split; reflexivity.
Qed.

Lemma chain_index_pos (cmc : Z) (l : list Child) (r : Child) :
  Sorted (follows cmc) (r :: l) -> 1 <= indexZ r ->
  forall x, In x l -> 1 <= indexZ x.
Proof.
  revert r; induction l as [|y l IH]; intros r HS Hr x Hx; [contradiction|].
  apply chain_head in HS. destruct HS as [Hf HS].
  assert (Hy : 1 <= indexZ y) by (destruct Hf as [_ [H | [H | H]]]; lia).
  destruct Hx as [<- | Hx]; [exact Hy | eapply IH; eassumption].
Qed.

Lemma layout_index_pos (cmc : Z) (json : list Child) (x : Child) :
  In x (layout cmc json) -> 1 <= indexZ x.
Proof.
  intros Hx. destruct json as [|j json]; [contradiction|].
  destruct (layout_head cmc (j :: json)) as (x0 & rest & E & _ & Hi & _);
    [discriminate|].
  pose proof (layout_chain cmc (j :: json)) as HS. rewrite E in HS, Hx.
  destruct Hx as [<- | Hx]; [lia|].
  eapply chain_index_pos; [exact HS | lia | exact Hx].
Qed.

(** Position by position: the first position is given row 1 and index
    1, and the rows in use have no gap. *)
Lemma layout_rows_without_gaps (cmc : Z) (json : list Child) :
  1 <= cmc -> json <> [] ->
  (exists x rest, layout cmc json = x :: rest
                  /\ row x = Some 1 /\ index x = Some 1)
  /\ (forall x v k, In x (layout cmc json) -> row x = Some v ->
        1 <= k <= v -> exists z, In z (layout cmc json) /\ row z = Some k).
Proof.
  intros Hc Hne.
  destruct (layout_head cmc json Hne) as (x0 & rest & E & [Ar Ai] & Hi & Hr).
  destruct (Z.eqb_spec cmc 0) as [|_]; [lia|].
  split.
  - exists x0, rest. split; [exact E|]. now rewrite Ar, Ai, Hr, Hi.
  - intros x v k Hx Hv Hk.
    pose proof (layout_chain cmc json) as HS.
    destruct (layout_annotated _ _ _ Hx) as [Ax _].
    assert (v = rowZ x) by congruence. subst v.
    assert (Hz : exists z, In z (layout cmc json) /\ rowZ z = k).
    { rewrite E in HS, Hx |- *. destruct Hx as [<- | Hx].
      - exists x0. split; [now left | lia].
      - destruct (in_split _ _ Hx) as (m & l3 & ->).
        destruct (chain_rows_onto cmc m x0 x l3 k HS) as (z & Hz & Hzk); [lia|].
        exists z. split; [|exact Hzk].
        destruct Hz as [<- | Hz]; [now left | right].
        apply in_app_or in Hz. apply in_or_app.
        destruct Hz as [Hz | [<- | []]]; [now left | right; now left]. }
    destruct Hz as (z & Hz & Hzk). exists z. split; [exact Hz|].
    destruct (layout_annotated _ _ _ Hz) as [Az _]. now rewrite Az, Hzk.
Qed.

(** ** Without columns *)

Lemma chain_no_wrap (cmc : Z) (m : list Child) (r1 r2 : Child) (l3 : list Child) :
  cmc <= 0 ->
  Sorted (follows cmc) (r1 :: m ++ r2 :: l3) ->
  (forall z, In z m -> parent z = parent r1) -> parent r2 = parent r1 ->
  1 <= indexZ r1 -> rowZ r2 = rowZ r1.
Proof.
  intros Hc. revert r1; induction m as [|y m IH]; cbn [app];
    intros r1 HS Hm Hp Hi; apply chain_head in HS; destruct HS as [Hf HS].
  - destruct Hf as [_ [H | [H | H]]]; [|lia|lia].
    destruct H as [H _]. congruence.
  - assert (Hy : parent y = parent r1) by (apply Hm; now left).
    assert (Hs : rowZ y = rowZ r1 /\ 1 <= indexZ y).
    { destruct Hf as [_ [H | [H | H]]]; [|lia|lia].
      destruct H as [H _]. congruence. }
    destruct Hs as [Hr Hiy]. rewrite <- Hr. apply IH; auto.
    + intros z Hz. rewrite Hy. apply Hm. now right.
    + congruence.
Qed.

(** When the number of columns is zero or negative no row is ever
    wrapped: all the records of a parent are in one row, however many
    they are. *)
Theorem no_wrapping_without_columns (cmc : Z) (json : list Child) :
  cmc <= 0 -> valid json ->
  forall x y, In x (layout cmc json) -> In y (layout cmc json) ->
              parent x = parent y -> row x = row y.
Proof.
  intros Hc Hv x y Hx Hy Hp.
  destruct (layout_annotated _ _ _ Hx) as [Ax _].
  destruct (layout_annotated _ _ _ Hy) as [Ay _].
  pose proof (layout_chain cmc json) as HS.
  pose proof (layout_ordered cmc json Hv) as HO.
  pose proof (layout_index_pos cmc json x Hx) as Hix.
  pose proof (layout_index_pos cmc json y Hy) as Hiy.
  rewrite Ax, Ay. f_equal.
  destruct (in_two_split _ _ _ Hx Hy)
    as [-> | [(l1 & m & l3 & D) | (l1 & m & l3 & D)]]; [reflexivity | |];
    rewrite D in HS, HO; apply Sorted_app_r in HS;
    rewrite !map_app in HO; cbn [map] in HO; rewrite map_app in HO;
    cbn [map] in HO.
  - symmetry. apply (chain_no_wrap cmc m x y l3 Hc HS); auto.
    intros z Hz. rewrite <- Hp in HO.
    apply (ordered_group_contiguous _ _ _ _ (parent z) HO). now apply in_map.
  - apply (chain_no_wrap cmc m y x l3 Hc HS); auto.
    intros z Hz. rewrite Hp in HO.
    apply (ordered_group_contiguous _ _ _ _ (parent z) HO). now apply in_map.
Qed.

Lemma no_wrapping_without_columns_sample :
  0 <= 0 /\ valid sample_json
  /\ forall x y, In x (layout 0 sample_json) -> In y (layout 0 sample_json) ->
                 parent x = parent y -> row x = row y.
Proof.
  split; [lia|]. split; [reflexivity|].
  apply (no_wrapping_without_columns 0 sample_json); [lia | reflexivity].
Defined.

Lemma sum_down_nan (cmc : Z) (sizes : JsObject) (i : nat) :
  sum_down cmc sizes None i = None.
Proof. induction i as [|i IH]; [reflexivity | exact IH]. Qed.

Lemma label_y_zero (bs : Z) (sizes : JsObject) (mh : Z) (i : nat) :
  label_y 0 bs sizes mh (S i) = (None, mh).
Proof.
  unfold label_y. cbv zeta. cbn [sum_down].
  assert (E : nan_add (Some 0) (padded 0 (size_at sizes i)) = None)
    by (unfold padded; destruct (size_at sizes i); reflexivity).
  rewrite E, sum_down_nan. reflexivity.
Qed.

Lemma labels_from_zero (bs : Z) (sizes : JsObject) (n : nat) (mh : Z) (i : nat) :
  labels_from 0 bs sizes mh (S i) n = (repeat None n, mh).
Proof.
  revert i; induction n as [|n IH]; intros i; [reflexivity|].
  cbn [labels_from]. now rewrite label_y_zero, IH.
Qed.

Lemma group_from_parents_grow (json : list Child) (st st' : list string * JsObject) :
  group_from st json = inr st' -> exists more, fst st' = fst st ++ more.
Proof.
  revert st; induction json as [|x json IH]; intros st; cbn [group_from].
  - intros [= <-]. exists []. now rewrite app_nil_r.
  - destruct (group_element st x) as [e | st1] eqn:E; [discriminate|].
    intros H. destruct (IH _ H) as [more Hm].
    destruct st as [parents sizes]. unfold group_element in E.
    destruct (parent x) as [p|]; [|discriminate].
    destruct (containsKey sizes p) as [e | [|]]; try discriminate;
      injection E as <-; cbn [fst] in *.
    + now exists more.
    + exists (abbreviate p :: more). now rewrite Hm, <- app_assoc.
Qed.

Lemma group_nonempty (x : Child) (json : list Child) (parents : list string)
    (sizes : JsObject) :
  group (x :: json) = inr (parents, sizes) -> parents <> [].
Proof.
  unfold group. rewrite group_from_cons.
  destruct (group_element ([], []) x) as [e | st1] eqn:E; [discriminate|].
  intros H. destruct (group_from_parents_grow _ _ _ H) as [more Hm].
  cbn [fst] in Hm. unfold group_element in E.
  destruct (parent x) as [p|]; [|discriminate].
  cbn in E. injection E as <-. cbn in Hm. now rewrite Hm.
Qed.

(** When the number of columns comes out as zero, the first label is at
    0 and every other label is given [NaN] as its position. *)
Theorem labels_without_columns (g : Graph) (cw w : Z) (a : loc) (s : Store)
    (d : Drawing) :
  fst (generate g cw w (Some a) s) = inr (Some d) ->
  calculatedMaxChildren (config g) cw = 0 ->
  exists n, label_ys d = Some 0 :: repeat None n.
Proof.
  intros H Hc.
  destruct (generate_returns_drawing _ _ _ _ _ _ H)
    as (parents & sizes & G & ->).
  destruct (generate_returns_inv _ _ _ _ _ _ H) as [Hv _].
  rewrite Hc. unfold draw.
  assert (Hp : parents <> []).
  { destruct (sort by_parent (view s a)) as [|x l] eqn:E.
    - apply valid_iff in Hv. destruct Hv as [Hne _]. exfalso. apply Hne.
      apply Permutation_nil. rewrite <- E. apply sort_by_parent_perm.
    - eapply group_nonempty; eassumption. }
  destruct parents as [|p parents]; [congruence|].
  cbn [List.length labels_from label_y].
  rewrite labels_from_zero. cbn [label_ys].
  exists (List.length parents). reflexivity.
Qed.

Lemma labels_without_columns_sample :
  fst (generate auto_graph 80 40 (Some 0%nat) sample_store)
    = inr (Some narrow_drawing)
  /\ calculatedMaxChildren (config auto_graph) 80 = 0
  /\ exists n, label_ys narrow_drawing = Some 0 :: repeat None n.
Proof.
  split; [reflexivity|]. split; [reflexivity|].
  apply (labels_without_columns auto_graph 80 40 0%nat sample_store narrow_drawing);
    reflexivity.
Defined.

(** ** The groups of the sorted array *)

Lemma runs_head (p : string) (rest : list string) :
  exists n more, runs (p :: rest) = (p, S n) :: more.
Proof.
  cbn [runs]. destruct (runs rest) as [|[q n] more]; [now exists 0%nat, []|].
  destruct (String.eqb_spec p q) as [-> | _]; eauto.
Qed.

Lemma runs_head_inv (ps : list string) (q : string) (n : nat)
    (more : list (string * nat)) :
  runs ps = (q, n) :: more -> exists t, ps = q :: t.
Proof.
  destruct ps as [|p t]; [discriminate|].
  destruct (runs_head p t) as (n' & more' & E). rewrite E.
  intros [= -> _ _]. eauto.
Qed.

Lemma expand_runs (ps : list string) : expand (runs ps) = ps.
Proof.
  induction ps as [|p rest IH]; [reflexivity|].
  cbn [runs]. destruct (runs rest) as [|[q n] more] eqn:E.
  - cbn in IH |- *. now rewrite <- IH.
  - destruct (String.eqb_spec p q) as [-> | _].
    + cbn [expand] in IH |- *. cbn [repeat app]. now rewrite IH.
    + cbn [expand] in IH |- *. cbn [repeat app]. now rewrite IH.
Qed.

Lemma runs_counts_pos (ps : list string) :
  Forall (fun pn => (1 <= snd pn)%nat) (runs ps).
Proof.
  induction ps as [|p rest IH]; [constructor|].
  cbn [runs]. destruct (runs rest) as [|[q n] more].
  - repeat constructor.
  - inversion_clear IH as [|? ? Hq Hmore].
    destruct (String.eqb p q); repeat constructor; cbn [snd] in *; auto; lia.
Qed.

Lemma expand_names_in (rs : list (string * nat)) (p : string) :
  Forall (fun pn => (1 <= snd pn)%nat) rs ->
  In p (map fst rs) -> In p (expand rs).
Proof.
  induction 1 as [|[q n] rs Hn _ IH]; cbn [map fst expand]; [auto|].
  intros [<- | H]; apply in_or_app; [left | right; now apply IH].
  cbn [snd] in Hn. destruct n as [|n]; [lia | now left].
Qed.

Lemma runs_names_in (ps : list string) (p : string) :
  In p (map fst (runs ps)) -> In p ps.
Proof.
  intros H. rewrite <- (expand_runs ps).
  apply expand_names_in; [apply runs_counts_pos | exact H].
Qed.

(** In a list in order, no name begins two runs. *)
Lemma runs_sorted_NoDup (ps : list string) :
  StronglySorted (fun x y => String.leb x y = true) ps ->
  NoDup (map fst (runs ps)).
Proof.
  induction 1 as [|p rest Hrest IH Hp]; [constructor|].
  cbn [runs]. destruct (runs rest) as [|[q n] more] eqn:E.
  - repeat constructor. intros [].
  - destruct (String.eqb_spec p q) as [-> | Hne]; [exact IH|].
    cbn [map fst] in *. constructor; [|exact IH].
    intros Hin. apply Hne.
    destruct (runs_head_inv _ _ _ _ E) as [t ->].
    assert (Hpr : In p (q :: t)).
    { apply runs_names_in. rewrite E. exact Hin. }
    rewrite Forall_forall in Hp.
    destruct Hpr as [<- | Hpt]; [reflexivity|].
    inversion_clear Hrest as [|? ? _ Hq]. rewrite Forall_forall in Hq.
    apply String.leb_antisym; [apply Hp; now left | now apply Hq].
Qed.

Lemma runs_adjacent (ps : list string) :
  Sorted (fun a b : string * nat => fst a <> fst b) (runs ps).
Proof.
  induction ps as [|p rest IH]; [constructor|].
  cbn [runs]. destruct (runs rest) as [|[q n] more].
  - repeat constructor.
  - destruct (String.eqb_spec p q) as [-> | Hne].
    + inversion_clear IH as [|? ? Hs Hh]. constructor; [exact Hs|].
      destruct Hh; constructor; assumption.
    + constructor; [exact IH | constructor; exact Hne].
Qed.

(** The parents down a valid sorted array are the names of its groups,
    each repeated as often as the group has records. *)
Lemma sorted_parents_expand (json : list Child) :
  valid json ->
  map parent (sort by_parent json) = map Some (expand (groups json))
  /\ NoDup (map fst (groups json))
  /\ Forall (fun pn => (1 <= snd pn)%nat) (groups json).
Proof.
  intros Hv. unfold groups.
  assert (Hp : map parent (sort by_parent json)
               = map Some (map name_of (sort by_parent json))).
  { rewrite map_map. apply map_ext_in. intros r Hr.
    destruct (valid_parent json r Hv) as [p Hpr].
    - eapply Permutation_in; [apply sort_by_parent_perm | exact Hr].
    - unfold name_of. now rewrite Hpr. }
  split; [now rewrite expand_runs|]. split; [|apply runs_counts_pos].
  apply runs_sorted_NoDup.
  pose proof (sort_by_parent_ordered json (valid_has_parent json Hv)) as HO.
  rewrite Hp in HO. clear Hp.
  induction (map name_of (sort by_parent json)) as [|x l IH]; [constructor|].
  cbn [map] in HO. inversion_clear HO as [|? ? Hl Hx].
  constructor; [now apply IH|].
  rewrite Forall_forall in Hx |- *. intros y Hy.
  destruct (Hx (Some y)) as (x' & y' & [= <-] & [= <-] & Hle); [now apply in_map|].
  exact Hle.
Qed.

(** ** The cells in closed form *)

Lemma assign_element_eq (cmc : Z) (c : Cursor) (x : Child) :
  assign_element cmc c x
  = (after (parent x) (fst (snd (place cmc c (parent x))))
           (snd (snd (place cmc c (parent x)))),
     set_row_index x (fst (snd (place cmc c (parent x))))
                   (snd (snd (place cmc c (parent x))))).
Proof.
  unfold assign_element. rewrite <- place_after.
  destruct (place cmc c (parent x)) as [c' [r i]]. reflexivity.
Qed.

Lemma assign_from_app_cursor (cmc : Z) (l1 l2 : list Child) (c : Cursor) :
  assign_from cmc c (l1 ++ l2)
  = assign_from cmc c l1 ++ assign_from cmc (cursor_after cmc c l1) l2.
Proof.
  revert c; induction l1 as [|x l1 IH]; intros c; [reflexivity|].
  cbn [app assign_from cursor_after fold_left].
  destruct (assign_element cmc c x) as [c1 x'] eqn:E. cbn [fst app].
  f_equal. apply IH.
Qed.

Lemma row_step (cmc k : Z) :
  1 <= cmc -> 1 <= k ->
  (if 1 + (k - 1) mod cmc =? cmc
   then ((k - 1) / cmc + 1, 1)
   else ((k - 1) / cmc, 1 + (k - 1) mod cmc + 1))
  = (k / cmc, 1 + k mod cmc).
Proof.
  intros Hc Hk.
  pose proof (Z.div_mod (k - 1) cmc ltac:(lia)) as D.
  pose proof (Z.mod_pos_bound (k - 1) cmc ltac:(lia)) as M.
  destruct (Z.eqb_spec (1 + (k - 1) mod cmc) cmc) as [E | E].
  - rewrite <- (Z.div_unique k cmc ((k - 1) / cmc + 1) 0) by lia.
    rewrite <- (Z.mod_unique k cmc ((k - 1) / cmc + 1) 0) by lia.
    reflexivity.
  - rewrite <- (Z.div_unique k cmc ((k - 1) / cmc) ((k - 1) mod cmc + 1)) by lia.
    rewrite <- (Z.mod_unique k cmc ((k - 1) / cmc) ((k - 1) mod cmc + 1)) by lia.
    f_equal. lia.
Qed.

Lemma ceil_div_pred (cmc n : Z) :
  1 <= cmc -> 1 <= n -> (n - 1) / cmc + 1 = ceil_div n cmc.
Proof.
  intros Hc Hn. unfold ceil_div.
  pose proof (Z.div_mod (n - 1) cmc ltac:(lia)) as D.
  pose proof (Z.mod_pos_bound (n - 1) cmc ltac:(lia)) as M.
  rewrite <- (Z.div_unique (- n) cmc (- ((n - 1) / cmc) - 1)
                (cmc - 1 - (n - 1) mod cmc)) by lia.
  lia.
Qed.

(** The records of a group after its [k]-th. *)
Lemma assign_run (cmc : Z) (p : string) (R : Z) (l : list Child) (k : nat) :
  1 <= cmc -> (1 <= k)%nat ->
  Forall (fun x => parent x = Some p) l ->
  map cellZ (assign_from cmc (at_k cmc p R (Z.of_nat k)) l)
  = map (fun j => (R + Z.of_nat j / cmc, 1 + Z.of_nat j mod cmc))
        (seq k (List.length l))
  /\ cursor_after cmc (at_k cmc p R (Z.of_nat k)) l
     = at_k cmc p R (Z.of_nat (k + List.length l)).
Proof.
  intros Hc. revert k; induction l as [|x l IH]; intros k Hk Hp.
  - cbn. now rewrite Nat.add_0_r.
  - inversion_clear Hp as [|? ? Hx Hl].
    assert (Ecell : snd (place cmc (at_k cmc p R (Z.of_nat k)) (parent x))
                    = (R + Z.of_nat k / cmc, 1 + Z.of_nat k mod cmc)).
    { rewrite Hx. unfold at_k. rewrite place_from_after.
      destruct (option_string_eqb_spec (Some p) (Some p)) as [_|]; [|congruence].
      pose proof (row_step cmc (Z.of_nat k) Hc ltac:(lia)) as RS.
      destruct (Z.eqb_spec (1 + (Z.of_nat k - 1) mod cmc) cmc);
        pose proof (f_equal fst RS) as E1; pose proof (f_equal snd RS) as E2;
        cbn [fst snd] in E1, E2; f_equal; lia. }
    assert (Enext : fst (assign_element cmc (at_k cmc p R (Z.of_nat k)) x)
                    = at_k cmc p R (Z.of_nat (S k))).
    { rewrite assign_element_eq. cbn [fst]. rewrite Ecell, Hx. cbn [fst snd].
      unfold at_k. replace (Z.of_nat (S k) - 1) with (Z.of_nat k) by lia.
      reflexivity. }
    destruct (IH (S k) ltac:(lia) Hl) as [IH1 IH2]. split.
    + rewrite assign_from_cons. cbv zeta. cbn [map List.length seq].
      rewrite Ecell. cbn [fst snd]. f_equal.
      rewrite <- IH1. rewrite <- Enext. rewrite assign_element_eq. cbn [fst].
      rewrite Ecell. cbn [fst snd]. reflexivity.
    + cbn [cursor_after fold_left List.length]. fold (cursor_after cmc
        (fst (assign_element cmc (at_k cmc p R (Z.of_nat k)) x)) l).
      rewrite Enext, IH2. f_equal. f_equal. lia.
Qed.

Lemma split_group (l : list Child) (p : string) (n : nat) (names : list string) :
  map parent l = map Some (repeat p n ++ names) ->
  exists l1 l2, l = l1 ++ l2 /\ List.length l1 = n
    /\ Forall (fun x => parent x = Some p) l1
    /\ map parent l2 = map Some names.
Proof.
  rewrite map_app. intros H. apply map_eq_app in H.
  destruct H as (l1 & l2 & -> & H1 & H2). exists l1, l2.
  split; [reflexivity|]. split; [|split; [|exact H2]].
  - apply (f_equal (@List.length _)) in H1.
    now rewrite !length_map, repeat_length in H1.
  - clear H2. revert n H1; induction l1 as [|x l1 IH]; intros n H1; [constructor|].
    destruct n as [|n]; [discriminate|]. cbn in H1.
    injection H1 as Hx Hl. constructor; [exact Hx | eapply IH; eassumption].
Qed.

Lemma run_cells_cons (cmc R : Z) (n : nat) :
  1 <= cmc ->
  run_cells cmc R (S n)
  = (R, 1) :: map (fun j => (R + Z.of_nat j / cmc, 1 + Z.of_nat j mod cmc))
                  (seq 1 n).
Proof.
  intros Hc. unfold run_cells. cbn [seq map]. f_equal.
  change (Z.of_nat 0) with 0. rewrite Z.div_0_l, Z.mod_0_l by lia.
  f_equal; lia.
Qed.

Lemma at_k_1 (cmc : Z) (p : string) (R : Z) :
  1 <= cmc -> at_k cmc p R 1 = after (Some p) R 1.
Proof.
  intros Hc. unfold at_k. replace (1 - 1) with 0 by lia.
  rewrite Z.div_0_l, Z.mod_0_l by lia. f_equal; lia.
Qed.

(** A whole group, entered with a cursor that puts its first record at
    the start of row [R]. *)
Lemma assign_group (cmc : Z) (p : string) (R : Z) (l : list Child) (c : Cursor) :
  1 <= cmc -> l <> [] ->
  Forall (fun x => parent x = Some p) l ->
  snd (place cmc c (Some p)) = (R, 1) ->
  map cellZ (assign_from cmc c l) = run_cells cmc R (List.length l)
  /\ cursor_after cmc c l = at_k cmc p R (Z.of_nat (List.length l)).
Proof.
  intros Hc Hne Hp Hc0. destruct l as [|x l]; [congruence|].
  inversion_clear Hp as [|? ? Hx Hl].
  destruct (assign_run cmc p R l 1 Hc (le_n 1) Hl) as [A1 A2].
  assert (Enext : fst (assign_element cmc c x) = at_k cmc p R (Z.of_nat 1)).
  { rewrite assign_element_eq. cbn [fst]. rewrite Hx, Hc0. cbn [fst snd].
    change (Z.of_nat 1) with 1. now rewrite at_k_1. }
  split.
  - rewrite assign_from_cons. cbv zeta. cbn [map List.length].
    rewrite run_cells_cons by assumption. rewrite Hx, Hc0. cbn [fst snd].
    f_equal. rewrite <- A1. f_equal. f_equal.
    change (Z.of_nat 1) with 1. now rewrite at_k_1.
  - cbn [cursor_after fold_left List.length].
    fold (cursor_after cmc (fst (assign_element cmc c x)) l).
    rewrite Enext, A2. reflexivity.
Qed.

Lemma place_next_group (cmc : Z) (p q : string) (R : Z) (n : nat) :
  1 <= cmc -> (1 <= n)%nat -> p <> q ->
  snd (place cmc (at_k cmc p R (Z.of_nat n)) (Some q))
  = (R + ceil_div (Z.of_nat n) cmc, 1).
Proof.
  intros Hc Hn Hpq. unfold at_k. rewrite place_from_after.
  destruct (option_string_eqb_spec (Some p) (Some q)) as [E | _]; [congruence|].
  f_equal. rewrite <- (ceil_div_pred cmc (Z.of_nat n)) by lia. lia.
Qed.

Lemma assign_grid (cmc : Z) (rs : list (string * nat)) :
  1 <= cmc ->
  forall (l : list Child) (c : Cursor) (R : Z),
  Forall (fun pn => (1 <= snd pn)%nat) rs ->
  Sorted (fun a b : string * nat => fst a <> fst b) rs ->
  map parent l = map Some (expand rs) ->
  (forall p n more, rs = (p, n) :: more -> snd (place cmc c (Some p)) = (R, 1)) ->
  map cellZ (assign_from cmc c l) = grid cmc R rs.
Proof.
  intros Hc. induction rs as [|[p n] rest IH]; intros l c R Hpos Hadj Hl Hent.
  - destruct l; [reflexivity | discriminate].
  - cbn [expand] in Hl. destruct (split_group l p n _ Hl) as (l1 & l2 & -> & Hn & Hp & Hl2).
    inversion_clear Hpos as [|? ? Hn1 Hpos']. cbn [snd] in Hn1.
    inversion_clear Hadj as [|? ? Hadj' Hhd].
    assert (Hne : l1 <> []) by (intros ->; cbn in Hn; lia).
    destruct (assign_group cmc p R l1 c Hc Hne Hp (Hent p n rest eq_refl)) as [G1 G2].
    rewrite assign_from_app_cursor, map_app, G1, G2, Hn. cbn [grid]. f_equal.
    apply IH; auto.
    intros q m more ->. inversion_clear Hhd as [|? ? Hpq]. cbn [fst] in Hpq.
    now apply place_next_group.
Qed.

Lemma layout_cellZ (cmc : Z) (json : list Child) :
  map cell_of (layout cmc json)
  = map (fun c => (Some (fst c), Some (snd c))) (map cellZ (layout cmc json)).
Proof.
  rewrite map_map. apply map_ext_in. intros r Hr.
  destruct (layout_annotated _ _ _ Hr) as [Ar Ai].
  unfold cell_of, cellZ. cbn [fst snd]. now rewrite <- Ar, <- Ai.
Qed.

Lemma layout_grid_cells (cmc : Z) (json : list Child) :
  1 <= cmc -> valid json ->
  map cellZ (layout cmc json) = grid cmc 1 (groups json).
Proof.
  intros Hc Hv. destruct (sorted_parents_expand json Hv) as (Hp & _ & Hpos).
  unfold layout. apply assign_grid; auto.
  - apply runs_adjacent.
  - intros p n more _. rewrite place_cursor0.
    destruct (Z.eqb_spec cmc 0); [lia | reflexivity].
Qed.

(** Position by position, the cells in closed form. *)
Lemma layout_grid (cmc : Z) (json : list Child) :
  1 <= cmc -> valid json ->
  map cell_of (layout cmc json)
  = map (fun c => (Some (fst c), Some (snd c))) (grid cmc 1 (groups json))
  /\ map parent (layout cmc json) = map Some (expand (groups json)).
Proof.
  intros Hc Hv. split.
  - rewrite layout_cellZ. f_equal. now apply layout_grid_cells.
  - rewrite layout_parents. now apply sorted_parents_expand.
Qed.

(** ** The grouping pass on the sorted array *)

Lemma has_own_app (o1 o2 : JsObject) (key : string) :
  has_own (o1 ++ o2) key = has_own o1 key || has_own o2 key.
Proof.
  unfold has_own. induction o1 as [|[k v] o1 IH]; cbn [app get_prop].
  - now destruct (get_prop o2 key).
  - destruct (String.eqb k key); [reflexivity | exact IH].
Qed.

Lemma has_own_single (p key : string) (v : Z) :
  has_own [(p, v)] key = String.eqb p key.
Proof. unfold has_own. cbn. now destruct (String.eqb p key). Qed.

Lemma incr_prop_last (o : JsObject) (p : string) (v : Z) :
  has_own o p = false -> incr_prop (o ++ [(p, v)]) p = o ++ [(p, v + 1)].
Proof.
  unfold has_own. induction o as [|[k w] o IH]; cbn [app get_prop incr_prop].
  - now rewrite String.eqb_refl.
  - destruct (String.eqb k p); [discriminate|]. intros H. now rewrite IH.
Qed.

(** Further records of the parent that was entered last only raise its
    count. *)
Lemma group_from_same (l rest : list Child) (parents : list string)
    (o : JsObject) (p : string) (v : Z) :
  p <> "containsKey" ->
  has_own o "containsKey" = false -> has_own o p = false ->
  Forall (fun x => parent x = Some p) l ->
  group_from (parents, o ++ [(p, v)]) (l ++ rest)
  = group_from (parents, o ++ [(p, v + Z.of_nat (List.length l))]) rest.
Proof.
  intros Hpk Hok Hop. revert v; induction l as [|x l IH]; intros v Hl.
  - cbn. now rewrite Z.add_0_r.
  - inversion_clear Hl as [|? ? Hx Hl']. cbn [app]. rewrite group_from_cons.
    unfold group_element. rewrite Hx, containsKey_has_own.
    rewrite !has_own_app, Hok, Hop, !has_own_single. cbn [orb].
    apply String.eqb_neq in Hpk. rewrite Hpk, String.eqb_refl.
    rewrite incr_prop_last by assumption. rewrite IH by assumption.
    replace (v + 1 + Z.of_nat (List.length l))
      with (v + Z.of_nat (List.length (x :: l))) by (cbn [List.length]; lia).
    reflexivity.
Qed.

Lemma group_from_group (l rest : list Child) (parents : list string)
    (o : JsObject) (p : string) :
  p <> "containsKey" -> p <> "__proto__" ->
  has_own o "containsKey" = false -> has_own o p = false ->
  l <> [] -> Forall (fun x => parent x = Some p) l ->
  group_from (parents, o) (l ++ rest)
  = group_from (parents ++ [abbreviate p], o ++ [(p, Z.of_nat (List.length l))])
      rest.
Proof.
  intros Hpk Hpp Hok Hop Hne Hl. destruct l as [|x l]; [congruence|].
  inversion_clear Hl as [|? ? Hx Hl']. cbn [app]. rewrite group_from_cons.
  unfold group_element. rewrite Hx, containsKey_has_own, Hok, Hop.
  unfold create_prop. apply String.eqb_neq in Hpp. rewrite Hpp.
  rewrite group_from_same by assumption.
  replace (1 + Z.of_nat (List.length l))
    with (Z.of_nat (List.length (x :: l))) by (cbn [List.length]; lia).
  reflexivity.
Qed.

Lemma group_from_expand (rs : list (string * nat)) :
  forall (l : list Child) (parents : list string) (o : JsObject),
  Forall (fun pn => (1 <= snd pn)%nat) rs ->
  NoDup (map fst rs) ->
  (forall p, In p (map fst rs) ->
     p <> "containsKey" /\ p <> "__proto__" /\ has_own o p = false) ->
  has_own o "containsKey" = false ->
  map parent l = map Some (expand rs) ->
  group_from (parents, o) l
  = inr (parents ++ map abbreviate (map fst rs), o ++ sizes_of rs).
Proof.
  induction rs as [|[p n] rest IH]; intros l parents o Hpos Hnd Hnames Hok Hl.
  - destruct l; [|discriminate]. cbn. now rewrite !app_nil_r.
  - cbn [expand] in Hl.
    destruct (split_group l p n _ Hl) as (l1 & l2 & -> & Hn & Hp & Hl2).
    inversion_clear Hpos as [|? ? Hn1 Hpos']. cbn [snd] in Hn1.
    cbn [map fst] in Hnd, Hnames. inversion_clear Hnd as [|? ? Hpn Hnd'].
    destruct (Hnames p (or_introl eq_refl)) as (Hpk & Hpp & Hop).
    rewrite (group_from_group l1 l2 parents o p); auto;
      [|intros ->; cbn in Hn; lia].
    rewrite IH; auto.
    + rewrite Hn. cbn [map fst sizes_of snd]. now rewrite <- !app_assoc.
    + intros q Hq. destruct (Hnames q (or_intror Hq)) as (Hqk & Hqp & Hoq).
      repeat split; auto. rewrite has_own_app, Hoq, has_own_single.
      apply String.eqb_neq. intros ->. contradiction.
    + rewrite has_own_app, Hok, has_own_single. cbn [orb].
      now apply String.eqb_neq.
Qed.

Lemma count_occ_expand (rs : list (string * nat)) (p : string) (n : nat) :
  NoDup (map fst rs) -> In (p, n) rs ->
  count_occ string_dec (expand rs) p = n.
Proof.
  induction rs as [|[q m] rest IH]; intros Hnd Hin; [contradiction|].
  cbn [map fst] in Hnd. inversion_clear Hnd as [|? ? Hq Hnd'].
  cbn [expand]. rewrite count_occ_app.
  assert (Hrep : forall k, count_occ string_dec (repeat q k) p
                           = if string_dec q p then k else 0%nat).
  { induction k as [|k IHk]; cbn [repeat count_occ].
    - now destruct (string_dec q p).
    - destruct (string_dec q p); [now rewrite IHk | exact IHk]. }
  rewrite Hrep. destruct Hin as [[= -> ->] | Hin].
  - destruct (string_dec p p) as [_|]; [|congruence].
    assert (Hz : count_occ string_dec (expand rest) p = 0%nat).
    { apply count_occ_not_In. intros Hp. apply Hq. clear -Hp.
      induction rest as [|[q' m'] rest IH]; [contradiction|].
      cbn [expand] in Hp. apply in_app_or in Hp. destruct Hp as [Hp | Hp].
      - apply repeat_spec in Hp. subst. now left.
      - right. now apply IH. }
    lia.
  - destruct (string_dec q p) as [-> | _].
    + exfalso. apply Hq. apply in_map_iff. now exists (p, n).
    + now apply IH.
Qed.

(** On a valid array none of whose parents is named ["containsKey"] or
    ["__proto__"], the grouping pass enters each parent once, in the
    order of the sorted array: [parents] holds the abbreviated names and
    [parentSizes] has, for each parent, the number of the array's records
    with that parent. *)
Theorem group_counts_records (json : list Child) :
  valid json ->
  (forall r, In r json ->
     parent r <> Some "containsKey" /\ parent r <> Some "__proto__") ->
  group (sort by_parent json)
  = inr (map abbreviate (map fst (groups json)), sizes_of (groups json))
  /\ NoDup (map fst (groups json))
  /\ (forall p n, In (p, n) (groups json) ->
        (1 <= n)%nat
        /\ n = count_occ string_dec (map name_of json) p
        /\ get_prop (sizes_of (groups json)) p = Some (Z.of_nat n)).
Proof.
  intros Hv Hn. destruct (sorted_parents_expand json Hv) as (Hp & Hnd & Hpos).
  assert (Hnames : forall p, In p (map fst (groups json)) ->
                     exists r, In r json /\ parent r = Some p).
  { intros p Hin. apply (expand_names_in _ _ Hpos) in Hin.
    assert (Hs : In (Some p) (map parent (sort by_parent json)))
      by (rewrite Hp; now apply in_map).
    apply in_map_iff in Hs. destruct Hs as (r & Hr & Hin').
    exists r. split; [|exact Hr].
    eapply Permutation_in; [apply sort_by_parent_perm | exact Hin']. }
  split; [|split; [exact Hnd|]].
  - unfold group. rewrite (group_from_expand (groups json) _ [] []); auto.
    intros p Hin. destruct (Hnames p Hin) as (r & Hr & Hpr).
    destruct (Hn r Hr) as [H1 H2]. repeat split; congruence.
  - intros p n Hin. rewrite Forall_forall in Hpos.
    split; [exact (Hpos _ Hin)|]. split.
    + rewrite <- (count_occ_expand _ _ _ Hnd Hin).
      apply Permutation_count_occ.
      unfold groups. rewrite expand_runs.
      apply Permutation_map. apply sort_by_parent_perm.
    + clear -Hnd Hin. induction (groups json) as [|[q m] rest IH];
        [contradiction|].
      cbn [map fst] in Hnd. inversion_clear Hnd as [|? ? Hq Hnd'].
      cbn [sizes_of map fst snd get_prop].
      destruct Hin as [[= -> ->] | Hin]; [now rewrite String.eqb_refl|].
      destruct (String.eqb_spec q p) as [-> | _]; [|now apply IH].
      exfalso. apply Hq. apply in_map_iff. now exists (p, n).
Qed.

Lemma group_counts_records_sample :
  valid sample_json
  /\ group (sort by_parent sample_json)
     = inr (map abbreviate (map fst (groups sample_json)),
            sizes_of (groups sample_json)).
Proof.
  split; [reflexivity|].
  apply (group_counts_records sample_json); [reflexivity|].
  intros r [<- | [<- | [<- | []]]]; split; discriminate.
Defined.

(** ** Labels and the rows of their groups *)

Lemma Object_keys_plain (o : JsObject) :
  (forall k, In k (map fst o) -> array_index k = None) ->
  Object_keys o = map fst o.
Proof.
  intros H. unfold Object_keys.
  assert (E : index_keys o = [] /\ name_keys o = map fst o).
  { induction o as [|[k v] o IH]; [split; reflexivity|].
    cbn [index_keys name_keys map fst].
    rewrite (H k) by now left.
    destruct IH as [I1 I2]; [intros k' Hk'; apply H; now right|].
    split; [exact I1 | now rewrite I2]. }
  destruct E as [-> ->]. reflexivity.
Qed.

Lemma map_fst_sizes_of (rs : list (string * nat)) :
  map fst (sizes_of rs) = map fst rs.
Proof. unfold sizes_of. rewrite map_map. reflexivity. Qed.

Lemma get_prop_sizes_of (rs : list (string * nat)) (p : string) (n : nat) :
  NoDup (map fst rs) -> In (p, n) rs ->
  get_prop (sizes_of rs) p = Some (Z.of_nat n).
Proof.
  induction rs as [|[q m] rest IH]; intros Hnd Hin; [contradiction|].
  cbn [map fst] in Hnd. inversion_clear Hnd as [|? ? Hq Hnd'].
  cbn [sizes_of map fst snd get_prop].
  destruct Hin as [[= -> ->] | Hin]; [now rewrite String.eqb_refl|].
  destruct (String.eqb_spec q p) as [-> | _]; [|now apply IH].
  exfalso. apply Hq. apply in_map_iff. now exists (p, n).
Qed.

Lemma size_at_sizes_of (rs : list (string * nat)) (j : nat) (p : string) (n : nat) :
  NoDup (map fst rs) ->
  (forall k, In k (map fst rs) -> array_index k = None) ->
  nth_error rs j = Some (p, n) ->
  size_at (sizes_of rs) j = Some (Z.of_nat n).
Proof.
  intros Hnd Hpl Hj. unfold size_at.
  rewrite Object_keys_plain by (rewrite map_fst_sizes_of; exact Hpl).
  rewrite map_fst_sizes_of, nth_error_map, Hj. cbn [option_map fst].
  apply get_prop_sizes_of; [exact Hnd | eapply nth_error_In; exact Hj].
Qed.










Lemma group_sorted (json : list Child) :
  valid json ->
  (forall r, In r json ->
     parent r <> Some "containsKey" /\ parent r <> Some "__proto__") ->
  group (sort by_parent json)
  = inr (map abbreviate (map fst (groups json)), sizes_of (groups json)).
Proof.
  intros Hv Hn. destruct (sorted_parents_expand json Hv) as (Hp & Hnd & Hpos).
  unfold group. rewrite (group_from_expand (groups json) _ [] []); auto.
  intros p Hin. apply (expand_names_in _ _ Hpos) in Hin.
  assert (Hs : In (Some p) (map parent (sort by_parent json)))
    by (rewrite Hp; now apply in_map).
  apply in_map_iff in Hs. destruct Hs as (r & Hr & Hin').
  destruct (Hn r) as [H1 H2];
    [eapply Permutation_in; [apply sort_by_parent_perm | exact Hin']|].
  repeat split; congruence.
Qed.

Lemma groups_names (json : list Child) (p : string) :
  valid json -> In p (map fst (groups json)) ->
  exists r, In r json /\ parent r = Some p.
Proof.
  intros Hv Hin. destruct (sorted_parents_expand json Hv) as (Hp & _ & Hpos).
  apply (expand_names_in _ _ Hpos) in Hin.
  assert (Hs : In (Some p) (map parent (sort by_parent json)))
    by (rewrite Hp; now apply in_map).
  apply in_map_iff in Hs. destruct Hs as (r & Hr & Hin').
  exists r. split; [|exact Hr].
  eapply Permutation_in; [apply sort_by_parent_perm | exact Hin'].
Qed.




(** ** The text of the labels *)

Lemma label_texts_groups (rs pre rest : list (string * nat)) :
  NoDup (map fst rs) ->
  (forall k, In k (map fst rs) -> array_index k = None) ->
  rs = pre ++ rest ->
  label_texts_from (sizes_of rs) (List.length pre)
    (map abbreviate (map fst rest))
  = map group_label rest.
Proof.
  intros Hnd Hpl. revert pre; induction rest as [|[p n] rest IH]; intros pre E;
    [reflexivity|].
  cbn [map fst label_texts_from]. f_equal.
  - unfold label_text, group_label. cbn [fst snd].
    rewrite (size_at_sizes_of rs (List.length pre) p n Hnd Hpl); [reflexivity|].
    rewrite E, nth_error_app2, Nat.sub_diag by lia. reflexivity.
  - specialize (IH (pre ++ [(p, n)])).
    rewrite length_app in IH. cbn [List.length] in IH.
    rewrite Nat.add_1_r in IH. apply IH.
    now rewrite <- app_assoc.
Qed.

(** With plain parent names, the labels read, in the order of the sorted
    array, the abbreviated name of each parent followed by the number of
    the array's records with that parent. *)
Theorem labels_show_record_counts (json : list Child) :
  valid json ->
  (forall r p, In r json -> parent r = Some p -> plain_name p) ->
  exists parents parentSizes,
    group (sort by_parent json) = inr (parents, parentSizes)
    /\ label_texts_from parentSizes 0 parents = map group_label (groups json)
    /\ forall p n, In (p, n) (groups json) ->
         n = count_occ string_dec (map name_of json) p.
Proof.
  intros Hv Hplain.
  destruct (sorted_parents_expand json Hv) as (Hp & Hnd & Hpos).
  exists (map abbreviate (map fst (groups json))), (sizes_of (groups json)).
  split; [|split].
  - apply group_sorted; [exact Hv|].
    intros r Hr. destruct (valid_parent json r Hv Hr) as [p Hpr].
    destruct (Hplain r p Hr Hpr) as (H1 & H2 & _). rewrite Hpr.
    split; congruence.
  - apply (label_texts_groups (groups json) [] (groups json)); auto.
    intros k Hk. destruct (groups_names json k Hv Hk) as (r & Hr & Hpr).
    now destruct (Hplain r k Hr Hpr) as (_ & _ & H3).
  - intros p n Hin. rewrite <- (count_occ_expand _ _ _ Hnd Hin).
    apply Permutation_count_occ. unfold groups. rewrite expand_runs.
    apply Permutation_map. apply sort_by_parent_perm.
Qed.

Lemma labels_show_record_counts_sample :
  valid sample_json
  /\ exists parents parentSizes,
       group (sort by_parent sample_json) = inr (parents, parentSizes)
       /\ label_texts_from parentSizes 0 parents = ["A (2)"; "B (1)"].
Proof.
  split; [reflexivity|].
  destruct (labels_show_record_counts sample_json) as (ps & sz & G & L & _).
  - reflexivity.
  - intros r p [<- | [<- | [<- | []]]] [= <-]; repeat split; discriminate.
  - exists ps, sz. split; [exact G | exact L].
Defined.

(** When the names of two parents are array indices whose numeric order
    is the reverse of the order in which they were entered (["10"] is
    sorted before ["9"]), [Object.keys] lists them in numeric order and
    each of the two labels shows the count of the other parent. *)
Theorem numeric_parent_names_swap_counts (p1 p2 a1 a2 : string) (n1 n2 : Z)
    (v1 v2 : N) :
  array_index p1 = Some v1 -> array_index p2 = Some v2 -> (v2 < v1)%N ->
  Object_keys [(p1, n1); (p2, n2)] = [p2; p1]
  /\ label_texts_from [(p1, n1); (p2, n2)] 0 [a1; a2]
     = [String.append a1
          (String.append " (" (String.append (show_size (Some n2)) ")"));
        String.append a2
          (String.append " (" (String.append (show_size (Some n1)) ")"))].
Proof.
  intros H1 H2 Hlt.
  assert (Hne : p1 <> p2) by (intros ->; rewrite H1 in H2; injection H2; lia).
  assert (K : Object_keys [(p1, n1); (p2, n2)] = [p2; p1]).
  { unfold Object_keys. cbn [index_keys name_keys]. rewrite H1, H2.
    cbn [insert_index fst]. destruct (N.leb_spec v1 v2); [lia | reflexivity]. }
  split; [exact K|].
  cbn [label_texts_from]. unfold label_text, size_at. rewrite K.
  cbn [nth_error get_prop]. rewrite !String.eqb_refl.
  apply String.eqb_neq in Hne. rewrite Hne. reflexivity.
Qed.

Lemma numeric_parent_names_swap_counts_sample :
  array_index "10" = Some 10%N /\ array_index "9" = Some 9%N
  /\ label_texts_from [("10", 2); ("9", 1)] 0 ["10"; "9"] = ["10 (1)"; "9 (2)"].
Proof.
  split; [reflexivity|]. split; [reflexivity|].
  destruct (numeric_parent_names_swap_counts "10" "9" "10" "9" 2 1 10 9)
    as [_ E]; [reflexivity | reflexivity | reflexivity|].
  rewrite E. reflexivity.
Defined.

Lemma longest_from_currents (sizes : JsObject) (parents : list string)
    (l0 : string) (i : nat) :
  longest_from sizes l0 i parents
  = fold_left (fun best cur =>
                 if (String.length best <? String.length cur)%nat
                 then cur else best)
              (currents_from sizes i parents) l0.
Proof.
  revert l0 i; induction parents as [|e rest IH]; intros l0 i; [reflexivity|].
  cbn [longest_from currents_from fold_left]. apply IH.
Qed.

Lemma fold_longest (cs : list string) (l0 : string) :
  let L := fold_left (fun best cur =>
                 if (String.length best <? String.length cur)%nat
                 then cur else best) cs l0 in
  (String.length l0 <= String.length L)%nat
  /\ (forall c, In c cs -> (String.length c <= String.length L)%nat)
  /\ (L = l0 /\ (forall c, In c cs -> (String.length c <= String.length l0)%nat)
      \/ exists pre post, cs = pre ++ L :: post
           /\ (String.length l0 < String.length L)%nat
           /\ forall c, In c pre -> (String.length c < String.length L)%nat).
Proof.
  revert l0; induction cs as [|c cs IH]; intros l0; cbn [fold_left].
  - cbv zeta. split; [lia|]. split; [intros c []|]. left. split; [reflexivity|].
    intros c [].
  - cbv zeta.
    destruct (Nat.ltb_spec (String.length l0) (String.length c)) as [Hlt | Hge].
    + destruct (IH c) as (I1 & I2 & I3). split; [lia|]. split.
      * intros c' [<- | Hc']; [exact I1 | now apply I2].
      * right. destruct I3 as [[E Hall] | (pre & post & E & Hl & Hpre)].
        -- exists [], cs. rewrite E. split; [reflexivity|]. split; [exact Hlt|].
           intros c' [].
        -- exists (c :: pre), post. split; [now rewrite E at 1|].
           split; [lia|]. intros c' [<- | Hc']; [exact Hl | now apply Hpre].
    + destruct (IH l0) as (I1 & I2 & I3). split; [exact I1|]. split.
      * intros c' [<- | Hc']; [lia | now apply I2].
      * destruct I3 as [[E Hall] | (pre & post & E & Hl & Hpre)].
        -- left. split; [exact E|]. intros c' [<- | Hc']; [exact Hge | now apply Hall].
        -- right. exists (c :: pre), post. split; [now rewrite E at 1|].
           split; [exact Hl|]. intros c' [<- | Hc']; [lia | now apply Hpre].
Qed.

Lemma current_label_length (sizes : JsObject) (e : string) (i : nat) :
  (0 < String.length (current_label sizes e i))%nat.
Proof.
  unfold current_label. rewrite !length_string_append. cbn. lia.
Qed.

(** [longest] is the first of the padded label strings that no other
    exceeds in number of characters; it is empty only when there is no
    label. *)
Theorem longest_label_first_longest (parents : list string) (sizes : JsObject) :
  let cs := currents_from sizes 0 parents in
  let L := longest_label parents sizes in
  (forall c, In c cs -> (String.length c <= String.length L)%nat)
  /\ (parents = [] -> L = "")
  /\ (parents <> [] ->
      exists pre post, cs = pre ++ L :: post
        /\ forall c, In c pre -> (String.length c < String.length L)%nat).
Proof.
  cbv zeta. unfold longest_label. rewrite longest_from_currents.
  destruct (fold_longest (currents_from sizes 0 parents) "") as (_ & I2 & I3).
  cbv zeta in I2, I3. split; [exact I2|]. split.
  - intros ->. reflexivity.
  - intros Hne. destruct I3 as [[E Hall] | (pre & post & E & _ & Hpre)].
    + exfalso. destruct parents as [|e rest]; [congruence|].
      specialize (Hall (current_label sizes e 0) (or_introl eq_refl)).
      pose proof (current_label_length sizes e 0). cbn in Hall. lia.
    + exists pre, post. split; [exact E | exact Hpre].
Qed.

(** * The layout on the record objects

    [generate] writes the cells into the objects the array refers to:
    what the drawing and the caller read afterwards are the fields of
    those objects.  The properties below are about these fields. *)

(** ** Positions of the sorted array and the objects behind them *)

Lemma last_occurrence (l : loc) (ls : list loc) :
  In l ls -> exists l1 l2, ls = l1 ++ l :: l2 /\ ~ In l l2.
Proof.
  induction ls as [|x ls IH]; [contradiction|]. intros H.
  destruct (in_dec Nat.eq_dec l ls) as [Hin | Hnin].
  - destruct (IH Hin) as (l1 & l2 & -> & Hl).
    exists (x :: l1), l2. split; [reflexivity | exact Hl].
  - destruct H as [-> | H]; [|contradiction].
    exists [], ls. split; [reflexivity | exact Hnin].
Qed.

Lemma nth_error_two_split {A : Type} (l : list A) (i j : nat) (x y : A) :
  (i < j)%nat -> nth_error l i = Some x -> nth_error l j = Some y ->
  exists l1 m l3, l = l1 ++ x :: m ++ y :: l3.
Proof.
  intros Hij Hi Hj. apply nth_error_split in Hi.
  destruct Hi as (l1 & l2 & -> & Hlen).
  rewrite nth_error_app2 in Hj by lia.
  destruct (j - List.length l1)%nat as [|k] eqn:Ek; [lia|].
  cbn [nth_error] in Hj. apply nth_error_split in Hj.
  destruct Hj as (m & l3 & -> & _). now exists l1, m, l3.
Qed.

Lemma nth_error_here {A : Type} (l1 : list A) (x : A) (l2 : list A) :
  nth_error (l1 ++ x :: l2) (List.length l1) = Some x.
Proof. rewrite nth_error_app2 by lia. now rewrite Nat.sub_diag. Qed.

Lemma layout_of_store (cmc : Z) (a : loc) (s : Store) :
  layout cmc (view s a)
  = assign_from cmc cursor0 (map (heap s) (arrays (layout_store cmc a s) a)).
Proof. unfold layout. rewrite <- view_sort_store. reflexivity. Qed.

Lemma layout_store_parents (cmc : Z) (a : loc) (s : Store) :
  map parent (layout cmc (view s a))
  = map (fun l => parent (heap (layout_store cmc a s) l))
        (arrays (layout_store cmc a s) a).
Proof.
  rewrite layout_of_store, assign_from_parent, map_map.
  apply map_ext. intros l. symmetry. apply heap_layout_store_parent.
Qed.

(** An object ends up with the record laid out at the last position that
    refers to it. *)
Lemma final_record (cmc : Z) (a : loc) (s : Store)
    (l1 : list loc) (l : loc) (l2 : list loc) :
  arrays (layout_store cmc a s) a = l1 ++ l :: l2 -> ~ In l l2 ->
  nth_error (layout cmc (view s a)) (List.length l1)
  = Some (heap (layout_store cmc a s) l).
Proof.
  intros E Hl. rewrite layout_of_store, E.
  unfold layout_store, assign_store in *. cbn [heap arrays] in *.
  rewrite E. now apply assign_heap_last.
Qed.

Lemma final_record_In (cmc : Z) (a : loc) (s : Store) (l : loc) :
  In l (arrays (layout_store cmc a s) a) ->
  In (heap (layout_store cmc a s) l) (layout cmc (view s a)).
Proof.
  intros H. destruct (last_occurrence _ _ H) as (l1 & l2 & E & Hl).
  eapply nth_error_In. exact (final_record _ _ _ _ _ _ E Hl).
Qed.

Lemma final_record_annotated (cmc : Z) (a : loc) (s : Store) (l : loc) :
  In l (arrays (layout_store cmc a s) a) ->
  annotated (heap (layout_store cmc a s) l).
Proof.
  intros H. eapply layout_annotated. apply final_record_In. exact H.
Qed.

(** The laid-out positions split where the array does. *)
Lemma layout_store_split (cmc : Z) (a : loc) (s : Store) (l1 rest : list loc) :
  arrays (layout_store cmc a s) a = l1 ++ rest ->
  exists A1 R, layout cmc (view s a) = A1 ++ R
    /\ List.length A1 = List.length l1
    /\ map parent R
       = map (fun l => parent (heap (layout_store cmc a s) l)) rest.
Proof.
  intros E. pose proof (layout_store_parents cmc a s) as HP.
  rewrite E, map_app in HP. apply map_eq_app in HP.
  destruct HP as (A1 & R & EL & H1 & H2).
  exists A1, R. split; [exact EL|]. split; [|exact H2].
  rewrite <- (length_map parent A1), H1. apply length_map.
Qed.

Lemma layout_store_ordered (cmc : Z) (a : loc) (s : Store) :
  valid (view s a) ->
  StronglySorted parent_le
    (map (fun l => parent (heap (layout_store cmc a s) l))
         (arrays (layout_store cmc a s) a)).
Proof.
  intros Hv. rewrite <- layout_store_parents. now apply layout_ordered.
Qed.

(** ** A new parent starts a new row *)

(** C3, the claim as it stands: the array refers to a child of ["A"] and
    then twice to one child of ["B"].  After the sort and the pass the
    second record of the array has a parent other than the first one's
    and a greater row, but its index is 2: the pass wrote index 1 into
    the object at the second position and index 2 into the same object at
    the third. *)
Lemma shared_object_new_parent_index_2 :
  valid (view shared_store 0%nat)
  /\ arrays (layout_store 2 0%nat shared_store) 0%nat = [1%nat; 0%nat; 0%nat]
  /\ parent (heap (layout_store 2 0%nat shared_store) 1%nat) = Some "A"
  /\ parent (heap (layout_store 2 0%nat shared_store) 0%nat) = Some "B"
  /\ cell_of (heap (layout_store 2 0%nat shared_store) 1%nat) = (Some 1, Some 1)
  /\ cell_of (heap (layout_store 2 0%nat shared_store) 0%nat) = (Some 2, Some 2)
  /\ ~ (forall l1 x y l2,
          arrays (layout_store 2 0%nat shared_store) 0%nat = l1 ++ x :: y :: l2 ->
          parent (heap (layout_store 2 0%nat shared_store) x)
          <> parent (heap (layout_store 2 0%nat shared_store) y) ->
          index (heap (layout_store 2 0%nat shared_store) y) = Some 1).
Proof.
  split; [reflexivity|]. split; [reflexivity|]. split; [reflexivity|].
  split; [reflexivity|]. split; [reflexivity|]. split; [reflexivity|].
  intros H. specialize (H [] 1%nat 0%nat [0%nat] eq_refl).
  assert (E : index (heap (layout_store 2 0%nat shared_store) 0%nat) = Some 1)
    by (apply H; discriminate).
  discriminate E.
Qed.

(** C3, amended: after the sort and the pass the array holds the same
    record objects, and whenever the objects at two consecutive positions
    have different parents, the second has a greater row; its index is 1
    unless the array refers to that object again further on (so always,
    when the array refers to each object once).  No two objects of
    different parents have the same row. *)
Theorem new_parent_starts_new_row (cmc : Z) (a : loc) (s : Store) :
  valid (view s a) ->
  Permutation (arrays (layout_store cmc a s) a) (arrays s a)
  /\ (forall l1 x y l2,
        arrays (layout_store cmc a s) a = l1 ++ x :: y :: l2 ->
        parent (heap (layout_store cmc a s) x)
        <> parent (heap (layout_store cmc a s) y) ->
        (exists v1 v2,
            row (heap (layout_store cmc a s) x) = Some v1
            /\ row (heap (layout_store cmc a s) y) = Some v2 /\ v1 < v2)
        /\ (~ In y l2 -> index (heap (layout_store cmc a s) y) = Some 1))
  /\ (forall x y,
        In x (arrays (layout_store cmc a s) a) ->
        In y (arrays (layout_store cmc a s) a) ->
        parent (heap (layout_store cmc a s) x)
        <> parent (heap (layout_store cmc a s) y) ->
        row (heap (layout_store cmc a s) x)
        <> row (heap (layout_store cmc a s) y)).
Proof.
  intros Hv. destruct (layout_new_parent_new_row cmc (view s a) Hv) as [P1 P2].
  split; [apply arrays_layout_store_perm|]. split.
  - intros l1 x y l2 E Hp.
    destruct (layout_store_split cmc a s l1 (x :: y :: l2) E)
      as (A1 & R & EL & Hlen & HR).
    destruct R as [|rx [|ry A2]]; try discriminate HR.
    assert (Hpx : parent rx = parent (heap (layout_store cmc a s) x))
      by exact (f_equal (hd None) HR).
    assert (Hpy : parent ry = parent (heap (layout_store cmc a s) y))
      by exact (f_equal (fun k => hd None (tl k)) HR).
    destruct (P1 A1 rx ry A2 EL) as (v1 & v2 & R1 & R2 & Hlt & I2);
      [congruence|].
    (* the first of the two objects is not referred to further on *)
    assert (Hx : ~ In x (y :: l2)).
    { intros [<- | Hin]; [now apply Hp|].
      destruct (in_split _ _ Hin) as (m1 & m2 & ->).
      pose proof (layout_store_ordered cmc a s Hv) as HO.
      rewrite E in HO.
      repeat (rewrite map_app in HO || rewrite map_cons in HO).
      apply Hp. symmetry.
      apply (ordered_group_contiguous _
               (parent (heap (layout_store cmc a s) y)
                :: map (fun l => parent (heap (layout_store cmc a s) l)) m1)
               _ _ _ HO).
      now left. }
    pose proof (final_record cmc a s l1 x (y :: l2) E Hx) as Fx.
    rewrite EL, <- Hlen, nth_error_here in Fx.
    assert (Ex : rx = heap (layout_store cmc a s) x) by congruence.
    (* the second one holds what its last position was given *)
    destruct (last_occurrence y (y :: l2) (or_introl eq_refl))
      as (m1 & m2 & Ey & Hy).
    assert (E' : arrays (layout_store cmc a s) a = (l1 ++ x :: m1) ++ y :: m2).
    { rewrite E, <- app_assoc. cbn [app]. now rewrite Ey. }
    pose proof (final_record cmc a s _ y m2 E' Hy) as Fy.
    rewrite EL, length_app in Fy. cbn [List.length] in Fy.
    rewrite <- Hlen in Fy. rewrite nth_error_app2 in Fy by lia.
    replace (List.length A1 + S (List.length m1) - List.length A1)%nat
      with (S (List.length m1)) in Fy by lia.
    cbn [nth_error] in Fy.
    assert (Ay : annotated (heap (layout_store cmc a s) y)).
    { apply final_record_annotated. rewrite E. apply in_or_app.
      right. right. now left. }
    assert (Hry : v2 = rowZ ry) by (unfold rowZ; now rewrite R2).
    assert (Hrows : rowZ ry <= rowZ (heap (layout_store cmc a s) y)).
    { destruct (List.length m1) as [|n].
      - assert (Er : ry = heap (layout_store cmc a s) y)
          by (change (Some ry = Some (heap (layout_store cmc a s) y)) in Fy;
              congruence).
        rewrite <- Er. lia.
      - change (nth_error A2 n = Some (heap (layout_store cmc a s) y)) in Fy.
        apply nth_error_split in Fy.
        destruct Fy as (B1 & B2 & -> & _).
        pose proof (layout_chain cmc (view s a)) as HS. rewrite EL in HS.
        apply Sorted_app_r in HS.
        apply (Sorted_app_r _ [rx]) in HS.
        now apply chain_rows_mono in HS. }
    split.
    + exists v1, (rowZ (heap (layout_store cmc a s) y)).
      split; [now rewrite <- Ex|]. split; [apply Ay | lia].
    + intros Hny. destruct m1 as [|z m1].
      * assert (Er : ry = heap (layout_store cmc a s) y)
          by (change (Some ry = Some (heap (layout_store cmc a s) y)) in Fy;
              congruence).
        now rewrite <- Er.
      * exfalso. apply Hny.
        assert (El : l2 = m1 ++ y :: m2) by (cbn [app] in Ey; congruence).
        rewrite El. apply in_or_app. right. now left.
  - intros x y Hx Hy Hp.
    apply P2; [now apply final_record_In | now apply final_record_In | exact Hp].
Qed.

Lemma new_parent_starts_new_row_sample :
  valid (view sample_store 0%nat)
  /\ forall x y,
       In x (arrays (layout_store 2 0%nat sample_store) 0%nat) ->
       In y (arrays (layout_store 2 0%nat sample_store) 0%nat) ->
       parent (heap (layout_store 2 0%nat sample_store) x)
       <> parent (heap (layout_store 2 0%nat sample_store) y) ->
       row (heap (layout_store 2 0%nat sample_store) x)
       <> row (heap (layout_store 2 0%nat sample_store) y).
Proof.
  split; [reflexivity|].
  apply (new_parent_starts_new_row 2 0%nat sample_store). reflexivity.
Defined.

(** ** The cells of one parent *)

Lemma layout_cells_increase (cmc : Z) (json : list Child) (i j : nat)
    (x y : Child) :
  (i < j)%nat ->
  nth_error (layout cmc json) i = Some x ->
  nth_error (layout cmc json) j = Some y ->
  rowZ x < rowZ y \/ (rowZ x = rowZ y /\ indexZ x < indexZ y).
Proof.
  intros Hij Hi Hj.
  destruct (nth_error_two_split _ _ _ _ _ Hij Hi Hj) as (l1 & m & l3 & E).
  pose proof (layout_chain cmc json) as HS. rewrite E in HS.
  apply Sorted_app_r in HS. now apply chain_cells_lt in HS.
Qed.

(** Two different objects of the array never hold the same cell. *)
Lemma final_cells_distinct (cmc : Z) (a : loc) (s : Store) (x y : loc) :
  In x (arrays (layout_store cmc a s) a) ->
  In y (arrays (layout_store cmc a s) a) ->
  x <> y ->
  cell_of (heap (layout_store cmc a s) x)
  <> cell_of (heap (layout_store cmc a s) y).
Proof.
  intros Hx Hy Hne.
  destruct (final_record_annotated _ _ _ _ Hx) as [Axr Axi].
  destruct (final_record_annotated _ _ _ _ Hy) as [Ayr Ayi].
  destruct (last_occurrence _ _ Hx) as (l1 & l2 & E1 & H1).
  destruct (last_occurrence _ _ Hy) as (k1 & k2 & E2 & H2).
  pose proof (final_record _ _ _ _ _ _ E1 H1) as Fx.
  pose proof (final_record _ _ _ _ _ _ E2 H2) as Fy.
  assert (Hlen : List.length l1 <> List.length k1).
  { intros Hl. apply Hne.
    pose proof (nth_error_here l1 x l2) as N1.
    pose proof (nth_error_here k1 y k2) as N2.
    rewrite <- E1 in N1. rewrite <- E2, <- Hl in N2. congruence. }
  unfold cell_of. rewrite Axr, Axi, Ayr, Ayi. intros Hc.
  assert (Hr : rowZ (heap (layout_store cmc a s) x)
               = rowZ (heap (layout_store cmc a s) y)) by congruence.
  assert (Hi : indexZ (heap (layout_store cmc a s) x)
               = indexZ (heap (layout_store cmc a s) y)) by congruence.
  destruct (Nat.lt_total (List.length l1) (List.length k1)) as [Hlt | [Heq | Hgt]].
  - pose proof (layout_cells_increase _ _ _ _ _ _ Hlt Fx Fy). lia.
  - contradiction.
  - pose proof (layout_cells_increase _ _ _ _ _ _ Hgt Fy Fx). lia.
Qed.

(** C4, the claim as it stands: the array refers to one child of ["A"]
    and then twice to another one, and a row takes one block.  The three
    positions are given rows 1, 2 and 3, and the object behind the last
    two ends up in row 3: the second and the third record of the array
    have the same (row, index) pair, the rows of the records of ["A"] are
    1 and 3, and no record is in row 2. *)
Lemma shared_object_leaves_row_unused :
  1 <= 1
  /\ valid (view order_store 4%nat)
  /\ arrays (layout_store 1 4%nat order_store) 4%nat = [0%nat; 1%nat; 1%nat]
  /\ parent (heap (layout_store 1 4%nat order_store) 0%nat)
     = parent (heap (layout_store 1 4%nat order_store) 1%nat)
  /\ row (heap (layout_store 1 4%nat order_store) 0%nat) = Some 1
  /\ row (heap (layout_store 1 4%nat order_store) 1%nat) = Some 3
  /\ map cell_of (view (layout_store 1 4%nat order_store) 4%nat)
     = [(Some 1, Some 1); (Some 3, Some 1); (Some 3, Some 1)]
  /\ ~ (exists z, In z (arrays (layout_store 1 4%nat order_store) 4%nat)
                  /\ row (heap (layout_store 1 4%nat order_store) z) = Some 2).
Proof.
  split; [lia|]. split; [reflexivity|]. split; [reflexivity|].
  split; [reflexivity|]. split; [reflexivity|]. split; [reflexivity|].
  split; [reflexivity|].
  intros (z & Hz & Hr).
  destruct Hz as [<- | [<- | [<- | []]]]; discriminate Hr.
Qed.

(** C4, amended: with at least one block to a row, after the sort and the
    pass the array holds the same record objects, and two different
    objects of one parent never hold the same (row, index) pair; when the
    array refers to each object once, the rows of the objects of one
    parent have no gap: every row between two of them is the row of an
    object of that parent. *)
Theorem parent_cells_distinct_rows_contiguous (cmc : Z) (a : loc) (s : Store) :
  1 <= cmc -> valid (view s a) ->
  Permutation (arrays (layout_store cmc a s) a) (arrays s a)
  /\ (forall x y,
        In x (arrays (layout_store cmc a s) a) ->
        In y (arrays (layout_store cmc a s) a) ->
        x <> y ->
        parent (heap (layout_store cmc a s) x)
        = parent (heap (layout_store cmc a s) y) ->
        cell_of (heap (layout_store cmc a s) x)
        <> cell_of (heap (layout_store cmc a s) y))
  /\ (NoDup (arrays s a) ->
      forall x y vx vy k,
        In x (arrays (layout_store cmc a s) a) ->
        In y (arrays (layout_store cmc a s) a) ->
        parent (heap (layout_store cmc a s) x)
        = parent (heap (layout_store cmc a s) y) ->
        row (heap (layout_store cmc a s) x) = Some vx ->
        row (heap (layout_store cmc a s) y) = Some vy ->
        vx <= k <= vy ->
        exists z, In z (arrays (layout_store cmc a s) a)
                  /\ parent (heap (layout_store cmc a s) z)
                     = parent (heap (layout_store cmc a s) x)
                  /\ row (heap (layout_store cmc a s) z) = Some k).
Proof.
  intros Hc Hv. split; [apply arrays_layout_store_perm|]. split.
  - intros x y Hx Hy Hne _. now apply final_cells_distinct.
  - intros Hnd x y vx vy k Hx Hy Hp Rx Ry Hk.
    destruct (layout_cells_distinct_rows_contiguous cmc (view s a) Hc Hv)
      as [_ P].
    pose proof (layout_store_view cmc a s Hnd) as HV.
    destruct (P (heap (layout_store cmc a s) x) (heap (layout_store cmc a s) y)
                vx vy k) as (zr & Hz & Hzp & Hzk);
      try assumption;
      try (rewrite <- HV; unfold view; now apply in_map).
    rewrite <- HV in Hz. unfold view in Hz. apply in_map_iff in Hz.
    destruct Hz as (z & <- & Hz). exists z. auto.
Qed.

Lemma parent_cells_distinct_rows_contiguous_sample :
  1 <= 1 /\ valid (view sample_store 0%nat)
  /\ forall x y,
       In x (arrays (layout_store 1 0%nat sample_store) 0%nat) ->
       In y (arrays (layout_store 1 0%nat sample_store) 0%nat) ->
       x <> y ->
       parent (heap (layout_store 1 0%nat sample_store) x)
       = parent (heap (layout_store 1 0%nat sample_store) y) ->
       cell_of (heap (layout_store 1 0%nat sample_store) x)
       <> cell_of (heap (layout_store 1 0%nat sample_store) y).
Proof.
  split; [lia|]. split; [reflexivity|].
  apply (parent_cells_distinct_rows_contiguous 1 0%nat sample_store);
    [lia | reflexivity].
Defined.

(** ** The order of the input *)

(** The sort keeps the references to the objects of one parent in the
    order in which the array lists them. *)
Lemma sort_insert_of_parent (h : loc -> Child) (p : option string) (x : loc)
    (l : list loc) :
  filter (of_parent h p)
         (sort_insert (fun l1 l2 => by_parent (h l1) (h l2)) x l)
  = filter (of_parent h p) (x :: l).
Proof.
  induction l as [|y l IH]; [reflexivity|].
  cbn [sort_insert].
  destruct (Z.leb_spec (by_parent (h x) (h y)) 0) as [H | H]; [reflexivity|].
  assert (Hne : parent (h y) <> parent (h x)).
  { apply js_lt_neq. unfold by_parent, compare_parent in H.
    destruct (js_lt (parent (h x)) (parent (h y))); [lia|].
    destruct (js_lt (parent (h y)) (parent (h x))); [reflexivity | lia]. }
  cbn [filter] in *. rewrite IH. unfold of_parent.
  destruct (option_string_eqb_spec (parent (h x)) p) as [Ex | Ex];
    destruct (option_string_eqb_spec (parent (h y)) p) as [Ey | Ey];
    try reflexivity.
  congruence.
Qed.

Lemma sort_of_parent (h : loc -> Child) (p : option string) (l : list loc) :
  filter (of_parent h p) (sort (fun l1 l2 => by_parent (h l1) (h l2)) l)
  = filter (of_parent h p) l.
Proof.
  induction l as [|x l IH]; [reflexivity|].
  cbn [sort]. rewrite sort_insert_of_parent. cbn [filter]. now rewrite IH.
Qed.

Lemma of_parent_refl (h : loc -> Child) (l : loc) :
  of_parent h (parent (h l)) l = true.
Proof.
  unfold of_parent.
  destruct (option_string_eqb_spec (parent (h l)) (parent (h l))); congruence.
Qed.

(** Two arrays in order of parent that list the objects of every parent
    in the same order are the same array. *)
Lemma ordered_filters_unique (h : loc -> Child) (L1 L2 : list loc) :
  StronglySorted parent_le (map (fun l => parent (h l)) L1) ->
  StronglySorted parent_le (map (fun l => parent (h l)) L2) ->
  (forall p, filter (of_parent h p) L1 = filter (of_parent h p) L2) ->
  L1 = L2.
Proof.
  revert L2; induction L1 as [|x L1 IH]; intros [|y L2] S1 S2 HF.
  - reflexivity.
  - specialize (HF (parent (h y))). cbn [filter] in HF.
    rewrite of_parent_refl in HF. discriminate HF.
  - specialize (HF (parent (h x))). cbn [filter] in HF.
    rewrite of_parent_refl in HF. discriminate HF.
  - rewrite !map_cons in S1, S2.
    inversion_clear S1 as [|? ? S1' F1]. inversion_clear S2 as [|? ? S2' F2].
    rewrite Forall_forall in F1, F2.
    assert (Hxy : parent_le (parent (h x)) (parent (h y))
                  \/ parent (h x) = parent (h y)).
    { assert (Hy : In y (filter (of_parent h (parent (h y))) (x :: L1))).
      { rewrite HF. cbn [filter]. rewrite of_parent_refl. now left. }
      apply filter_In in Hy. destruct Hy as [[-> | Hy] _]; [now right|].
      left. apply F1. now apply (in_map (fun l => parent (h l))). }
    assert (Hyx : parent_le (parent (h y)) (parent (h x))
                  \/ parent (h x) = parent (h y)).
    { assert (Hx : In x (filter (of_parent h (parent (h x))) (y :: L2))).
      { rewrite <- HF. cbn [filter]. rewrite of_parent_refl. now left. }
      apply filter_In in Hx. destruct Hx as [[-> | Hx] _]; [now right|].
      left. apply F2. now apply (in_map (fun l => parent (h l))). }
    assert (Hp : parent (h x) = parent (h y)).
    { destruct Hxy as [Hxy | E]; [|exact E].
      destruct Hyx as [Hyx | E]; [|exact E].
      now apply parent_le_antisym. }
    assert (E : x = y).
    { pose proof (HF (parent (h x))) as H0. cbn [filter] in H0.
      assert (Hy : of_parent h (parent (h x)) y = true)
        by (rewrite Hp; apply of_parent_refl).
      rewrite of_parent_refl, Hy in H0. congruence. }
    subst y. f_equal. apply IH; try assumption.
    intros p. specialize (HF p). cbn [filter] in HF.
    destruct (of_parent h p x); congruence.
Qed.

Lemma arrays_sorted_by_parent (cmc : Z) (a : loc) (s : Store) :
  valid (view s a) ->
  StronglySorted parent_le
    (map (fun l => parent (heap s l)) (arrays (layout_store cmc a s) a)).
Proof.
  intros Hv. pose proof (layout_store_ordered cmc a s Hv) as H.
  erewrite map_ext in H; [exact H|].
  intros l. apply heap_layout_store_parent.
Qed.

(** Running the pass again over the same array writes the same cells. *)
Lemma assign_heap_idem (cmc : Z) (c : Cursor) (ls : list loc)
    (h : loc -> Child) (l : loc) :
  assign_heap cmc c ls (assign_heap cmc c ls h) l = assign_heap cmc c ls h l.
Proof.
  destruct (in_dec Nat.eq_dec l ls) as [Hin | Hout].
  - destruct (last_occurrence _ _ Hin) as (l1 & l2 & E & Hl).
    pose proof (assign_heap_last cmc l1 l l2 c (assign_heap cmc c ls h) Hl) as H1.
    pose proof (assign_heap_last cmc l1 l l2 c h Hl) as H2.
    rewrite <- E in H1, H2.
    rewrite (assign_from_ext cmc (map (assign_heap cmc c ls h) ls) (map h ls)) in H1.
    + congruence.
    + rewrite !map_map. apply map_ext. intros l'. apply assign_heap_unplaced.
  - now apply assign_heap_frame.
Qed.

Lemma layout_store_again_arrays (cmc : Z) (a : loc) (s : Store) :
  arrays (layout_store cmc a (layout_store cmc a s)) a
  = arrays (layout_store cmc a s) a.
Proof.
  rewrite (arrays_layout_store cmc a (layout_store cmc a s)).
  apply sort_sorted_id. rewrite (arrays_layout_store cmc a s).
  apply Sorted_impl_Forall
    with (P := fun _ => True)
         (R := may_precede (fun l1 l2 => by_parent (heap s l1) (heap s l2))).
  - intros x y _ _ H. unfold may_precede, by_parent in *.
    now rewrite !heap_layout_store_parent.
  - apply Forall_forall. auto.
  - apply sort_sorted. intros x y. apply compare_parent_total.
Qed.

Lemma layout_store_again_heap (cmc : Z) (a : loc) (s : Store) (l : loc) :
  heap (layout_store cmc a (layout_store cmc a s)) l
  = heap (layout_store cmc a s) l.
Proof.
  pose proof (layout_store_again_arrays cmc a s) as EA.
  change (heap (layout_store cmc a (layout_store cmc a s)) l)
    with (assign_heap cmc cursor0
            (arrays (layout_store cmc a (layout_store cmc a s)) a)
            (heap (layout_store cmc a s)) l).
  rewrite EA.
  change (heap (layout_store cmc a s))
    with (assign_heap cmc cursor0 (arrays (layout_store cmc a s) a) (heap s)).
  apply assign_heap_idem.
Qed.

Lemma filter_map_comm {A B : Type} (g : A -> B) (f : B -> bool) (l : list A) :
  filter f (map g l) = map g (filter (fun x => f (g x)) l).
Proof.
  induction l as [|x l IH]; [reflexivity|].
  cbn [map filter]. destruct (f (g x)); cbn [map]; now rewrite IH.
Qed.

(** C5, the claim as it stands: the record [alice] is given cell (1, 1)
    when the array lists her before [bob] and cell (1, 2) when it lists
    her after him, although the two arrays hold the same records; the
    same on the objects of a store, where object 0 is [alice] and the
    arrays 0 and 1 refer to the two objects in the two orders.  And when
    an array refers to one object twice (arrays 2 and 3), two orderings
    do not even give the same cells down the array. *)
Lemma layout_cell_depends_on_input_order :
  valid [alice; bob]
  /\ Permutation [alice; bob] [bob; alice]
  /\ alice <> bob
  /\ layout 2 [alice; bob] = [set_row_index alice 1 1; set_row_index bob 1 2]
  /\ layout 2 [bob; alice] = [set_row_index bob 1 1; set_row_index alice 1 2]
  /\ ~ (forall r1 r2,
          In r1 (layout 2 [alice; bob]) -> In r2 (layout 2 [bob; alice]) ->
          unplaced r1 = unplaced r2 -> cell_of r1 = cell_of r2)
  /\ (view order_store 0%nat = [alice; bob]
      /\ view order_store 1%nat = [bob; alice]
      /\ cell_of (heap (layout_store 2 0%nat order_store) 0%nat)
         = (Some 1, Some 1)
      /\ cell_of (heap (layout_store 2 1%nat order_store) 0%nat)
         = (Some 1, Some 2))
  /\ (Permutation (arrays order_store 2%nat) (arrays order_store 3%nat)
      /\ map cell_of (view (layout_store 2 2%nat order_store) 2%nat)
         = [(Some 1, Some 2); (Some 1, Some 2); (Some 2, Some 1)]
      /\ map cell_of (view (layout_store 2 3%nat order_store) 3%nat)
         = [(Some 2, Some 1); (Some 1, Some 2); (Some 2, Some 1)]).
Proof.
  split; [reflexivity|]. split; [apply perm_swap|].
  split; [discriminate|]. split; [reflexivity|]. split; [reflexivity|].
  split.
  - intros H.
    specialize (H (set_row_index alice 1 1) (set_row_index alice 1 2)).
    assert (E : cell_of (set_row_index alice 1 1)
                = cell_of (set_row_index alice 1 2)).
    { apply H; [now left | right; now left | reflexivity]. }
    discriminate E.
  - split; [repeat split|].
    split; [|split; reflexivity].
    apply perm_skip, perm_swap.
Qed.

(** C5, amended: take two arrays that hold the same record objects, in
    any two orders, and lay out one or the other.  The array laid out
    keeps its objects, those of one parent in the order in which the
    input lists them (the sort is stable and compares parents only).  When
    the arrays refer to each object once, the (parent, row, index)
    triples read down the two laid-out arrays are the same, so the
    records of each parent occupy the same cells, and the objects of a
    parent, taken in the order in which the input lists them, hold the
    records laid out at the parent's positions, in order: which object
    of a parent gets which of the parent's cells follows the input.  When
    the two arrays list the objects of every parent in the same order,
    the two layouts sort to the same array and give every object the
    same row and index.  Laying out an array that has been laid out
    changes neither the array nor any object. *)
Theorem layout_order_independent_cells (cmc : Z) (a1 a2 : loc) (s : Store) :
  valid (view s a1) -> Permutation (arrays s a1) (arrays s a2) ->
  (Permutation (arrays (layout_store cmc a1 s) a1) (arrays s a1)
   /\ forall p,
        filter (of_parent (heap s) p) (arrays (layout_store cmc a1 s) a1)
        = filter (of_parent (heap s) p) (arrays s a1))
  /\ (NoDup (arrays s a1) ->
      map placed (view (layout_store cmc a1 s) a1)
      = map placed (view (layout_store cmc a2 s) a2)
      /\ forall p,
           map (heap (layout_store cmc a1 s))
               (filter (of_parent (heap s) p) (arrays s a1))
           = filter (fun r => option_string_eqb (parent r) p)
                    (layout cmc (view s a1)))
  /\ ((forall p, filter (of_parent (heap s) p) (arrays s a1)
                 = filter (of_parent (heap s) p) (arrays s a2)) ->
      arrays (layout_store cmc a1 s) a1 = arrays (layout_store cmc a2 s) a2
      /\ forall l, heap (layout_store cmc a1 s) l
                   = heap (layout_store cmc a2 s) l)
  /\ (arrays (layout_store cmc a1 (layout_store cmc a1 s)) a1
      = arrays (layout_store cmc a1 s) a1
      /\ forall l, heap (layout_store cmc a1 (layout_store cmc a1 s)) l
                   = heap (layout_store cmc a1 s) l).
Proof.
  intros Hv Hp.
  assert (Hv2 : valid (view s a2)).
  { eapply valid_perm; [|exact Hv]. unfold view. now apply Permutation_map. }
  split; [|split; [|split]].
  - split; [apply arrays_layout_store_perm|].
    intros p. rewrite arrays_layout_store. apply sort_of_parent.
  - intros Hnd.
    assert (Hnd2 : NoDup (arrays s a2))
      by (eapply Permutation_NoDup; eassumption).
    split.
    + rewrite !layout_store_view by assumption.
      apply assign_from_placed.
      apply sorted_parents_perm_invariant; [exact Hv|].
      unfold view. now apply Permutation_map.
    + intros p. rewrite <- (layout_store_view cmc a1 s Hnd).
      unfold view. rewrite filter_map_comm.
      rewrite <- (sort_of_parent (heap s) p (arrays s a1)).
      rewrite <- (arrays_layout_store cmc a1 s).
      f_equal. apply filter_ext. intros l. unfold of_parent.
      now rewrite heap_layout_store_parent.
  - intros HF.
    assert (EA : arrays (layout_store cmc a1 s) a1
                 = arrays (layout_store cmc a2 s) a2).
    { apply (ordered_filters_unique (heap s)).
      - now apply arrays_sorted_by_parent.
      - now apply arrays_sorted_by_parent.
      - intros p. rewrite !arrays_layout_store, !sort_of_parent. apply HF. }
    split; [exact EA|]. intros l.
    change (heap (layout_store cmc a1 s) l)
      with (assign_heap cmc cursor0 (arrays (layout_store cmc a1 s) a1)
              (heap s) l).
    rewrite EA. reflexivity.
  - split; [apply layout_store_again_arrays|].
    intros l. apply layout_store_again_heap.
Qed.

Lemma layout_order_independent_cells_sample :
  valid (view order_store 0%nat)
  /\ Permutation (arrays order_store 0%nat) (arrays order_store 1%nat)
  /\ (NoDup (arrays order_store 0%nat) ->
      map placed (view (layout_store 2 0%nat order_store) 0%nat)
      = map placed (view (layout_store 2 1%nat order_store) 1%nat)
      /\ forall p,
           map (heap (layout_store 2 0%nat order_store))
               (filter (of_parent (heap order_store) p)
                       (arrays order_store 0%nat))
           = filter (fun r => option_string_eqb (parent r) p)
                    (layout 2 (view order_store 0%nat))).
Proof.
  split; [reflexivity|]. split; [apply perm_swap|].
  apply (layout_order_independent_cells 2 0%nat 1%nat order_store);
    [reflexivity | apply perm_swap].
Defined.

(** ** Rows and indices of the objects *)

(** When the array refers to each object once: the object at the first
    position of the sorted array is in row 1 at index 1, and the rows in
    use have no gap: every row from 1 up to the row of an object is the
    row of some object. *)
Theorem rows_without_gaps (cmc : Z) (a : loc) (s : Store) :
  1 <= cmc -> arrays s a <> [] -> NoDup (arrays s a) ->
  (exists x rest,
      arrays (layout_store cmc a s) a = x :: rest
      /\ row (heap (layout_store cmc a s) x) = Some 1
      /\ index (heap (layout_store cmc a s) x) = Some 1)
  /\ (forall x v k,
        In x (arrays (layout_store cmc a s) a) ->
        row (heap (layout_store cmc a s) x) = Some v ->
        1 <= k <= v ->
        exists z, In z (arrays (layout_store cmc a s) a)
                  /\ row (heap (layout_store cmc a s) z) = Some k).
Proof.
  intros Hc Hne Hnd.
  assert (Hne' : view s a <> []).
  { unfold view. destruct (arrays s a); [contradiction | discriminate]. }
  destruct (layout_rows_without_gaps cmc (view s a) Hc Hne')
    as [(x0 & rest0 & E0 & R0 & I0) P].
  pose proof (layout_store_view cmc a s Hnd) as HV.
  split.
  - rewrite <- HV in E0. unfold view in E0.
    destruct (arrays (layout_store cmc a s) a) as [|x rest];
      [discriminate E0|].
    exists x, rest. split; [reflexivity|].
    assert (Ex : heap (layout_store cmc a s) x = x0)
      by exact (f_equal (hd x0) E0).
    now rewrite Ex.
  - intros x v k Hx Hv Hk.
    destruct (P (heap (layout_store cmc a s) x) v k) as (zr & Hz & Hzk);
      try assumption.
    { rewrite <- HV. unfold view. now apply in_map. }
    rewrite <- HV in Hz. unfold view in Hz. apply in_map_iff in Hz.
    destruct Hz as (z & <- & Hz). exists z. auto.
Qed.

Lemma rows_without_gaps_sample :
  1 <= 1 /\ arrays sample_store 0%nat <> [] /\ NoDup (arrays sample_store 0%nat)
  /\ exists x rest,
       arrays (layout_store 1 0%nat sample_store) 0%nat = x :: rest
       /\ row (heap (layout_store 1 0%nat sample_store) x) = Some 1
       /\ index (heap (layout_store 1 0%nat sample_store) x) = Some 1.
Proof.
  assert (Hnd : NoDup (arrays sample_store 0%nat)).
  { repeat (constructor; [simpl; intuition discriminate|]). constructor. }
  split; [lia|]. split; [discriminate|]. split; [exact Hnd|].
  apply (rows_without_gaps 1 0%nat sample_store); [lia | discriminate | exact Hnd].
Defined.

(** Position by position: a position given an index above 1 comes right
    after a position of the same parent in the same row at the index
    before. *)
Lemma layout_predecessor (cmc : Z) (json : list Child) (L1 : list Child)
    (xr : Child) (L2 : list Child) :
  layout cmc json = L1 ++ xr :: L2 -> 1 < indexZ xr ->
  exists L0 zr, L1 = L0 ++ [zr] /\ parent zr = parent xr
                /\ rowZ zr = rowZ xr /\ indexZ zr = indexZ xr - 1.
Proof.
  intros E Hi. destruct L1 as [|z1 L1'] eqn:EL1.
  - exfalso. assert (Hne : json <> []) by (intros ->; discriminate E).
    destruct (layout_head cmc json Hne) as (x0 & rest & E0 & _ & Hi0 & _).
    rewrite E in E0. cbn [app] in E0.
    assert (xr = x0) by congruence. subst x0. lia.
  - destruct (exists_last (l := z1 :: L1')) as (L0 & zr & EL0); [discriminate|].
    rewrite EL0 in E. rewrite <- app_assoc in E. cbn [app] in E.
    pose proof (layout_chain cmc json) as HS. rewrite E in HS.
    apply Sorted_app_r, chain_head in HS.
    destruct HS as [[_ [H | [H | H]]] _]; [lia | lia|].
    exists L0, zr. split; [exact EL0|].
    destruct H as (Hp & _ & Hr & Hix). repeat split; [exact Hp | lia | lia].
Qed.

(** When the array refers to each object once: every index is at least
    1, and an object at an index above 1 stands in the array right after
    an object of the same parent that is in the same row at the index
    before: rows are filled from index 1 without holes. *)
Theorem indices_without_gaps (cmc : Z) (a : loc) (s : Store)
    (l1 : list loc) (x : loc) (l2 : list loc) (i : Z) :
  NoDup (arrays s a) ->
  arrays (layout_store cmc a s) a = l1 ++ x :: l2 ->
  index (heap (layout_store cmc a s) x) = Some i ->
  1 <= i
  /\ (1 < i ->
      exists l0 z,
        l1 = l0 ++ [z]
        /\ parent (heap (layout_store cmc a s) z)
           = parent (heap (layout_store cmc a s) x)
        /\ row (heap (layout_store cmc a s) z)
           = row (heap (layout_store cmc a s) x)
        /\ index (heap (layout_store cmc a s) z) = Some (i - 1)).
Proof.
  intros Hnd E Hi.
  assert (Hx : In x (arrays (layout_store cmc a s) a))
    by (rewrite E; apply in_elt).
  destruct (final_record_annotated _ _ _ _ Hx) as [Ar Ai].
  assert (Ei : i = indexZ (heap (layout_store cmc a s) x)) by congruence.
  split.
  - rewrite Ei. eapply layout_index_pos. apply final_record_In. exact Hx.
  - intros Hgt.
    pose proof (layout_store_view cmc a s Hnd) as HV.
    unfold view in HV. rewrite E, map_app, map_cons in HV. symmetry in HV.
    destruct (layout_predecessor cmc (view s a) _ _ _ HV) as (L0 & zr & EL & Hp & Hr & Hz);
      [lia|].
    apply map_eq_app in EL. destruct EL as (l0 & lz & -> & _ & Ez).
    destruct lz as [|z [|? ?]]; try discriminate Ez.
    assert (Hzr : heap (layout_store cmc a s) z = zr)
      by exact (f_equal (hd zr) Ez).
    exists l0, z. split; [reflexivity|].
    assert (Hzin : In z (arrays (layout_store cmc a s) a)).
    { rewrite E. apply in_or_app. left. apply in_or_app. right. now left. }
    destruct (final_record_annotated _ _ _ _ Hzin) as [Azr Azi].
    rewrite Hzr in *. split; [exact Hp|]. split.
    + rewrite Ar, Azr. now rewrite Hr.
    + rewrite Azi. f_equal. lia.
Qed.

Lemma indices_without_gaps_sample :
  NoDup (arrays sample_store 0%nat)
  /\ arrays (layout_store 2 0%nat sample_store) 0%nat
     = [1%nat] ++ 2%nat :: [0%nat]
  /\ index (heap (layout_store 2 0%nat sample_store) 2%nat) = Some 2
  /\ 1 <= 2
  /\ (1 < 2 ->
      exists l0 z,
        [1%nat] = l0 ++ [z]
        /\ parent (heap (layout_store 2 0%nat sample_store) z)
           = parent (heap (layout_store 2 0%nat sample_store) 2%nat)
        /\ row (heap (layout_store 2 0%nat sample_store) z)
           = row (heap (layout_store 2 0%nat sample_store) 2%nat)
        /\ index (heap (layout_store 2 0%nat sample_store) z) = Some (2 - 1)).
Proof.
  assert (Hnd : NoDup (arrays sample_store 0%nat)).
  { repeat (constructor; [simpl; intuition discriminate|]). constructor. }
  split; [exact Hnd|]. split; [reflexivity|]. split; [reflexivity|].
  apply (indices_without_gaps 2 0%nat sample_store [1%nat] 2%nat [0%nat] 2);
    [exact Hnd | reflexivity | reflexivity].
Defined.

(** When the array refers to each object once, the cells of the objects
    in closed form, for a valid array and at least one block to a row:
    the groups of the sorted array (runs of equal parent) follow one
    another, the first starting in row 1 and each next one in the row
    after the last row of the group before; within a group that starts
    in row [R] the object at offset [k] (from 0) is in row [R + k / cmc]
    at index [1 + k mod cmc]; so a group of [n] records takes
    [ceil (n / cmc)] rows. *)
Theorem layout_is_grid (cmc : Z) (a : loc) (s : Store) :
  1 <= cmc -> valid (view s a) -> NoDup (arrays s a) ->
  map (fun l => cell_of (heap (layout_store cmc a s) l))
      (arrays (layout_store cmc a s) a)
  = map (fun c => (Some (fst c), Some (snd c)))
        (grid cmc 1 (groups (view s a)))
  /\ map (fun l => parent (heap (layout_store cmc a s) l))
         (arrays (layout_store cmc a s) a)
     = map Some (expand (groups (view s a))).
Proof.
  intros Hc Hv Hnd.
  destruct (layout_grid cmc (view s a) Hc Hv) as [G1 G2].
  rewrite <- (layout_store_view cmc a s Hnd) in G1, G2.
  unfold view in G1, G2. rewrite map_map in G1, G2. now split.
Qed.

Lemma layout_is_grid_sample :
  1 <= 2 /\ valid (view sample_store 0%nat) /\ NoDup (arrays sample_store 0%nat)
  /\ map (fun l => cell_of (heap (layout_store 2 0%nat sample_store) l))
         (arrays (layout_store 2 0%nat sample_store) 0%nat)
     = map (fun c => (Some (fst c), Some (snd c)))
           (grid 2 1 (groups (view sample_store 0%nat))).
Proof.
  assert (Hnd : NoDup (arrays sample_store 0%nat)).
  { repeat (constructor; [simpl; intuition discriminate|]). constructor. }
  split; [lia|]. split; [reflexivity|]. split; [exact Hnd|].
  apply (layout_is_grid 2 0%nat sample_store); [lia | reflexivity | exact Hnd].
Defined.
